(** * ExtractTextFromSlide: reconciliation of native and OCR text

    A shallow embedding of [main.py] and of the parts of the Python
    runtime it relies on ([str] methods, the regular expressions it uses,
    [difflib.SequenceMatcher]), followed by the properties of the
    sanitizer, the page merger, the document assembler and the block
    segmenter.

    Conventions of the embedding.
    - A Python [str] is the list of its Unicode code points ([list N]);
      [len] is [length].
    - A Python [float] obtained as the quotient of two integers is the
      exact rational ([Q], reduced).  The program only compares such
      quotients with the literals 0.6, 0.8 and 0.85; for operands below
      2^50 the correctly rounded quotient compares with the rounded
      literal exactly as the rational compares with the decimal.
    - [print] writes to standard output only and is left out; the
      standard output is taken to accept every message. *)

From Stdlib Require Import QArith Ascii String.
From stdpp Require Import gmap list sorting.

Local Open Scope N_scope.

(** ** Python strings *)

Abbreviation str := (list N).

Module PyStr.

(** Decoding of the UTF-8 bytes of a source literal into code points. *)
Fixpoint utf8_decode (bs : list N) : str :=
  match bs with
  | [] => []
  | b0 :: r0 =>
    if b0 <? 0x80 then b0 :: utf8_decode r0
    else
      match r0 with
      | [] => []
      | b1 :: r1 =>
        if b0 <? 0xE0 then (b0 mod 32 * 64 + b1 mod 64) :: utf8_decode r1
        else
          match r1 with
          | [] => []
          | b2 :: r2 =>
            if b0 <? 0xF0
            then (b0 mod 16 * 4096 + b1 mod 64 * 64 + b2 mod 64)
                   :: utf8_decode r2
            else
              match r2 with
              | [] => []
              | b3 :: r3 =>
                (b0 mod 8 * 262144 + b1 mod 64 * 4096
                 + b2 mod 64 * 64 + b3 mod 64) :: utf8_decode r3
              end
          end
      end
  end.

Definition u (s : string) : str :=
  utf8_decode (map N_of_ascii (list_ascii_of_string s)).

(** [str.isspace] on one character, which is also what [strip], [split]
    and the regular expression class [\s] use. *)
Definition isspace (c : N) : bool :=
  ((9 <=? c) && (c <=? 13)) || ((28 <=? c) && (c <=? 32))
  || (c =? 0x85) || (c =? 0xA0) || (c =? 0x1680)
  || ((0x2000 <=? c) && (c <=? 0x200A))
  || (c =? 0x2028) || (c =? 0x2029) || (c =? 0x202F)
  || (c =? 0x205F) || (c =? 0x3000).

Fixpoint lstrip (s : str) : str :=
  match s with
  | [] => []
  | c :: s' => if isspace c then lstrip s' else s
  end.

Definition rstrip (s : str) : str := rev (lstrip (rev s)).

(** [s.strip()] *)
Definition strip (s : str) : str := rstrip (lstrip s).

(** [s.split()]: the maximal runs of characters that are not white
    space. *)
Fixpoint split_go (cur : str) (s : str) : list str :=
  match s with
  | [] => match cur with [] => [] | _ => [cur] end
  | c :: s' =>
    if isspace c
    then match cur with [] => split_go [] s' | _ => cur :: split_go [] s' end
    else split_go (cur ++ [c]) s'
  end.

Definition split (s : str) : list str := split_go [] s.

(** [s.split(sep)] for a separator of one character. *)
Fixpoint split_char_go (sep : N) (cur : str) (s : str) : list str :=
  match s with
  | [] => [cur]
  | c :: s' =>
    if c =? sep then cur :: split_char_go sep [] s'
    else split_char_go sep (cur ++ [c]) s'
  end.

Definition split_char (sep : N) (s : str) : list str :=
  split_char_go sep [] s.

(** [sep.join(parts)] *)
Fixpoint join (sep : str) (parts : list str) : str :=
  match parts with
  | [] => []
  | [p] => p
  | p :: ps => p ++ sep ++ join sep ps
  end.

(** [c in s] for a character [c]. *)
Definition char_in (c : N) (s : str) : bool := existsb (N.eqb c) s.

(** [sub in s] for strings. *)
Fixpoint starts_with (p s : str) : bool :=
  match p, s with
  | [], _ => true
  | _ :: _, [] => false
  | a :: p', b :: s' => (a =? b) && starts_with p' s'
  end.

Fixpoint contains (sub s : str) : bool :=
  starts_with sub s
  || match s with [] => false | _ :: s' => contains sub s' end.

(** [len(set(parts))] *)
Definition set_size (parts : list str) : nat :=
  size (list_to_set (C := gset str) parts).

End PyStr.
Import PyStr.

(** ** The Unicode tables

    [str.isalnum], [str.lower] and the classes [\d], [\w] and
    case-insensitive matching of [re] are read from the Unicode character
    database of the interpreter.  The program is embedded over any such
    tables. *)
Class Unicode := {
  (** [c.isalnum()] *)
  uc_isalnum : N -> bool;
  (** the class [\d] of [re] *)
  uc_isdecimal : N -> bool;
  (** [c.isdigit()] *)
  uc_isdigit : N -> bool;
  (** the value of a character of the class [\d], as [int] reads it *)
  uc_decimal_value : N -> Z;
  (** [s.lower()] *)
  uc_lower : str -> str;
  (** [uc_ci_match p c]: the pattern character [p] matches the character
      [c] under [re.IGNORECASE] *)
  uc_ci_match : N -> N -> bool
}.

(** ** The regular expressions of the program

    Each pattern of [main.py] is embedded as the scanner that computes the
    same result as [re] on every subject; [cls] stands for a bracketed
    character class. *)
Module Re.

(** [re.sub('[cls]', '', s)] *)
Definition sub_class (cls : N -> bool) (s : str) : str :=
  filter (fun c => cls c = false) s.

(** [re.match('^[cls]{n,}$', s)]; every class used this way contains
    the line feed, so that the [$] before a final line feed adds
    nothing. *)
Definition match_all (cls : N -> bool) (n : nat) (s : str) : bool :=
  (n <=? length s)%nat && forallb cls s.

(** [re.search('[cls]{n,}', s)]: [k] characters of the class have just
    been read. *)
Fixpoint search_run_go (cls : N -> bool) (n k : nat) (s : str) : bool :=
  match s with
  | [] => false
  | c :: s' =>
    if cls c then (n <=? S k)%nat || search_run_go cls n (S k) s'
    else search_run_go cls n 0 s'
  end.

Definition search_run (cls : N -> bool) (n : nat) (s : str) : bool :=
  search_run_go cls n 0 s.

(** [re.search('([cls])\1{m,}', s)] with [n = m + 1]: [prev] is the
    character of the class read last, if the last character was one,
    and [k] the number of its consecutive copies. *)
Fixpoint search_repeat_go (cls : N -> bool) (n : nat)
    (prev : option N) (k : nat) (s : str) : bool :=
  match s with
  | [] => false
  | c :: s' =>
    if cls c then
      let k' := if bool_decide (prev = Some c) then S k else 1%nat in
      (n <=? k')%nat || search_repeat_go cls n (Some c) k' s'
    else search_repeat_go cls n None 0 s'
  end.

Definition search_repeat (cls : N -> bool) (n : nat) (s : str) : bool :=
  search_repeat_go cls n None 0 s.

(** [re.split('([cls]+)', s)]: the pieces between the runs of the class
    and the runs themselves, alternating; [text] is the piece being read
    and [delim] the run that follows it, empty until it starts. *)
Fixpoint split_capture_go (cls : N -> bool) (text delim : str) (s : str)
    : list str :=
  match s with
  | [] => match delim with [] => [text] | _ => [text; delim; []] end
  | c :: s' =>
    if cls c then split_capture_go cls text (delim ++ [c]) s'
    else
      match delim with
      | [] => split_capture_go cls (text ++ [c]) [] s'
      | _ => text :: delim :: split_capture_go cls [c] [] s'
      end
  end.

Definition split_capture (cls : N -> bool) (s : str) : list str :=
  split_capture_go cls [] [] s.

(** The elements of even index. *)
Fixpoint evens {A} (l : list A) : list A :=
  match l with
  | [] => []
  | x :: l' => x :: match l' with [] => [] | _ :: l'' => evens l'' end
  end.

(** [re.split('[cls]+', s)]: the same pieces without the runs. *)
Definition split (cls : N -> bool) (s : str) : list str :=
  evens (split_capture cls s).

(** [re.sub('\s+', ' ', s)]: [in_run] says that the previous character
    was white space. *)
Fixpoint sub_spaces_go (in_run : bool) (s : str) : str :=
  match s with
  | [] => []
  | c :: s' =>
    if isspace c
    then if in_run then sub_spaces_go true s' else 32 :: sub_spaces_go true s'
    else c :: sub_spaces_go false s'
  end.

Definition sub_spaces (s : str) : str := sub_spaces_go false s.

(** [re.sub('\s+([cls])', '\1', s)] for a class without white space:
    [ws] is the run of white space read since the last other
    character. *)
Fixpoint sub_spaces_before_go (cls : N -> bool) (ws : str) (s : str)
    : str :=
  match s with
  | [] => ws
  | c :: s' =>
    if isspace c then sub_spaces_before_go cls (ws ++ [c]) s'
    else if cls c then c :: sub_spaces_before_go cls [] s'
    else ws ++ c :: sub_spaces_before_go cls [] s'
  end.

Definition sub_spaces_before (cls : N -> bool) (s : str) : str :=
  sub_spaces_before_go cls [] s.

(** [re.sub('([cls])\s+', '\1', s)] for a class without white space:
    [after] says that only white space was read since the last
    character of the class. *)
Fixpoint sub_spaces_after_go (cls : N -> bool) (after : bool) (s : str)
    : str :=
  match s with
  | [] => []
  | c :: s' =>
    if after && isspace c then sub_spaces_after_go cls true s'
    else c :: sub_spaces_after_go cls (cls c) s'
  end.

Definition sub_spaces_after (cls : N -> bool) (s : str) : str :=
  sub_spaces_after_go cls false s.

(** [re.sub('([cls1])([cls2])', '\1 \2', s)] *)
Fixpoint sub_insert_space (cls1 cls2 : N -> bool) (s : str) : str :=
  match s with
  | [] => []
  | c1 :: s' =>
    match s' with
    | [] => [c1]
    | c2 :: s'' =>
      if cls1 c1 && cls2 c2
      then c1 :: 32 :: c2 :: sub_insert_space cls1 cls2 s''
      else c1 :: sub_insert_space cls1 cls2 s'
    end
  end.

(** The text after the leftmost occurrence of the literal [lit], read
    with the character comparison [eqc]. *)
Fixpoint strip_prefix (eqc : N -> N -> bool) (lit s : str) : option str :=
  match lit, s with
  | [], _ => Some s
  | _ :: _, [] => None
  | p :: lit', c :: s' =>
    if eqc p c then strip_prefix eqc lit' s' else None
  end.

Fixpoint find_after (eqc : N -> N -> bool) (lit s : str) : option str :=
  match strip_prefix eqc lit s with
  | Some rest => Some rest
  | None =>
    match s with
    | [] => None
    | _ :: s' => find_after eqc lit s'
    end
  end.

(** [re.search('l1.*l2.*...', s)] for literals [l1], [l2], ... without
    line feed: [.] does not match a line feed, so the literals are to
    be found in this order within one line of [s]. *)
Fixpoint search_in_order (eqc : N -> N -> bool) (lits : list str)
    (s : str) : bool :=
  match lits with
  | [] => true
  | lit :: lits' =>
    match find_after eqc lit s with
    | Some rest => search_in_order eqc lits' rest
    | None => false
    end
  end.

Definition search_literals (eqc : N -> N -> bool) (lits : list str)
    (s : str) : bool :=
  existsb (search_in_order eqc lits) (split_char 10 s).

End Re.

(** ** [difflib.SequenceMatcher]

    [SequenceMatcher(None, a, b)] as in the standard library: no junk
    predicate, and the automatic junk heuristic on. *)
Module Difflib.

Local Open Scope nat_scope.

(** A matching block: [a[m_a : m_a + m_size] == b[m_b : m_b + m_size]]. *)
Record Match := mkMatch { m_a : nat; m_b : nat; m_size : nat }.

Section SequenceMatcher.

Variables a b : str.

(** [__chain_b]: for every character of [b] the increasing list of the
    positions where it occurs. *)
Definition b2j_all : gmap N (list nat) :=
  foldl (fun (m : gmap N (list nat)) '(i, elt) =>
           <[elt := default [] (m !! elt) ++ [i]]> m)
        ∅ (imap pair b).

(** A character is popular when [b] has at least 200 characters and
    more than 1% + 1 of them are this one. *)
Definition popular (idxs : list nat) : bool :=
  (200 <=? length b) && (length b / 100 + 1 <? length idxs).

(** The popular characters are deleted from the table. *)
Definition b2j : gmap N (list nat) :=
  filter (fun p : N * list nat => popular p.2 = false) b2j_all.

(** The best block so far.  The state of the search for the longest
    match pairs it with [j2len], which holds for every [j] the length of
    the longest match ending with the previous [a[i]] and with [b[j]]. *)
Record search := mkSearch {
  besti : nat; bestj : nat; bestsize : nat
}.

(** [j2lenget(j-1, 0)]: the key -1 is never present. *)
Definition j2len_before (j2len : gmap nat nat) (j : nat) : nat :=
  match j with
  | 0 => 0
  | S j' => default 0 (j2len !! j')
  end.

(** The loop over the positions [j] of [a[i]] in [b]; positions below
    [blo] are skipped and the loop ends at the first one from [bhi]
    on.  [i - k + 1] is written [S i - k]. *)
Fixpoint scan_row (blo bhi i : nat) (j2len : gmap nat nat)
    (js : list nat) (st : search * gmap nat nat)
    : search * gmap nat nat :=
  match js with
  | [] => st
  | j :: js' =>
    if j <? blo then scan_row blo bhi i j2len js' st
    else if bhi <=? j then st
    else
      let k := j2len_before j2len j + 1 in
      let newj2len := <[j := k]> st.2 in
      if bestsize st.1 <? k
      then scan_row blo bhi i j2len js'
             (mkSearch (S i - k) (S j - k) k, newj2len)
      else scan_row blo bhi i j2len js' (st.1, newj2len)
  end.

(** One turn of the loop [for i in range(alo, ahi)]. *)
Definition scan_step (blo bhi : nat) (st : search * gmap nat nat)
    (i : nat) : search * gmap nat nat :=
  scan_row blo bhi i st.2 (default [] (b2j !! (a !!! i))) (st.1, ∅).

Definition scan (alo ahi blo bhi : nat) : search :=
  (foldl (scan_step blo bhi) (mkSearch alo blo 0, ∅)
         (seq alo (ahi - alo))).1.

(** The first [while]: the block grows to the left over equal
    characters (no character is junk). *)
Fixpoint extend_left (alo blo : nat) (i j size : nat) : search :=
  match i, j with
  | S i', S j' =>
    if (alo <? i) && (blo <? j) && N.eqb (a !!! i') (b !!! j')
    then extend_left alo blo i' j' (S size)
    else mkSearch i j size
  | _, _ => mkSearch i j size
  end.

(** The second [while]: the block grows to the right; it can do so at
    most [n] times, where [n] is the distance to [ahi]. *)
Fixpoint extend_right (n : nat) (ahi bhi : nat) (i j size : nat)
    : nat :=
  match n with
  | 0 => size
  | S n' =>
    if (i + size <? ahi) && (j + size <? bhi)
       && N.eqb (a !!! (i + size)) (b !!! (j + size))
    then extend_right n' ahi bhi i j (S size)
    else size
  end.

(** [find_longest_match(alo, ahi, blo, bhi)]; the last two [while]
    loops of the library only absorb junk and never run here. *)
Definition find_longest_match (alo ahi blo bhi : nat) : Match :=
  let s := scan alo ahi blo bhi in
  let l := extend_left alo blo (besti s) (bestj s) (bestsize s) in
  let k := extend_right (ahi - (besti l + bestsize l)) ahi bhi
             (besti l) (bestj l) (bestsize l) in
  mkMatch (besti l) (bestj l) k.

(** The loop [while queue] of [get_matching_blocks]; the head of
    [queue] is the item popped next, and at most [fuel] items are
    popped. *)
Fixpoint matching_blocks_go (fuel : nat)
    (queue : list (nat * nat * nat * nat)) (blocks : list Match)
    : list Match :=
  match queue with
  | [] => blocks
  | (alo, ahi, blo, bhi) :: queue' =>
    match fuel with
    | 0 => blocks
    | S fuel' =>
      let x := find_longest_match alo ahi blo bhi in
      let i := m_a x in
      let j := m_b x in
      let k := m_size x in
      if (0 <? k) then
        let q1 := if (alo <? i) && (blo <? j)
                  then (alo, i, blo, j) :: queue' else queue' in
        let q2 := if (i + k <? ahi) && (j + k <? bhi)
                  then (i + k, ahi, j + k, bhi) :: q1 else q1 in
        matching_blocks_go fuel' q2 (blocks ++ [x])
      else matching_blocks_go fuel' queue' blocks
    end
  end.

(** The order of [matching_blocks.sort()]. *)
Definition match_le (x y : Match) : Prop :=
  m_a x < m_a y
  ∨ (m_a x = m_a y
     ∧ (m_b x < m_b y ∨ (m_b x = m_b y ∧ m_size x ≤ m_size y))).

#[local] Instance match_le_dec x y : Decision (match_le x y).
Proof. unfold match_le. apply _. Defined.

(** Adjacent blocks are merged: [cur] is [(i1, j1, k1)]. *)
Fixpoint collapse (cur : Match) (blocks : list Match) : list Match :=
  match blocks with
  | [] => if 0 <? m_size cur then [cur] else []
  | x :: blocks' =>
    if (m_a cur + m_size cur =? m_a x) && (m_b cur + m_size cur =? m_b x)
    then collapse (mkMatch (m_a cur) (m_b cur) (m_size cur + m_size x))
           blocks'
    else (if 0 <? m_size cur then [cur] else []) ++ collapse x blocks'
  end.

(** [get_matching_blocks()]: a range of [a] is searched at most once
    for every character of [a]. *)
Definition get_matching_blocks : list Match :=
  let found :=
    matching_blocks_go (S (length a)) [(0, length a, 0, length b)] [] in
  collapse (mkMatch 0 0 0) (merge_sort match_le found)
  ++ [mkMatch (length a) (length b) 0].

(** [_calculate_ratio(matches, length)] *)
Definition calculate_ratio (matches len : nat) : Q :=
  if 0 <? len
  then Qred (Z.of_nat (2 * matches) # Pos.of_nat len)
  else 1%Q.

(** [ratio()] *)
Definition ratio : Q :=
  calculate_ratio (sum_list (m_size <$> get_matching_blocks))
                  (length a + length b).

End SequenceMatcher.

End Difflib.

(** ** The program *)

(** Comparison of a quotient of integers with a decimal literal. *)
Definition float_lt (x y : Q) : bool := negb (Qle_bool y x).

Section Program.

Context {U : Unicode}.

(** The classes [\w], [[.,;:!?]] and [[.!?]]. *)
Definition re_word (c : N) : bool := uc_isalnum c || (c =? 95).
Definition punteggiatura (c : N) : bool := char_in c (u ".,;:!?").
Definition terminatore (c : N) : bool := char_in c (u ".!?").

(** [[^\w\s]] *)
Definition re_strano (c : N) : bool := negb (re_word c || isspace c).

Definition decorativi : str := u "•◦▪▫●○■□★☆♦♣♠♥".

(** The literals of the header pattern, which [.*] separates. *)
Definition intestazione : list str :=
  [u "Andrea Asperti"; u "Università"; u "Bologna"; u "DISI"].

(** The body of the loop over the lines of [pulisci_testo_ocr]. *)
Definition pulisci_linea (linee_pulite : list str) (linea : str)
    : list str :=
  let linea := strip linea in
  if (length linea <? 3)%nat then linee_pulite
  else if Re.match_all
            (fun c => uc_isdecimal c || isspace c || char_in c (u "-/"))
            1 linea
          && (length linea <? 15)%nat then linee_pulite
  else if Re.search_literals uc_ci_match intestazione linea
  then linee_pulite
  else
    let parole := split linea in
    if (2 <? length parole)%nat && (set_size parole =? 1)%nat
    then linee_pulite
    else if Re.search_run re_strano 5 linea then linee_pulite
    else if Re.match_all (fun c => isspace c || char_in c (u "|-_=~`"))
              3 linea then linee_pulite
    else linee_pulite ++ [linea].

Definition pulisci_testo_ocr (testo : str) : str :=
  match testo with
  | [] => []
  | _ =>
    let testo := Re.sub_class (fun c => char_in c decorativi) testo in
    let linee := split_char 10 testo in
    let linee_pulite := foldl pulisci_linea [] linee in
    let testo := join (u " ") linee_pulite in
    let testo := Re.sub_spaces testo in
    let testo := Re.sub_spaces_before punteggiatura testo in
    let testo :=
      Re.sub_insert_space punteggiatura
        (fun c => ((65 <=? c) && (c <=? 90)) || ((97 <=? c) && (c <=? 122))
                  || ((0xC0 <=? c) && (c <=? 0xFF))
                  || ((48 <=? c) && (c <=? 57)))
        testo in
    let testo := Re.sub_spaces_after (N.eqb 40) testo in
    let testo := Re.sub_spaces_before (N.eqb 41) testo in
    let testo :=
      Re.sub_class
        (fun c => (c <=? 8) || ((11 <=? c) && (c <=? 12))
                  || ((14 <=? c) && (c <=? 31)) || (c =? 127))
        testo in
    strip testo
  end.

Definition calcola_similarita (testo1 testo2 : str) : Q :=
  match testo1, testo2 with
  | [], _ | _, [] => 0
  | _, _ => Difflib.ratio (uc_lower testo1) (uc_lower testo2)
  end.

Definition caratteri_ammessi : str :=
  u ".,;:!?()+-*/=<>[]{}^_αβγδεθλμπστφωΣΔΦΩ±×÷≈≠≤≥∞∂∇∫√".

Definition is_frase_valida (frase : str) : bool :=
  let parole := split frase in
  if (length parole <? 2)%nat then false
  else
    let caratteri_validi :=
      sum_list
        ((fun c => Nat.b2n (uc_isalnum c || isspace c
                            || char_in c caratteri_ammessi)) <$> frase) in
    if (0 <? length frase)%nat
       && float_lt (Z.of_nat caratteri_validi # Pos.of_nat (length frase))
                   (6 # 10)
    then false
    else if Re.search_repeat re_strano 5 frase then false
    else true.

(** The loop over [frasi_base] of [trova_frasi_uniche], which leaves at
    the first similar sentence; its result is [trovata]. *)
Fixpoint trovata_in (frase_pulita : str) (frasi_base : list str) : bool :=
  match frasi_base with
  | [] => false
  | frase_base :: frasi_base' =>
    if float_lt (85 # 100)
         (calcola_similarita (uc_lower frase_pulita) (strip frase_base))
    then true
    else trovata_in frase_pulita frasi_base'
  end.

(** The body of the loop over [frasi_ocr]. *)
Definition frase_unica_step (frasi_base : gset str)
    (frasi_nuove : list str) (frase : str) : list str :=
  let frase_pulita := strip frase in
  if bool_decide (frase_pulita = []) || (length frase_pulita <? 15)%nat
  then frasi_nuove
  else if negb (is_frase_valida frase_pulita) then frasi_nuove
  else if trovata_in frase_pulita (elements frasi_base) then frasi_nuove
  else frasi_nuove ++ [frase_pulita].

Definition trova_frasi_uniche (testo_base testo_ocr : str) : list str :=
  match testo_ocr, testo_base with
  | [], _ => []
  | _, [] =>
    let frasi := Re.split terminatore testo_ocr in
    strip <$>
      filter (fun f => (15 <? length (strip f))%nat
                       && is_frase_valida (strip f) = true) frasi
  | _, _ =>
    let frasi_base : gset str :=
      list_to_set (Re.split terminatore (uc_lower testo_base)) in
    let frasi_ocr := Re.split terminatore testo_ocr in
    foldl (frase_unica_step frasi_base) [] frasi_ocr
  end.

(** [num_pagina] only appears in the progress line. *)
Definition unisci_testo_pagina (testo_nativo testo_ocr : str)
    (num_pagina : nat) : str :=
  if bool_decide (testo_nativo = [])
     || (length (strip testo_nativo) <? 10)%nat
  then match testo_ocr with [] => [] | _ => testo_ocr end
  else if bool_decide (testo_ocr = [])
          || (length (strip testo_ocr) <? 10)%nat
  then testo_nativo
  else
    let similarita := calcola_similarita testo_nativo testo_ocr in
    if float_lt (8 # 10) similarita then testo_nativo
    else
      let frasi_nuove := trova_frasi_uniche testo_nativo testo_ocr in
      match frasi_nuove with
      | _ :: _ =>
        let testo_aggiuntivo := join (u ". ") frasi_nuove in
        testo_nativo ++ u ". " ++ testo_aggiuntivo
      | [] => testo_nativo
      end.

(** The two [while] loops that fill the shorter list of pages. *)
Definition riempi (num_pagine : nat) (testi : list str) : list str :=
  testi ++ replicate (num_pagine - length testi) [].

(** The second half of [estrai_testo_completo_pdf], from the two lists
    of pages on. *)
Definition unisci_pagine (testi_nativi testi_ocr : list str) : str :=
  let num_pagine := Nat.max (length testi_nativi) (length testi_ocr) in
  let testi_nativi := riempi num_pagine testi_nativi in
  let testi_ocr := riempi num_pagine testi_ocr in
  let testi_finali :=
    foldl (fun testi_finali i =>
             let testo_unito :=
               unisci_testo_pagina (testi_nativi !!! i) (testi_ocr !!! i)
                                   (i + 1) in
             match testo_unito with
             | [] => testi_finali
             | _ => testi_finali ++ [testo_unito]
             end)
          [] (seq 0 num_pagine) in
  join (u " ") testi_finali.

(** The sentences of [dividi_in_blocchi_con_frasi]: every piece with
    the run of terminators after it, then the last piece when it is
    not blank. *)
Definition frasi_complete (testo : str) : list str :=
  let frasi := Re.split_capture terminatore testo in
  let complete :=
    foldl (fun complete i =>
             if (i + 1 <? length frasi)%nat
             then complete ++ [strip (frasi !!! i ++ frasi !!! (i + 1)%nat)]
             else complete)
          [] (Re.evens (seq 0 (length frasi - 1))) in
  if (length frasi mod 2 =? 1)%nat
     && negb (bool_decide (strip (List.last frasi []) = []))
  then complete ++ [strip (List.last frasi [])]
  else complete.

(** [len(frase.split())] *)
Definition num_parole (frase : str) : Z := Z.of_nat (length (split frase)).

(** The state of the loop over the sentences: the closed blocks, the
    open block and its number of words.  A block is kept as the list
    of its sentences; the program stores [' '.join] of that list. *)
Record blocchi_stato := mkStato {
  blocchi : list (list str);
  blocco_corrente : list str;
  conteggio_parole : Z
}.

Definition blocchi_step (parole_per_blocco : Z) (st : blocchi_stato)
    (frase : str) : blocchi_stato :=
  if (parole_per_blocco <? conteggio_parole st + num_parole frase)%Z
     && negb (bool_decide (blocco_corrente st = []))
  then mkStato (blocchi st ++ [blocco_corrente st]) [frase]
               (num_parole frase)
  else mkStato (blocchi st) (blocco_corrente st ++ [frase])
               (conteggio_parole st + num_parole frase).

(** The blocks, each as the list of its sentences. *)
Definition blocchi_di_frasi (testo : str) (parole_per_blocco : Z)
    : list (list str) :=
  let st := foldl (blocchi_step parole_per_blocco) (mkStato [] [] 0)
                  (frasi_complete testo) in
  match blocco_corrente st with
  | [] => blocchi st
  | _ => blocchi st ++ [blocco_corrente st]
  end.

Definition dividi_in_blocchi_con_frasi (testo : str)
    (parole_per_blocco : Z) : str :=
  join [10; 10] (join (u " ") <$> blocchi_di_frasi testo parole_per_blocco).

End Program.

(** ** The command surface

    What the program reads from its environment: whether the libraries
    can be imported, what the file system answers to [Path.exists],
    [Path.glob], [Path.mkdir], [open] and [write], and the answers typed
    at the prompt. *)

(** A file as the external tools see it: its name and stem, and the text
    of its pages as the reader and as the OCR engine return them, or
    [None] when the tool raises an exception. *)
Record Pdf := mkPdf {
  pdf_name : str;
  pdf_stem : str;
  pdf_pagine : option (list str);
  pdf_ocr : option (list str)
}.

(** An answer at the prompt, as [int] reads it after [strip]. *)
Inductive risposta :=
  | Vuota
  | Numero (n : Z)
  | NonNumero.

(** What [output_path.mkdir(exist_ok=True)] does: it creates the
    directory, or finds it there, or raises [OSError] (no parent
    directory, a file of that name, no permission). *)
Inductive esito_mkdir :=
  | Creata
  | GiaPresente
  | MkdirFallita.

(** What [open(output_filepath, 'w')] and [f.write] do: the text is
    written; or [open] raises and the file system is left as it was; or
    the file is opened, and so created or emptied, and the writing
    raises. *)
Inductive esito_scrittura :=
  | Scritta
  | AperturaFallita
  | ScritturaFallita.

(** The environment of a run.
    - [illeggibili]: the paths on which [Path.exists] raises [OSError],
      such as a name that is too long, or on which the listing of the
      directory by [glob] does;
    - [percorsi]: the other paths for which [Path.exists] is true, each
      with the files that [glob] finds below it for the pattern
      [*.pdf] (none for a path that is not a directory); for every
      other path [Path.exists] is false;
    - [mkdir], for the directory given on the command line and the name
      of the output directory;
    - [scrittura], for these two and the name of the file. *)
Record Mondo := mkMondo {
  librerie : bool;
  illeggibili : gset str;
  percorsi : gmap str (list Pdf);
  mkdir : str -> str -> esito_mkdir;
  scrittura : str -> str -> str -> esito_scrittura;
  risposte : list risposta
}.

(** What a run leaves behind: the directories created, the files
    written in full, and the files opened whose writing failed, each
    with the directory given on the command line and the name of the
    output directory. *)
Record Effetti := mkEffetti {
  cartelle_create : list (str * str);
  file_scritti : list (str * str * str * str);
  file_incompleti : list (str * str * str)
}.

(** A call returns, or ends with an exception that nothing catches. *)
Inductive fine :=
  | Ritorna
  | Eccezione.

(** An element of the key of the natural order. *)
Inductive chiave :=
  | KStr (s : str)
  | KNum (n : Z).

Section Command.

Context {U : Unicode}.

Definition estrai_testo_per_pagina_pdf (pdf : Pdf) : list str :=
  match pdf_pagine pdf with
  | Some pagine => pulisci_testo_ocr <$> pagine
  | None => []
  end.

Definition estrai_testo_ocr_per_pagina (pdf : Pdf) : list str :=
  match pdf_ocr pdf with
  | Some pagine => pulisci_testo_ocr <$> pagine
  | None => []
  end.

Definition estrai_testo_completo_pdf (pdf : Pdf) : str :=
  unisci_pagine (estrai_testo_per_pagina_pdf pdf)
                (estrai_testo_ocr_per_pagina pdf).

(** [int(p)] for a run of the class [\d]. *)
Definition int_of (p : str) : Z :=
  foldl (fun n c => (10 * n + uc_decimal_value c)%Z) 0%Z p.

(** [int(p) if p.isdigit() else p] on the pieces of
    [re.split('(\d+)', name)]: a run of the class becomes its number; a
    text stays, unless it is made of digits that are not of the class,
    which [int] refuses ([None]). *)
Fixpoint chiave_di (pezzi : list str) : option (list chiave) :=
  match pezzi with
  | [] => Some []
  | t :: pezzi' =>
    if negb (bool_decide (t = [])) && forallb uc_isdigit t then None
    else
      match pezzi' with
      | [] => Some [KStr t]
      | d :: pezzi'' =>
        match chiave_di pezzi'' with
        | Some k => Some (KStr t :: KNum (int_of d) :: k)
        | None => None
        end
      end
  end.

Definition chiave_naturale (pdf : Pdf) : option (list chiave) :=
  chiave_di (Re.split_capture uc_isdecimal (uc_lower (pdf_name pdf))).

(** The order of strings and of lists of keys; at equal positions two
    keys hold elements of the same kind. *)
Fixpoint str_lt (s t : str) : bool :=
  match s, t with
  | _, [] => false
  | [], _ :: _ => true
  | a :: s', b :: t' => (a <? b) || ((a =? b) && str_lt s' t')
  end.

Definition chiave_elem_lt (x y : chiave) : bool :=
  match x, y with
  | KStr s, KStr t => str_lt s t
  | KNum m, KNum n => (m <? n)%Z
  | _, _ => false
  end.

Definition chiave_elem_eq (x y : chiave) : bool :=
  match x, y with
  | KStr s, KStr t => bool_decide (s = t)
  | KNum m, KNum n => (m =? n)%Z
  | _, _ => false
  end.

Fixpoint chiave_lt (k1 k2 : list chiave) : bool :=
  match k1, k2 with
  | _, [] => false
  | [], _ :: _ => true
  | x :: k1', y :: k2' =>
    if chiave_elem_eq x y then chiave_lt k1' k2' else chiave_elem_lt x y
  end.

(** [sorted(files, key=chiave_naturale)]: a stable insertion. *)
Fixpoint inserisci (x : list chiave * Pdf) (l : list (list chiave * Pdf))
    : list (list chiave * Pdf) :=
  match l with
  | [] => [x]
  | y :: l' => if chiave_lt x.1 y.1 then x :: l else y :: inserisci x l'
  end.

Definition ordina_file_naturalmente (files : list Pdf)
    : option (list Pdf) :=
  match mapM (fun pdf => (fun k => (k, pdf)) <$> chiave_naturale pdf) files with
  | Some chiavi => Some (snd <$> foldl (fun l x => inserisci x l) [] chiavi)
  | None => None
  end.

(** The loop [while True] around [input]: it ends at the first answer
    that is empty (100 words) or a positive number, and with an
    exception when the answers run out. *)
Fixpoint chiedi_parole (risposte : list risposta) : option Z :=
  match risposte with
  | [] => None
  | Vuota :: _ => Some 100%Z
  | Numero n :: risposte' =>
    if (n <=? 0)%Z then chiedi_parole risposte' else Some n
  | NonNumero :: risposte' => chiedi_parole risposte'
  end.

(** The loop over the files, from the files written so far: a document
    without text is passed over; the loop ends with the exception at
    the first file that cannot be opened or written. *)
Fixpoint elabora_file (w : Mondo) (cartella output_folder : str)
    (parole_per_blocco : Z) (scritti : list (str * str * str * str))
    (pdf_files : list Pdf)
    : list (str * str * str * str) * list (str * str * str) * fine :=
  match pdf_files with
  | [] => (scritti, [], Ritorna)
  | pdf_file :: pdf_files' =>
    let testo := estrai_testo_completo_pdf pdf_file in
    match strip testo with
    | [] =>
      elabora_file w cartella output_folder parole_per_blocco scritti
                   pdf_files'
    | _ =>
      let testo_formattato :=
        dividi_in_blocchi_con_frasi testo parole_per_blocco in
      let output_filename := pdf_stem pdf_file ++ u ".txt" in
      match scrittura w cartella output_folder output_filename with
      | Scritta =>
        elabora_file w cartella output_folder parole_per_blocco
          (scritti
           ++ [(cartella, output_folder, output_filename, testo_formattato)])
          pdf_files'
      | AperturaFallita => (scritti, [], Eccezione)
      | ScritturaFallita =>
        (scritti, [(cartella, output_folder, output_filename)], Eccezione)
      end
    end
  end.

Definition elabora_cartella (w : Mondo) (cartella output_folder : str)
    : Effetti * fine :=
  if bool_decide (cartella ∈ illeggibili w)
  then (mkEffetti [] [] [], Eccezione)
  else
    match percorsi w !! cartella with
    | None => (mkEffetti [] [] [], Ritorna)
    | Some pdf_files =>
      match ordina_file_naturalmente pdf_files with
      | None => (mkEffetti [] [] [], Eccezione)
      | Some [] => (mkEffetti [] [] [], Ritorna)
      | Some pdf_files =>
        match mkdir w cartella output_folder with
        | MkdirFallita => (mkEffetti [] [] [], Eccezione)
        | esito =>
          let create :=
            match esito with
            | Creata => [(cartella, output_folder)]
            | _ => []
            end in
          match chiedi_parole (risposte w) with
          | None => (mkEffetti create [] [], Eccezione)
          | Some parole_per_blocco =>
            let '(scritti, incompleti, f) :=
              elabora_file w cartella output_folder parole_per_blocco []
                           pdf_files in
            (mkEffetti create scritti incompleti, f)
          end
        end
      end
    end.

(** The program: its effects and its exit status, which is 1 after
    [sys.exit(1)] or an exception and 0 otherwise. *)
Definition main (w : Mondo) (argv : list str) : Effetti * Z :=
  if negb (librerie w) then (mkEffetti [] [] [], 1%Z)
  else
    match argv with
    | _ :: cartella :: resto =>
      let output_folder :=
        match resto with o :: _ => o | [] => u "output_txt" end in
      let '(effetti, f) := elabora_cartella w cartella output_folder in
      (effetti, match f with Ritorna => 0%Z | Eccezione => 1%Z end)
    | _ => (mkEffetti [] [] [], 1%Z)
    end.

End Command.

(** ** Tables for plain texts

    An instance of the tables that agrees with the interpreter on the
    texts made of Basic Latin (ASCII) characters and of the Greek small
    letters α to ω; every other character is taken as a symbol without
    case.  It is used to run the program on concrete texts. *)
Module Basic.

Definition isupper (c : N) : bool := (65 <=? c) && (c <=? 90).
Definition islower (c : N) : bool := (97 <=? c) && (c <=? 122).
Definition isdecimal (c : N) : bool := (48 <=? c) && (c <=? 57).
Definition isgreek (c : N) : bool := (0x3B1 <=? c) && (c <=? 0x3C9).

Definition isalnum (c : N) : bool :=
  isupper c || islower c || isdecimal c || isgreek c.

Definition lower_char (c : N) : N := if isupper c then c + 32 else c.

Definition lower (s : str) : str := lower_char <$> s.

Definition ci_match (p c : N) : bool := lower_char p =? lower_char c.

#[export] Instance tables : Unicode := {|
  uc_isalnum := isalnum;
  uc_isdecimal := isdecimal;
  uc_isdigit := isdecimal;
  uc_decimal_value := fun c => Z.of_N (c - 48);
  uc_lower := lower;
  uc_ci_match := ci_match
|}.

End Basic.

(** ** Reference descriptions of the segmenter

    The pieces returned by [re.split('([cls]+)', s)] alternate between a
    text without any character of the class and a non-empty run of the
    class; two runs are never adjacent, so that a text between two runs
    is not empty. *)
Inductive alternating (cls : N -> bool) : list str -> Prop :=
  | alternating_last (t : str) :
      Forall (fun c => cls c = false) t -> alternating cls [t]
  | alternating_cons (t d : str) (l : list str) :
      Forall (fun c => cls c = false) t ->
      d <> [] -> Forall (fun c => cls c = true) d ->
      (length l = 1%nat \/ hd [] l <> []) ->
      alternating cls l ->
      alternating cls (t :: d :: l).

(** The sentences read off the alternating pieces: every text with the
    run that follows it, trimmed, and the last text when it is not
    blank. *)
Fixpoint frasi_di (l : list str) : list str :=
  match l with
  | [] => []
  | t :: l' =>
    match l' with
    | [] => match strip t with [] => [] | _ => [strip t] end
    | d :: l'' => strip (t ++ d) :: frasi_di l''
    end
  end.

(** The number of words of a block: the sum over its sentences. *)
Definition parole_blocco (blocco : list str) : Z :=
  foldr (fun frase n => (num_parole frase + n)%Z) 0%Z blocco.

(** The last character of a sentence is one of [.], [!], [?]. *)
Definition finisce_con_terminatore (frase : str) : Prop :=
  exists c, last frase = Some c /\ terminatore c = true.

(** The blocks of a state of the loop, the open one included. *)
Definition aperti (st : blocchi_stato) : list (list str) :=
  match blocco_corrente st with
  | [] => blocchi st
  | _ => blocchi st ++ [blocco_corrente st]
  end.

(** A block is within the budget, or is one sentence that alone exceeds
    it. *)
Definition entro_budget (budget : Z) (blocco : list str) : Prop :=
  (parole_blocco blocco <= budget)%Z
  \/ exists frase, blocco = [frase] /\ (budget < num_parole frase)%Z.

(** The invariant of the loop over the sentences. *)
Record stato_ok (budget : Z) (st : blocchi_stato) : Prop := {
  ok_blocchi :
    Forall (fun b => b <> [] /\ entro_budget budget b) (blocchi st);
  ok_conteggio : conteggio_parole st = parole_blocco (blocco_corrente st);
  ok_corrente :
    blocco_corrente st = [] \/ entro_budget budget (blocco_corrente st)
}.

(** ** Reference description of the assembler

    Page [i] of a padded list is page [i] of the list when there is one
    and the empty string otherwise; the pages are merged in the order of
    their indices, the empty results are dropped, and the others are
    joined by one space. *)
Definition pagina (testi : list str) (i : nat) : str :=
  default [] (testi !! i).

Definition assemble {U : Unicode} (native_pages ocr_pages : list str)
    : str :=
  let n := Nat.max (length native_pages) (length ocr_pages) in
  let merged :=
    (fun i => unisci_testo_pagina (pagina native_pages i)
                                  (pagina ocr_pages i) (i + 1))
      <$> seq 0 n in
  join (u " ") (filter (fun t => t <> []) merged).

(** ** Reference description of the supplements

    The sentence fragments of a text are its pieces between the runs of
    terminators, trimmed.  A fragment of the OCR text qualifies as a
    supplement when it has at least 15 characters, is a valid sentence,
    and the largest similarity of its lower-case form to a fragment of
    the lower-case native text is at most 0.85. *)
Definition frammenti (testo : str) : list str :=
  strip <$> Re.split terminatore testo.

Definition float_max (x y : Q) : Q := if Qle_bool x y then y else x.

Definition max_similarita {U : Unicode} (f : str) (frammenti_base : list str)
    : Q :=
  foldr (fun base m => float_max (calcola_similarita (uc_lower f) base) m)
        0%Q frammenti_base.

Definition qualifica {U : Unicode} (native : str) (f : str) : bool :=
  (15 <=? length f)%nat && is_frase_valida f
  && Qle_bool (max_similarita f (frammenti (uc_lower native))) (85 # 100).

Definition supplementi {U : Unicode} (native ocr : str) : list str :=
  filter (fun f => qualifica native f = true) (frammenti ocr).

(** ** The supplements as the specification words them

    The specification tests a fragment [f] of the OCR text as it is
    split off: only its length is taken after trimming, while [is_valid]
    and the similarity of [f.lower()] to the fragments of the lower-case
    native text are taken on [f] itself, and [f] is what is appended. *)
Definition qualifica_come_scritto {U : Unicode} (native : str) (f : str)
    : bool :=
  (15 <=? length (strip f))%nat && is_frase_valida f
  && Qle_bool
       (foldr (fun base m =>
                 float_max (calcola_similarita (uc_lower f) base) m)
              0%Q (Re.split terminatore (uc_lower native)))
       (85 # 100).

Definition supplementi_come_scritto {U : Unicode} (native ocr : str)
    : list str :=
  filter (fun f => qualifica_come_scritto native f = true)
         (Re.split terminatore ocr).

(** ** Quantities used in the analysis of [SequenceMatcher] *)

(** The positions of a character in [b], in increasing order. *)
Definition posizioni (c : N) (b : str) : list nat :=
  filter (fun j => b !! j = Some c) (seq 0 (length b)).

(** The character at position [i] of [a] is not popular in [a]. *)
Definition non_popolare (a : str) (i : nat) : bool :=
  negb (Difflib.popular a (posizioni (a !!! i) a)).

(** The number of consecutive positions up to [i] whose characters are
    not popular. *)
Fixpoint corsa (a : str) (i : nat) : nat :=
  match i with
  | 0%nat => if non_popolare a 0 then 1%nat else 0%nat
  | S i' => if non_popolare a i then S (corsa a i') else 0%nat
  end.

Definition corsa_prima (a : str) (i : nat) : nat :=
  match i with
  | 0%nat => 0%nat
  | S i' => corsa a i'
  end.

(** The invariant of the search for the longest match of a text with
    itself, before the turn for position [i]: the best block lies on the
    diagonal and is at least as long as every run of characters that are
    not popular met so far. *)
Record riga_ok (a : str) (i : nat) (st : Difflib.search * gmap nat nat)
    : Prop := {
  ok_diag : Difflib.besti st.1 = Difflib.bestj st.1;
  ok_bound : (Difflib.besti st.1 + Difflib.bestsize st.1 <= i)%nat;
  ok_best : forall t, (t < i)%nat -> (corsa a t <= Difflib.bestsize st.1)%nat;
  ok_j2len : forall j v, st.2 !! j = Some v ->
               (v <= corsa_prima a i)%nat /\ (v <= corsa a j)%nat;
  ok_j2len_diag : forall i', i = S i' -> default 0%nat (st.2 !! i') = corsa a i'
}.

(** The table of a row of the search, when the best block does not
    change during the row. *)
Definition riga (j2len : gmap nat nat) (js : list nat) (m : gmap nat nat)
    : gmap nat nat :=
  foldl (fun m j => <[j := (Difflib.j2len_before j2len j + 1)%nat]> m) m js.

(** The number of items that the search of one range of [a] can put on
    the queue, itself included: at most one for every character. *)
Definition peso (q : nat * nat * nat * nat) : nat :=
  Nat.max 1 (q.1.1.2 - q.1.1.1).

(** The bounds kept by the search for the longest match in
    [a[alo:ahi]], before the turn for position [i]. *)
Definition entro_riga (alo i : nat) (st : Difflib.search * gmap nat nat)
    : Prop :=
  (alo <= Difflib.besti st.1)%nat
  /\ (Difflib.besti st.1 + Difflib.bestsize st.1 <= i)%nat
  /\ forall j v, st.2 !! j = Some v -> (v <= i - alo)%nat.

(** ** The texts of the scenarios *)

(** The raw page of the sanitizer scenario: a page number line, a
    separator line and a line of content. *)
Definition scenario_raw : str :=
  u "Pag. 3" ++ [10] ++ u "- - -" ++ [10]
  ++ u "This is real content about α and β coefficients." ++ [10].

Definition scenario_contenuto : str :=
  u "This is real content about α and β coefficients.".

(** The near-duplicate page of the merger scenario. *)
Definition scenario_nativo : str := u "The derivative of f is continuous.".
Definition scenario_ocr : str := u "The derivative of f is continuous".

(** An OCR page with a fragment that is a valid sentence with the space
    before it (11 of its 18 characters are valid) and not without it
    (10 of 17). *)
Definition pagina_ocr_rumore : str := u "Pag. abcde fghi@#@#@#@".

(** A page whose OCR text has one sentence that the native text lacks. *)
Definition pagina_nativa : str :=
  u "The derivative of f is continuous. Also g.".
Definition pagina_ocr : str :=
  u "Completely different sentence here. The derivative of f is continuous. x.".

(** The text of the segmenter scenario, for a budget of 4 words. *)
Definition scenario_frasi : str :=
  u "A short sentence. Another short one. A third.".


Definition argv_slide : list str := [u "main.py"; u "./slide"].

(** ** Agreement of tables on a text

    Two sets of tables agree on a text when they classify each of its
    characters in the same way and match it in the same way against the
    characters of the header pattern of the sanitizer. *)
Definition concordi (U V : Unicode) (testo : str) : Prop :=
  forall c, c ∈ testo ->
    @uc_isalnum U c = @uc_isalnum V c
    /\ @uc_isdecimal U c = @uc_isdecimal V c
    /\ forall lit p, lit ∈ intestazione -> p ∈ lit ->
         @uc_ci_match U p c = @uc_ci_match V p c.

(** ** Notions used by the further properties *)

(** The characters of a text that are not white space. *)
Definition senza_spazi (s : str) : str :=
  filter (fun c => isspace c = false) s.

(** Every block but the last is full: the first sentence of the next
    block did not fit in it. *)
Fixpoint pieni (budget : Z) (bs : list (list str)) : Prop :=
  match bs with
  | [] => True
  | b :: bs' =>
    match bs' with
    | [] => True
    | b' :: _ =>
      (budget < parole_blocco b + num_parole (hd [] b'))%Z
      /\ pieni budget bs'
    end
  end.


(** The class [[\x00-\x08\x0b-\x0c\x0e-\x1f\x7f]], which the sanitizer
    removes last. *)
Definition controllo (c : N) : bool :=
  (c <=? 8) || ((11 <=? c) && (c <=? 12)) || ((14 <=? c) && (c <=? 31))
  || (c =? 127).

(** A character that the sanitizer can leave in its result for the text
    [testo]: a space, or a character of [testo] that is neither white
    space, nor a decorative glyph, nor a control character. *)
Definition carattere_pulito (testo : str) (c : N) : Prop :=
  c = 32
  \/ (c ∈ testo /\ isspace c = false /\ char_in c decorativi = false
      /\ controllo c = false).

(** ** A directory of two files

    The file [a10.pdf] has one page of native text and no OCR; the file
    [a2.pdf] gives no text at all.  The output directory can be created
    and every file can be written.  At the prompt, two answers are
    refused before the budget of 4 words. *)
Definition pdf_a10 : Pdf :=
  mkPdf (u "a10.pdf") (u "a10") (Some [scenario_raw]) None.

Definition pdf_a2 : Pdf := mkPdf (u "a2.pdf") (u "a2") None None.

Definition cartella_slide : list Pdf := [pdf_a10; pdf_a2].

Definition mondo_slide : Mondo :=
  mkMondo true ∅ {[ u "./slide" := cartella_slide ]}
          (fun _ _ => Creata) (fun _ _ _ => Scritta)
          [NonNumero; Numero 0; Numero 4].

(** The files to write for a list of documents: one for each document
    whose text is not blank, named after its stem, with its text
    divided into blocks. *)
Definition file_attesi {U : Unicode} (cartella output_folder : str)
    (parole_per_blocco : Z) (pdf_files : list Pdf)
    : list (str * str * str * str) :=
  (fun pdf =>
     (cartella, output_folder, pdf_stem pdf ++ u ".txt",
      dividi_in_blocchi_con_frasi (estrai_testo_completo_pdf pdf)
                                  parole_per_blocco))
    <$> filter (fun pdf => strip (estrai_testo_completo_pdf pdf) <> [])
               pdf_files.

(** ** Quantities used for the range of the similarity *)

(** The bounds kept on the side of [b] by the search for the longest
    match in [b[blo:bhi]]: the best block lies in the range, and so do
    the positions of the table, each with a length that does not reach
    below [blo]. *)
Definition entro_colonne (blo bhi : nat)
    (st : Difflib.search * gmap nat nat) : Prop :=
  (blo <= Difflib.bestj st.1)%nat
  /\ (Difflib.bestj st.1 + Difflib.bestsize st.1 <= bhi)%nat
  /\ forall j v, st.2 !! j = Some v ->
       (blo <= j)%nat /\ (j < bhi)%nat /\ (v <= S j - blo)%nat.

(** The number of characters that a list of blocks matches, and the
    lengths of the ranges of [a] and of [b] of an item of the queue. *)
Definition somma (blocks : list Difflib.Match) : nat :=
  sum_list (Difflib.m_size <$> blocks).

Definition lato_a (q : nat * nat * nat * nat) : nat := (q.1.1.2 - q.1.1.1)%nat.
Definition lato_b (q : nat * nat * nat * nat) : nat := (q.2 - q.1.2)%nat.

(** An answer that the prompt refuses: one that [int] does not read, or
    a number that is not positive. *)
Definition rifiutata (r : risposta) : Prop :=
  match r with
  | Vuota => False
  | Numero n => (n <= 0)%Z
  | NonNumero => True
  end.

(** A text starts with a character that is not of the class, if it has
    one. *)
Definition inizia_fuori (cls : N -> bool) (s : str) : Prop :=
  match s with
  | [] => True
  | c :: _ => cls c = false
  end.
(** * Properties *)

(** ** The embedding on examples

    Values returned by the interpreter on the same inputs. *)

Example matching_blocks_example :
  Difflib.get_matching_blocks (u "abxcd") (u "abcd")
  = [Difflib.mkMatch 0 0 2; Difflib.mkMatch 3 2 2; Difflib.mkMatch 5 4 0].
Proof. by vm_compute. Qed.

Example ratio_example :
  Difflib.ratio (u "abcd") (u "bcde") = 3 # 4
  /\ Difflib.ratio (u "tide") (u "diet") = 1 # 4
  /\ Difflib.ratio (u "diet") (u "tide") = 1 # 2.
Proof. by vm_compute. Qed.

(** With 200 characters or more the popular character [c] is left out of
    the table, and is still matched when a block is extended. *)
Example ratio_popular_example :
  Difflib.get_matching_blocks
    (u "ab" ++ replicate 200 99 ++ u "ab")
    (u "xab" ++ replicate 150 99 ++ u "yabz")
  = [Difflib.mkMatch 0 1 152; Difflib.mkMatch 202 154 2;
     Difflib.mkMatch 204 157 0].
Proof. by vm_compute. Qed.

Example split_capture_example :
  Re.split_capture terminatore (u "A b!? c d ... e")
  = [u "A b"; u "!?"; u " c d "; u "..."; u " e"]
  /\ Re.split terminatore (u "A b!? c d ... e")
     = [u "A b"; u " c d "; u " e"].
Proof. by vm_compute. Qed.

Example pulisci_testo_ocr_example :
  pulisci_testo_ocr (U := Basic.tables) (u "a  ,b ( c ) x.y?z")
  = u "a, b (c) x. y? z".
Proof. by vm_compute. Qed.

Example dividi_in_blocchi_con_frasi_example :
  dividi_in_blocchi_con_frasi scenario_frasi 4
  = u "A short sentence." ++ [10; 10] ++ u "Another short one."
    ++ [10; 10] ++ u "A third.".
Proof. by vm_compute. Qed.

Example ordina_file_naturalmente_example :
  fmap (M := option) (fmap (M := list) pdf_name)
    (ordina_file_naturalmente (U := Basic.tables)
       ((fun name => mkPdf name [] None None)
          <$> [u "a10.pdf"; u "a2.pdf"; u "a1.pdf"]))
  = Some [u "a1.pdf"; u "a2.pdf"; u "a10.pdf"].
Proof. by vm_compute. Qed.

Lemma float_lt_spec (x y : Q) : float_lt x y = true <-> (x < y)%Q.
Proof.
  unfold float_lt. rewrite negb_true_iff, <- not_true_iff_false, Qle_bool_iff.
  split; [apply Qnot_le_lt | apply Qlt_not_le].
Qed.

Lemma float_lt_false (x y : Q) : float_lt x y = false <-> (y <= x)%Q.
Proof.
  unfold float_lt. rewrite negb_false_iff. apply Qle_bool_iff.
Qed.

(** ** The page merger *)

Section Merge.

Context {U : Unicode}.

Lemma troppo_corto_false (s : str) :
  s <> [] -> (10 <= length (strip s))%nat ->
  bool_decide (s = []) || (length (strip s) <? 10)%nat = false.
Proof.
  intros Hs Hlen. rewrite bool_decide_eq_false_2 by done. simpl.
  apply Nat.ltb_ge. lia.
Qed.

Lemma troppo_corto_true (s : str) :
  s = [] \/ (length (strip s) < 10)%nat ->
  bool_decide (s = []) || (length (strip s) <? 10)%nat = true.
Proof.
  intros [-> | Hlen]; [done |].
  apply orb_true_iff. right. by apply Nat.ltb_lt.
Qed.

(** C1: when both texts are long enough and their similarity is above
    0.80, the merged page is the native text, unchanged. *)
Theorem merge_near_duplicate_is_native (native ocr : str) (pag : nat) :
  native <> [] -> (10 <= length (strip native))%nat ->
  ocr <> [] -> (10 <= length (strip ocr))%nat ->
  (8 # 10 < calcola_similarita native ocr)%Q ->
  unisci_testo_pagina native ocr pag = native.
Proof.
  intros Hn Hnl Ho Hol Hsim. unfold unisci_testo_pagina.
  rewrite !troppo_corto_false by done.
  apply float_lt_spec in Hsim. by rewrite Hsim.
Qed.

(** C5: a long enough native text merged with no OCR text is returned
    as it is, a long enough OCR text merged with no native text is
    returned as it is, and a missing or short native text merged with
    no OCR text gives the empty string. *)
Theorem merge_with_empty_side (native ocr short : str) (pag : nat) :
  native <> [] -> (10 <= length (strip native))%nat ->
  ocr <> [] -> (10 <= length (strip ocr))%nat ->
  short = [] \/ (length (strip short) < 10)%nat ->
  unisci_testo_pagina native [] pag = native
  /\ unisci_testo_pagina [] ocr pag = ocr
  /\ unisci_testo_pagina short [] pag = [].
Proof.
  intros Hn Hnl Ho Hol Hshort. unfold unisci_testo_pagina.
  split; [| split].
  - by rewrite troppo_corto_false.
  - simpl. by destruct ocr.
  - by rewrite troppo_corto_true.
Qed.

Lemma float_max_le (x y z : Q) :
  (float_max x y <= z)%Q <-> (x <= z)%Q /\ (y <= z)%Q.
Proof.
  unfold float_max. destruct (Qle_bool x y) eqn:Exy.
  - apply Qle_bool_iff in Exy. split; [| by intros [_ ?]].
    intros Hy. split; [by apply Qle_trans with y | done].
  - assert (y <= x)%Q as Hyx.
    { apply Qlt_le_weak, Qnot_le_lt. intros Hle%Qle_bool_iff. congruence. }
    split; [| by intros [? _]].
    intros Hx. split; [done | by apply Qle_trans with x].
Qed.

Lemma max_similarita_le (f : str) (basi : list str) (z : Q) :
  (0 <= z)%Q ->
  (max_similarita f basi <= z)%Q
  <-> Forall (fun base => (calcola_similarita (uc_lower f) base <= z)%Q) basi.
Proof.
  intros Hz. induction basi as [| base basi IH]; simpl.
  - split; [by constructor | done].
  - rewrite float_max_le, IH, Forall_cons. done.
Qed.

Lemma trovata_in_false (f : str) (basi : list str) :
  trovata_in f basi = false
  <-> Forall (fun base =>
                (calcola_similarita (uc_lower f) (strip base) <= 85 # 100)%Q)
             basi.
Proof.
  induction basi as [| base basi IH]; simpl.
  - split; [by constructor | done].
  - rewrite Forall_cons, <- IH, <- float_lt_false.
    destruct (float_lt _ _); intuition congruence.
Qed.

(** The order in which the set of native fragments is visited does not
    matter. *)
Lemma trovata_in_elements (f : str) (basi : list str) :
  trovata_in f (elements (list_to_set (C := gset str) basi))
  = trovata_in f basi.
Proof.
  apply eq_true_iff_eq. rewrite <- !not_false_iff_true.
  rewrite !trovata_in_false, !Forall_forall.
  by setoid_rewrite elem_of_elements; setoid_rewrite elem_of_list_to_set.
Qed.

Lemma qualifica_step (native f : str) :
  qualifica native f
  = negb (bool_decide (f = []) || (length f <? 15)%nat)
    && is_frase_valida f
    && negb (trovata_in f (Re.split terminatore (uc_lower native))).
Proof.
  unfold qualifica. f_equal; [f_equal |].
  - destruct f as [| c f]; [done |].
    rewrite bool_decide_eq_false_2 by done. simpl orb.
    rewrite Nat.ltb_antisym. by rewrite negb_involutive.
  - apply eq_true_iff_eq.
    rewrite Qle_bool_iff, negb_true_iff, trovata_in_false.
    rewrite max_similarita_le by done.
    unfold frammenti. by rewrite Forall_fmap.
Qed.

Lemma frase_unica_fold (native : str) (frasi_ocr acc : list str) :
  foldl (frase_unica_step
           (list_to_set (Re.split terminatore (uc_lower native))))
        acc frasi_ocr
  = acc ++ filter (fun f => qualifica native f = true) (strip <$> frasi_ocr).
Proof.
  revert acc. induction frasi_ocr as [| frase frasi IH]; intros acc; simpl.
  - by rewrite app_nil_r.
  - rewrite IH. unfold frase_unica_step.
    rewrite trovata_in_elements.
    pose proof (qualifica_step native (strip frase)) as Hq.
    destruct (bool_decide _ || _); simpl in Hq.
    { by rewrite filter_cons_False by (rewrite Hq; done). }
    destruct (is_frase_valida _); simpl in Hq; simpl negb; cbv iota.
    2: { by rewrite filter_cons_False by (rewrite Hq; done). }
    destruct (trovata_in _ _); simpl in Hq.
    { by rewrite filter_cons_False by (rewrite Hq; done). }
    rewrite filter_cons_True by done. by rewrite <- app_assoc.
Qed.

Lemma trova_frasi_uniche_supplementi (native ocr : str) :
  native <> [] -> ocr <> [] ->
  trova_frasi_uniche native ocr = supplementi native ocr.
Proof.
  intros Hn Ho. unfold trova_frasi_uniche, supplementi, frammenti.
  destruct ocr as [| c ocr]; [done |].
  destruct native as [| c' native]; [done |].
  by rewrite frase_unica_fold.
Qed.

(** C2, amended: when both texts are long enough and their similarity
    is at most 0.80, the merged page is the native text followed by
    [". "] and by the supplements joined by [". "], in the order of the
    OCR text, when there is a supplement, and the native text alone when
    there is none; the supplements are the trimmed fragments of the OCR
    text that, once trimmed, have length at least 15, are valid
    sentences and have a largest similarity to a trimmed fragment of the
    lower-case native text of at most 0.85. *)
Theorem merge_appends_unique_supplements (native ocr : str) (pag : nat) :
  native <> [] -> (10 <= length (strip native))%nat ->
  ocr <> [] -> (10 <= length (strip ocr))%nat ->
  (calcola_similarita native ocr <= 8 # 10)%Q ->
  (supplementi native ocr <> [] ->
   unisci_testo_pagina native ocr pag
   = native ++ u ". " ++ join (u ". ") (supplementi native ocr))
  /\ (supplementi native ocr = [] ->
      unisci_testo_pagina native ocr pag = native).
Proof.
  intros Hn Hnl Ho Hol Hsim. unfold unisci_testo_pagina.
  rewrite !troppo_corto_false by done.
  apply float_lt_false in Hsim. rewrite Hsim.
  rewrite trova_frasi_uniche_supplementi by done.
  destruct (supplementi native ocr); split; done.
Qed.

End Merge.

(** C2, as stated, fails: a fragment that is a valid sentence as it is
    split off, and not once trimmed, qualifies in the words of the
    claim, and the merged page is the native text alone. *)
Lemma merge_tests_the_trimmed_fragment :
  ~ (let native := scenario_nativo in
     let ocr := pagina_ocr_rumore in
     let supplements :=
       supplementi_come_scritto (U := Basic.tables) native ocr in
     native <> [] /\ (10 <= length (strip native))%nat
     /\ ocr <> [] /\ (10 <= length (strip ocr))%nat
     /\ (calcola_similarita (U := Basic.tables) native ocr <= 8 # 10)%Q ->
     (supplements <> [] ->
      unisci_testo_pagina (U := Basic.tables) native ocr 1
      = native ++ u ". " ++ join (u ". ") supplements)
     /\ (supplements = [] ->
         unisci_testo_pagina (U := Basic.tables) native ocr 1 = native)).
Proof.
  intros Hclaim. destruct Hclaim as [Happend _].
  - repeat split; [discriminate | vm_compute; lia | discriminate
                   | vm_compute; lia |].
    apply Qle_bool_iff. vm_compute. reflexivity.
  - assert (supplementi_come_scritto (U := Basic.tables) scenario_nativo
              pagina_ocr_rumore
            = [u " abcde fghi@#@#@#@"]) as Hsupp
      by (vm_compute; reflexivity).
    rewrite Hsupp in Happend.
    specialize (Happend ltac:(discriminate)).
    vm_compute in Happend. discriminate Happend.
Qed.

(** ** The block segmenter *)

Section Segment.

Implicit Types (st : blocchi_stato) (frase : str) (budget : Z).

Lemma parole_blocco_app (b1 b2 : list str) :
  parole_blocco (b1 ++ b2) = (parole_blocco b1 + parole_blocco b2)%Z.
Proof.
  induction b1 as [| f b1 IH]; simpl; [done |].
  unfold parole_blocco in *. simpl. rewrite IH. lia.
Qed.

Lemma num_parole_nonneg frase : (0 <= num_parole frase)%Z.
Proof. unfold num_parole. lia. Qed.

Lemma parole_blocco_nonneg (b : list str) : (0 <= parole_blocco b)%Z.
Proof.
  induction b as [| f b IH]; [done |].
  change (0 <= num_parole f + parole_blocco b)%Z.
  pose proof (num_parole_nonneg f). lia.
Qed.

Lemma parole_blocco_elem (b : list str) frase :
  frase ∈ b -> (num_parole frase <= parole_blocco b)%Z.
Proof.
  intros (b1 & b2 & ->)%list_elem_of_split.
  rewrite parole_blocco_app.
  change (parole_blocco (frase :: b2))
    with (num_parole frase + parole_blocco b2)%Z.
  pose proof (parole_blocco_nonneg b1).
  pose proof (parole_blocco_nonneg b2). lia.
Qed.

(** The words of a block as it is written, its sentences joined by one
    space, are the words of its sentences. *)
Lemma split_go_space (s t : str) : forall cur,
  split_go cur (s ++ u " " ++ t) = split_go cur s ++ split t.
Proof.
  induction s as [| c s IH]; intros cur; simpl.
  - by destruct cur.
  - destruct (isspace c); [| apply IH].
    destruct cur; [apply IH |]. simpl. f_equal. apply IH.
Qed.

Lemma num_parole_join (b : list str) :
  num_parole (join (u " ") b) = parole_blocco b.
Proof.
  induction b as [| f b IH]; [done |].
  destruct b as [| g b].
  - unfold parole_blocco. simpl. lia.
  - change (parole_blocco (f :: g :: b))
      with (num_parole f + parole_blocco (g :: b))%Z.
    rewrite <- IH. unfold num_parole.
    change (join (u " ") (f :: g :: b))
      with (f ++ u " " ++ join (u " ") (g :: b)).
    unfold split. rewrite split_go_space, length_app. unfold split. lia.
Qed.

(** *** Nothing is lost: the blocks partition the sentences *)

Lemma concat_aperti st :
  concat (aperti st) = concat (blocchi st) ++ blocco_corrente st.
Proof.
  unfold aperti. destruct (blocco_corrente st) as [| f b].
  - by rewrite app_nil_r.
  - rewrite concat_app. simpl. by rewrite app_nil_r.
Qed.

Lemma blocchi_step_concat budget st frase :
  let st' := blocchi_step budget st frase in
  concat (blocchi st') ++ blocco_corrente st'
  = (concat (blocchi st) ++ blocco_corrente st) ++ [frase].
Proof.
  unfold blocchi_step. case_match; simpl.
  - rewrite concat_app. simpl. by rewrite app_nil_r.
  - by rewrite !app_assoc.
Qed.

Lemma blocchi_fold_concat budget (frasi : list str) st :
  let st' := foldl (blocchi_step budget) st frasi in
  concat (blocchi st') ++ blocco_corrente st'
  = (concat (blocchi st) ++ blocco_corrente st) ++ frasi.
Proof.
  revert st. induction frasi as [| f frasi IH]; intros st; simpl.
  - by rewrite app_nil_r.
  - rewrite IH, blocchi_step_concat. by rewrite <- app_assoc.
Qed.

Lemma blocchi_di_frasi_concat (testo : str) budget :
  concat (blocchi_di_frasi testo budget) = frasi_complete testo.
Proof.
  unfold blocchi_di_frasi.
  change (concat (aperti (foldl (blocchi_step budget) (mkStato [] [] 0)
                                (frasi_complete testo)))
          = frasi_complete testo).
  rewrite concat_aperti. by rewrite blocchi_fold_concat.
Qed.

(** C10: the blocks, read in order, are exactly the sentences of the
    text in their order, so that every sentence is in one block, once. *)
Theorem segment_partitions_sentences (testo : str) (budget : Z) :
  (0 < budget)%Z ->
  concat (blocchi_di_frasi testo budget) = frasi_complete testo.
Proof. intros _. apply blocchi_di_frasi_concat. Qed.

(** *** The word budget *)

Lemma entro_budget_singleton budget frase : entro_budget budget [frase].
Proof.
  destruct (decide (num_parole frase <= budget)%Z) as [Hle | Hgt].
  - left. unfold parole_blocco. simpl. lia.
  - right. exists frase. split; [done | lia].
Qed.

Lemma blocchi_step_ok budget st frase :
  stato_ok budget st -> stato_ok budget (blocchi_step budget st frase).
Proof.
  intros [Hb Hc Hcur]. unfold blocchi_step.
  destruct (_ && _) eqn:Hcond; constructor; simpl.
  - apply andb_true_iff in Hcond as [_ Hne].
    apply negb_true_iff, bool_decide_eq_false in Hne.
    apply Forall_app. split; [done |].
    apply Forall_singleton. destruct Hcur; [done | by split].
  - unfold parole_blocco. simpl. lia.
  - right. apply entro_budget_singleton.
  - done.
  - rewrite parole_blocco_app, Hc. unfold parole_blocco at 3. simpl. lia.
  - right. apply andb_false_iff in Hcond as [Hfit | Hempty].
    + apply Z.ltb_ge in Hfit. left.
      rewrite parole_blocco_app, <- Hc. unfold parole_blocco. simpl. lia.
    + apply negb_false_iff, bool_decide_eq_true in Hempty.
      rewrite Hempty. apply entro_budget_singleton.
Qed.

Lemma blocchi_fold_ok budget (frasi : list str) st :
  stato_ok budget st -> stato_ok budget (foldl (blocchi_step budget) st frasi).
Proof.
  revert st. induction frasi as [| f frasi IH]; intros st Hst; simpl.
  - done.
  - by apply IH, blocchi_step_ok.
Qed.

Lemma blocchi_di_frasi_ok (testo : str) budget :
  Forall (fun b => b <> [] /\ entro_budget budget b)
         (blocchi_di_frasi testo budget).
Proof.
  unfold blocchi_di_frasi.
  assert (stato_ok budget (mkStato [] [] 0)) as Hinit.
  { constructor; simpl; [done | done | by left]. }
  pose proof (blocchi_fold_ok budget (frasi_complete testo) _ Hinit)
    as [Hb Hc Hcur].
  destruct (blocco_corrente _) as [| f b] eqn:Hcurr; [done |].
  apply Forall_app. split; [done |].
  apply Forall_singleton. by destruct Hcur.
Qed.

(** C6: the blocks hold the sentences of the text, whole and in order;
    no block is empty, and every block has at most [budget] words,
    counted over its sentences or over the block as it is written,
    unless it is a single sentence that is longer than the budget;
    every sentence of the text that is longer than the budget is a
    block by itself, and is the only sentence of any block that holds
    it; and a sentence that arrives at an empty block is put in it
    whatever its length. *)
Theorem segment_respects_budget (testo : str) (budget : Z) :
  (0 < budget)%Z ->
  let blocks := blocchi_di_frasi testo budget in
  concat blocks = frasi_complete testo
  /\ (forall blocco, blocco ∈ blocks ->
        blocco <> []
        /\ ((parole_blocco blocco <= budget)%Z
            \/ exists frase, blocco = [frase] /\ (budget < num_parole frase)%Z))
  /\ (forall blocco, blocco ∈ blocks ->
        num_parole (join (u " ") blocco) = parole_blocco blocco)
  /\ (forall frase, frase ∈ frasi_complete testo ->
        (budget < num_parole frase)%Z -> [frase] ∈ blocks)
  /\ (forall blocco frase, blocco ∈ blocks -> frase ∈ blocco ->
        (budget < num_parole frase)%Z ->
        blocco = [frase] /\ frase ∈ frasi_complete testo)
  /\ (forall st frase, blocco_corrente st = [] ->
        blocchi_step budget st frase
        = mkStato (blocchi st) [frase]
                  (conteggio_parole st + num_parole frase)).
Proof.
  intros _ blocks.
  pose proof (blocchi_di_frasi_ok testo budget) as Hok.
  rewrite Forall_forall in Hok.
  pose proof (blocchi_di_frasi_concat testo budget) as Hconcat.
  assert (forall blocco frase, blocco ∈ blocks -> frase ∈ blocco ->
            (budget < num_parole frase)%Z -> blocco = [frase]) as Hsolo.
  { intros blocco frase Hin Hf Hbig.
    destruct (Hok blocco Hin) as [_ [Hle | (f & -> & _)]].
    - pose proof (parole_blocco_elem _ _ Hf). lia.
    - by apply list_elem_of_singleton in Hf as ->. }
  split; [done |]. split; [by apply Hok |].
  split; [intros blocco _; apply num_parole_join |].
  split; [| split].
  - intros frase Hf Hbig. rewrite <- Hconcat in Hf.
    apply list_elem_of_In, in_concat in Hf as (blocco & Hin & Hf).
    rewrite <- !list_elem_of_In in *.
    by rewrite <- (Hsolo blocco frase Hin Hf Hbig).
  - intros blocco frase Hin Hf Hbig. split; [by apply Hsolo |].
    rewrite <- Hconcat. apply list_elem_of_In, in_concat. exists blocco.
    by rewrite <- !list_elem_of_In.
  - intros st frase Hempty. unfold blocchi_step. rewrite Hempty.
    rewrite bool_decide_eq_true_2 by done.
    by rewrite andb_false_r.
Qed.

End Segment.

(** ** Splitting into sentences *)

Section Sentences.

Implicit Types (s t d : str) (l : list str) (cls : N -> bool).

Lemma split_capture_go_concat cls s : forall t d,
  concat (Re.split_capture_go cls t d s) = t ++ d ++ s.
Proof.
  induction s as [| c s IH]; intros t d; simpl.
  - destruct d; simpl; by rewrite ?app_nil_r.
  - destruct (cls c).
    + rewrite IH. by rewrite <- !app_assoc.
    + destruct d as [| c' d]; simpl.
      * rewrite IH. by rewrite <- !app_assoc.
      * rewrite IH. simpl. by rewrite <- ?app_assoc.
Qed.

Lemma split_capture_go_hd cls s : forall t d,
  exists t' l, Re.split_capture_go cls t d s = (t ++ t') :: l.
Proof.
  induction s as [| c s IH]; intros t d; simpl.
  - destruct d; eexists [], _; by rewrite app_nil_r.
  - destruct (cls c); [apply IH |].
    destruct d.
    + destruct (IH (t ++ [c]) []) as (t' & l & ->).
      exists (c :: t'), l. by rewrite <- app_assoc.
    + eexists [], _. by rewrite app_nil_r.
Qed.

Lemma split_capture_go_alternating cls s : forall t d,
  Forall (fun c => cls c = false) t ->
  Forall (fun c => cls c = true) d ->
  alternating cls (Re.split_capture_go cls t d s).
Proof.
  induction s as [| c s IH]; intros t d Ht Hd; simpl.
  - destruct d as [| c' d'].
    + by constructor.
    + constructor; [done | done | done | by left |].
      by constructor.
  - destruct (cls c) eqn:Hc.
    + apply IH; [done |]. apply Forall_app. split; [done |].
      by apply Forall_singleton.
    + destruct d as [| c' d'].
      * apply IH; [| done]. apply Forall_app. split; [done |].
        by apply Forall_singleton.
      * constructor; [done | done | done | |].
        -- right. destruct (split_capture_go_hd cls s [c] [])
             as (t' & l & ->). done.
        -- apply IH; [| done]. by apply Forall_singleton.
Qed.

Lemma alternating_length cls l :
  alternating cls l -> (length l mod 2 = 1)%nat /\ (1 <= length l)%nat.
Proof.
  induction 1 as [t Ht | t d l Ht Hd Hd' Hl Halt [IH1 IH2]]; [done |].
  split; [| simpl; lia].
  change (length (t :: d :: l)) with (2 + length l)%nat.
  by rewrite <- Nat.Div0.add_mod_idemp_l.
Qed.

(** Terminators are not white space, so trimming keeps them. *)
Lemma terminatore_inv c :
  terminatore c = true -> c = 46 \/ c = 33 \/ c = 63.
Proof.
  unfold terminatore, char_in. change (u ".!?") with [46; 33; 63].
  simpl. rewrite !orb_true_iff, !N.eqb_eq.
  intros [? | [? | [? | ?]]]; auto; discriminate.
Qed.

Lemma terminatore_not_space c : terminatore c = true -> isspace c = false.
Proof. by intros [-> | [-> | ->]]%terminatore_inv. Qed.

Lemma lstrip_app s d :
  match d with [] => True | c :: _ => isspace c = false end ->
  lstrip (s ++ d) = lstrip s ++ d.
Proof.
  intros Hd. induction s as [| c s IH]; simpl.
  - destruct d as [| c d]; [done |]. simpl. by rewrite Hd.
  - by destruct (isspace c).
Qed.

Lemma rstrip_snoc s c : isspace c = false -> rstrip (s ++ [c]) = s ++ [c].
Proof.
  intros Hc. unfold rstrip. rewrite rev_app_distr. simpl. rewrite Hc.
  change (c :: rev s) with (rev [c] ++ rev s).
  by rewrite <- rev_app_distr, rev_involutive.
Qed.

Lemma strip_app_run s d :
  d <> [] -> Forall (fun c => terminatore c = true) d ->
  strip (s ++ d) = lstrip s ++ d.
Proof.
  intros Hne Hd. unfold strip. rewrite lstrip_app.
  - destruct d as [| c d' _] using rev_ind; [done |].
    apply Forall_app in Hd as [_ Hc%Forall_inv].
    rewrite app_assoc. by apply rstrip_snoc, terminatore_not_space.
  - destruct d as [| c d]; [done |].
    apply Forall_cons in Hd as [Hc _]. by apply terminatore_not_space.
Qed.

Lemma strip_run_finisce s d :
  d <> [] -> Forall (fun c => terminatore c = true) d ->
  finisce_con_terminatore (strip (s ++ d)).
Proof.
  intros Hne Hd. rewrite strip_app_run by done.
  destruct d as [| c d' _] using rev_ind; [done |].
  apply Forall_app in Hd as [_ Hc%Forall_inv].
  exists c. split; [| done].
  rewrite app_assoc. apply last_snoc.
Qed.

Lemma Forall_lstrip (P : N -> Prop) s : Forall P s -> Forall P (lstrip s).
Proof.
  induction 1 as [| c s Hc Hs IH]; simpl; [done |].
  destruct (isspace c); [done | by constructor].
Qed.

Lemma Forall_strip (P : N -> Prop) s : Forall P s -> Forall P (strip s).
Proof.
  intros Hs. unfold strip, rstrip.
  apply Forall_rev, Forall_lstrip, Forall_rev, Forall_lstrip, Hs.
Qed.

(** The loop over the even positions pairs every text with its run. *)
Lemma frasi_complete_loop cls l : alternating cls l ->
  forall (pre acc : list str),
  let frasi := pre ++ l in
  foldl (fun complete i =>
           if (i + 1 <? length frasi)%nat
           then complete ++ [strip (frasi !!! i ++ frasi !!! (i + 1)%nat)]
           else complete)
        acc (Re.evens (seq (length pre) (length l - 1)))
  ++ match strip (List.last l []) with [] => [] | _ => [strip (List.last l [])] end
  = acc ++ frasi_di l.
Proof.
  induction 1 as [t Ht | t d l Ht Hd Hd' Hl Halt IH]; intros pre acc frasi.
  - done.
  - pose proof (alternating_length _ _ Halt) as [_ Hlen].
    replace (length (t :: d :: l) - 1)%nat with (S (S (length l - 1)))
      by (simpl; lia).
    cbn [seq Re.evens foldl].
    assert ((length pre + 1 <? length frasi)%nat = true) as ->.
    { apply Nat.ltb_lt. subst frasi. rewrite length_app. simpl. lia. }
    assert (frasi !!! length pre = t) as ->.
    { subst frasi. by rewrite lookup_total_app_r, Nat.sub_diag by lia. }
    assert (frasi !!! (length pre + 1)%nat = d) as ->.
    { subst frasi. rewrite lookup_total_app_r by lia.
      by replace (length pre + 1 - length pre)%nat with 1%nat by lia. }
    specialize (IH (pre ++ [t; d]) (acc ++ [strip (t ++ d)])).
    rewrite length_app in IH. simpl in IH.
    replace (length pre + 2)%nat with (S (S (length pre))) in IH by lia.
    subst frasi.
    replace ((pre ++ [t; d]) ++ l) with (pre ++ t :: d :: l) in IH
      by (by rewrite <- app_assoc).
    assert (List.last (t :: d :: l) [] = List.last l []) as ->.
    { destruct l; [simpl in Hlen; lia | done]. }
    rewrite IH. simpl. by rewrite <- app_assoc.
Qed.

Lemma frasi_complete_frasi_di (testo : str) :
  frasi_complete testo = frasi_di (Re.split_capture terminatore testo).
Proof.
  unfold frasi_complete.
  assert (alternating terminatore (Re.split_capture terminatore testo))
    as Halt by (by apply split_capture_go_alternating).
  pose proof (alternating_length _ _ Halt) as [Hodd _].
  pose proof (frasi_complete_loop _ _ Halt [] []) as Hloop.
  simpl in Hloop. rewrite <- Hloop. clear Hloop.
  apply Nat.eqb_eq in Hodd. rewrite Hodd. simpl.
  destruct (strip (List.last _ [])) eqn:Elast.
  - rewrite bool_decide_eq_true_2 by done. simpl. by rewrite app_nil_r.
  - by rewrite bool_decide_eq_false_2 by done.
Qed.

(** Every sentence ends with a terminator, except for a last sentence
    made of the trimmed last text. *)
Lemma frasi_di_finisce l : alternating terminatore l ->
  forall i f, frasi_di l !! i = Some f ->
  finisce_con_terminatore f
  \/ (S i = length (frasi_di l) /\ f = strip (List.last l []) /\ f <> []
      /\ Forall (fun c => terminatore c = false) f).
Proof.
  induction 1 as [t Ht | t d l Ht Hd Hd' Hl Halt IH]; intros i f Hf.
  - right. simpl in *. destruct (strip t) eqn:Et; [done |].
    destruct i; [| done]. simplify_eq/=.
    repeat split; [done |]. rewrite <- Et. by apply Forall_strip.
  - pose proof (alternating_length _ _ Halt) as [_ Hlen].
    destruct i as [| i]; simpl in Hf.
    + left. simplify_eq. by apply strip_run_finisce.
    + destruct (IH _ _ Hf) as [Hfin | (Hi & Hlast & Hne & Hall)];
        [by left | right].
      repeat split; [simpl; lia | | done | done].
      rewrite Hlast. destruct l; [simpl in Hlen; lia | done].
Qed.

(** A sentence of a block that is not the last sentence of the last block
    is not the last sentence of the text. *)
Lemma concat_position (bs : list (list str)) bi fi (b : list str) f :
  Forall (fun b => b <> []) bs ->
  bs !! bi = Some b -> b !! fi = Some f ->
  exists i, concat bs !! i = Some f
    /\ ((S bi < length bs)%nat \/ (S fi < length b)%nat ->
        (S i < length (concat bs))%nat).
Proof.
  intros Hne Hb Hf.
  pose proof (take_drop_middle _ _ _ Hb) as Hsplit.
  pose proof (lookup_lt_Some _ _ _ Hf) as Hfi.
  assert (concat bs = concat (take bi bs) ++ b ++ concat (drop (S bi) bs))
    as Hcat by (by rewrite <- Hsplit at 1; rewrite concat_app).
  exists (length (concat (take bi bs)) + fi)%nat.
  rewrite Hcat. split.
  - rewrite lookup_app_r by lia.
    replace (length (concat (take bi bs)) + fi - length (concat (take bi bs)))%nat
      with fi by lia.
    by rewrite lookup_app_l.
  - rewrite !length_app. intros [Hbi | Hlast]; [| lia].
    destruct (drop (S bi) bs) as [| b' bs'] eqn:Edrop.
    + apply (f_equal length) in Edrop. rewrite length_drop in Edrop.
      simpl in Edrop. lia.
    + assert (b' ∈ bs) as Hin.
      { rewrite <- Hsplit. rewrite !elem_of_app, !elem_of_cons. auto. }
      rewrite Forall_forall in Hne. specialize (Hne _ Hin).
      simpl. rewrite length_app. destruct b'; [done |]. simpl. lia.
Qed.

(** C7: the text is cut at the runs of [.], [!] and [?], every run stays
    with the text before it, and the sentences are these pairs, trimmed,
    followed by the last text when it is not blank; every sentence except
    possibly that last one ends with a terminator, hence every sentence
    of every block except possibly the last sentence of the last block;
    and the blocks are made of whole sentences. *)
Theorem segment_splits_at_terminators (testo : str) (budget : Z) :
  let pezzi := Re.split_capture terminatore testo in
  let frasi := frasi_complete testo in
  let blocks := blocchi_di_frasi testo budget in
  (concat pezzi = testo /\ alternating terminatore pezzi)
  /\ frasi = frasi_di pezzi
  /\ (forall i f, frasi !! i = Some f ->
        finisce_con_terminatore f
        \/ (S i = length frasi /\ f = strip (List.last pezzi []) /\ f <> []
            /\ Forall (fun c => terminatore c = false) f))
  /\ concat blocks = frasi
  /\ (forall bi fi blocco f,
        blocks !! bi = Some blocco -> blocco !! fi = Some f ->
        (S bi < length blocks)%nat \/ (S fi < length blocco)%nat ->
        finisce_con_terminatore f).
Proof.
  intros pezzi frasi blocks.
  assert (alternating terminatore pezzi) as Halt
    by (by apply split_capture_go_alternating).
  assert (frasi = frasi_di pezzi) as Hfrasi
    by apply frasi_complete_frasi_di.
  assert (concat blocks = frasi) as Hconcat
    by apply blocchi_di_frasi_concat.
  split; [split; [| done] |].
  { subst pezzi. unfold Re.split_capture.
    by rewrite split_capture_go_concat. }
  split; [done |]. split.
  { intros i f Hf. rewrite Hfrasi in *. by apply frasi_di_finisce. }
  split; [done |].
  intros bi fi blocco f Hb Hf Hpos.
  destruct (concat_position blocks bi fi blocco f) as (i & Hi & Hlt);
    [| done | done |].
  { eapply Forall_impl; [apply blocchi_di_frasi_ok |]. by intros ? [? _]. }
  specialize (Hlt Hpos). rewrite Hconcat in Hi, Hlt.
  rewrite Hfrasi in Hi, Hlt.
  destruct (frasi_di_finisce _ Halt _ _ Hi) as [Hfin | (Hlast & _)];
    [done | lia].
Qed.

End Sentences.

(** ** The document assembler *)

Section Assemble.

Context {U : Unicode}.

Lemma riempi_length (n : nat) (testi : list str) :
  (length testi <= n)%nat -> length (riempi n testi) = n.
Proof.
  intros Hn. unfold riempi. rewrite length_app, length_replicate. lia.
Qed.

Lemma riempi_lookup (n : nat) (testi : list str) (i : nat) :
  riempi n testi !!! i = pagina testi i.
Proof.
  unfold riempi, pagina. rewrite list_lookup_total_alt.
  destruct (decide (i < length testi)%nat) as [Hlt | Hge].
  - by rewrite lookup_app_l.
  - rewrite lookup_app_r by lia.
    rewrite (lookup_ge_None_2 testi) by lia. simpl.
    destruct (replicate _ _ !! _) as [t |] eqn:Et; [| done].
    by apply lookup_replicate in Et as [-> _].
Qed.

Lemma foldl_keep_nonempty (g : nat -> str) (l : list nat) (acc : list str) :
  foldl (fun testi_finali i =>
           match g i with
           | [] => testi_finali
           | _ => testi_finali ++ [g i]
           end) acc l
  = acc ++ filter (fun t => t <> []) (g <$> l).
Proof.
  revert acc. induction l as [| i l IH]; intros acc; simpl.
  - by rewrite app_nil_r.
  - rewrite IH. destruct (g i) as [| c t] eqn:Eg.
    + by rewrite filter_cons_False by (intros Hne; by apply Hne).
    + rewrite filter_cons_True by done. by rewrite <- app_assoc.
Qed.

Lemma unisci_pagine_assemble (native_pages ocr_pages : list str) :
  unisci_pagine native_pages ocr_pages = assemble native_pages ocr_pages.
Proof.
  unfold unisci_pagine, assemble.
  set (n := Nat.max (length native_pages) (length ocr_pages)).
  rewrite (foldl_keep_nonempty
             (fun i => unisci_testo_pagina (riempi n native_pages !!! i)
                         (riempi n ocr_pages !!! i) (i + 1))).
  simpl. do 2 f_equal. apply list_fmap_ext. intros i j _.
  by rewrite !riempi_lookup.
Qed.

(** C8: both lists are padded with empty strings to the larger of the two
    lengths, page [i] of one is merged with page [i] of the other for
    [i] from 0 upwards, the empty results are dropped and the others are
    joined by one space, in the order of the pages; this is what
    [estrai_testo_completo_pdf] returns on the pages of the two
    extractions. *)
Theorem assemble_pads_merges_and_joins (native_pages ocr_pages : list str) :
  let n := Nat.max (length native_pages) (length ocr_pages) in
  length (riempi n native_pages) = n
  /\ length (riempi n ocr_pages) = n
  /\ (forall i, riempi n native_pages !!! i = pagina native_pages i
                /\ riempi n ocr_pages !!! i = pagina ocr_pages i)
  /\ unisci_pagine native_pages ocr_pages = assemble native_pages ocr_pages
  /\ (forall pdf,
        estrai_testo_per_pagina_pdf pdf = native_pages ->
        estrai_testo_ocr_per_pagina pdf = ocr_pages ->
        estrai_testo_completo_pdf pdf = assemble native_pages ocr_pages).
Proof.
  intros n. split; [| split; [| split; [| split]]].
  - apply riempi_length. lia.
  - apply riempi_length. lia.
  - intros i. split; apply riempi_lookup.
  - apply unisci_pagine_assemble.
  - intros pdf Hn Ho. unfold estrai_testo_completo_pdf.
    rewrite Hn, Ho. apply unisci_pagine_assemble.
Qed.

End Assemble.

(** ** The similarity scorer *)

Section Chain.

Local Open Scope nat_scope.
Import Difflib.

Implicit Types (a b : str) (c x : N) (i j k : nat).

Lemma filter_ext_elem {A} (P1 P2 : A -> Prop)
    `{!forall y, Decision (P1 y), !forall y, Decision (P2 y)} (l : list A) :
  (forall y, y ∈ l -> P1 y <-> P2 y) -> filter P1 l = filter P2 l.
Proof.
  induction l as [| y0 l IH]; intros Hext; [done |].
  rewrite !filter_cons.
  rewrite IH by (intros y Hy; apply Hext; by right).
  apply decide_ext, Hext. by left.
Qed.

Lemma b2j_all_snoc b x :
  b2j_all (b ++ [x])
  = <[x := default [] (b2j_all b !! x) ++ [length b]]> (b2j_all b).
Proof.
  unfold b2j_all. rewrite imap_app, foldl_app. simpl.
  by rewrite Nat.add_0_r.
Qed.

Lemma posizioni_snoc c b x :
  posizioni c (b ++ [x])
  = posizioni c b ++ (if decide (x = c) then [length b] else []).
Proof.
  unfold posizioni. rewrite length_app. simpl.
  rewrite Nat.add_1_r, seq_S, filter_app. simpl. f_equal.
  - apply filter_ext_elem. intros j Hj%elem_of_seq.
    by rewrite lookup_app_l by lia.
  - rewrite filter_cons, filter_nil.
    rewrite lookup_app_r, Nat.sub_diag by lia. simpl.
    destruct (decide (x = c)) as [-> | Hne].
    + by rewrite decide_True.
    + rewrite decide_False; [done |]. by intros [= ?].
Qed.

Lemma b2j_all_posizioni b c : default [] (b2j_all b !! c) = posizioni c b.
Proof.
  induction b as [| x b IH] using rev_ind; [done |].
  rewrite b2j_all_snoc, posizioni_snoc.
  destruct (decide (x = c)) as [-> | Hne].
  - rewrite lookup_insert_eq. simpl. by rewrite IH.
  - rewrite lookup_insert_ne by done. by rewrite IH, app_nil_r.
Qed.

Lemma b2j_posizioni b c :
  default [] (b2j b !! c)
  = if popular b (posizioni c b) then [] else posizioni c b.
Proof.
  unfold b2j. rewrite map_lookup_filter.
  pose proof (b2j_all_posizioni b c) as Hall.
  destruct (b2j_all b !! c) as [l |]; simpl in *.
  - subst l. destruct (popular b (posizioni c b)) eqn:Epop.
    + by rewrite option_guard_False by (simpl; congruence).
    + by rewrite option_guard_True.
  - rewrite <- Hall. by destruct (popular b []).
Qed.

End Chain.

Section Scan.

Local Open Scope nat_scope.
Import Difflib.

Implicit Types (a : str) (i j k : nat) (st : search * gmap nat nat)
  (j2len : gmap nat nat) (js : list nat).

Lemma scan_row_app blo bhi i j2len js1 js2 : forall st,
  Forall (fun j => j < bhi) js1 ->
  scan_row blo bhi i j2len (js1 ++ js2) st
  = scan_row blo bhi i j2len js2 (scan_row blo bhi i j2len js1 st).
Proof.
  induction js1 as [| j js1 IH]; intros st Hlt; [done |].
  apply Forall_cons in Hlt as [Hj Hlt]. simpl.
  destruct (j <? blo); [by apply IH |].
  assert ((bhi <=? j) = false) as -> by (apply Nat.leb_gt; lia).
  destruct (_ <? _); by apply IH.
Qed.

Lemma scan_row_quiet blo bhi i j2len js : forall st,
  Forall (fun j => blo <= j < bhi
                   /\ j2len_before j2len j + 1 <= bestsize st.1) js ->
  scan_row blo bhi i j2len js st = (st.1, riga j2len js st.2).
Proof.
  induction js as [| j js IH]; intros st Hjs; [by destruct st |].
  apply Forall_cons in Hjs as [(Hj & Hk) Hjs]. simpl.
  assert ((j <? blo) = false) as -> by (apply Nat.ltb_ge; lia).
  assert ((bhi <=? j) = false) as -> by (apply Nat.leb_gt; lia).
  assert ((bestsize st.1 <? j2len_before j2len j + 1) = false) as ->
    by (apply Nat.ltb_ge; lia).
  by rewrite IH.
Qed.

Lemma riga_lookup j2len js : forall m j v,
  riga j2len js m !! j = Some v ->
  (j ∈ js /\ v = j2len_before j2len j + 1) \/ m !! j = Some v.
Proof.
  induction js as [| j' js IH]; intros m j v Hv; [by right |].
  apply IH in Hv as [[Hin ->] | Hv].
  - left. split; [by right | done].
  - destruct (decide (j' = j)) as [-> | Hne].
    + rewrite lookup_insert_eq in Hv. left. split; [by left | congruence].
    + rewrite lookup_insert_ne in Hv by done. by right.
Qed.

Lemma riga_lookup_elem j2len js : forall m j,
  j ∈ js -> riga j2len js m !! j = Some (j2len_before j2len j + 1).
Proof.
  induction js as [| j' js IH]; intros m j Hin; [by apply elem_of_nil in Hin |].
  simpl. destruct (decide (j ∈ js)) as [Hjs | Hjs]; [by apply IH |].
  apply elem_of_cons in Hin as [-> | Hin]; [| done].
  destruct (riga j2len js (<[j' := j2len_before j2len j' + 1]> m) !! j')
    as [v |] eqn:Ev.
  - apply riga_lookup in Ev as [[Hin _] | Ev]; [done |].
    by rewrite lookup_insert_eq in Ev.
  - exfalso. revert Ev. clear. revert m.
    assert (forall m x, m !! j' = Some x ->
              is_Some (riga j2len js m !! j')) as Hkeep.
    { induction js as [| j js IH]; intros m x Hm; [by eexists |].
      simpl. destruct (decide (j = j')) as [-> | Hne].
      - eapply IH. by rewrite lookup_insert_eq.
      - eapply IH. by rewrite lookup_insert_ne. }
    intros m Ev. destruct (Hkeep (<[j' := j2len_before j2len j' + 1]> m)
                                 (j2len_before j2len j' + 1)) as [y Hy].
    + by rewrite lookup_insert_eq.
    + congruence.
Qed.

(** The positions of the character of position [i], around [i]. *)
Lemma posizioni_split a i :
  i < length a ->
  exists l1 l2, posizioni (a !!! i) a = l1 ++ i :: l2
    /\ Forall (fun j => j < i) l1
    /\ Forall (fun j => i < j < length a) l2.
Proof.
  intros Hi. unfold posizioni.
  assert (seq 0 (length a) = seq 0 i ++ i :: seq (S i) (length a - S i))
    as ->.
  { replace (length a) with (i + S (length a - S i)) at 1 by lia.
    by rewrite seq_app. }
  rewrite filter_app, filter_cons_True.
  2: { by apply list_lookup_lookup_total_lt. }
  eexists _, _. split; [done |]. split.
  - apply Forall_forall. intros j [_ Hj%elem_of_seq]%list_elem_of_filter. lia.
  - apply Forall_forall. intros j [_ Hj%elem_of_seq]%list_elem_of_filter. lia.
Qed.

Lemma posizioni_elem a c j :
  j ∈ posizioni c a -> a !! j = Some c /\ j < length a.
Proof.
  unfold posizioni. intros [Hj Hseq%elem_of_seq]%list_elem_of_filter.
  split; [done | lia].
Qed.

Lemma corsa_non_popolare a i :
  non_popolare a i = true -> corsa a i = S (corsa_prima a i).
Proof. intros Hnp. destruct i; simpl; by rewrite Hnp. Qed.

Lemma corsa_popolare a i : non_popolare a i = false -> corsa a i = 0.
Proof. intros Hnp. destruct i; simpl; by rewrite Hnp. Qed.

Lemma corsa_le a i : corsa a i <= S i.
Proof.
  induction i as [| i IH]; simpl.
  - destruct (non_popolare a 0); lia.
  - destruct (non_popolare a (S i)); lia.
Qed.

Lemma non_popolare_same a i j :
  a !! j = Some (a !!! i) -> non_popolare a j = non_popolare a i.
Proof.
  intros Hj. unfold non_popolare.
  by rewrite (list_lookup_total_correct _ _ _ Hj).
Qed.

Lemma scan_step_ok a i st :
  i < length a -> riga_ok a i st ->
  riga_ok a (S i) (scan_step a a 0 (length a) st i).
Proof.
  intros Hi [Hdiag Hbound Hbest Hj2 Hj2d]. unfold scan_step.
  rewrite b2j_posizioni.
  assert (non_popolare a i = negb (popular a (posizioni (a !!! i) a)))
    as Hnp by done.
  destruct (popular a (posizioni (a !!! i) a)); simpl in Hnp.
  1: { constructor; simpl.
       - done.
       - lia.
       - intros t Ht. destruct (decide (t = i)) as [-> | Hne].
         + rewrite corsa_popolare by done. lia.
         + apply Hbest. lia.
       - intros j v Hv. by rewrite lookup_empty in Hv.
       - intros i' [= <-]. rewrite lookup_empty. simpl.
         by rewrite corsa_popolare. }
  destruct (posizioni_split a i Hi) as (l1 & l2 & Hpos & Hl1 & Hl2).
  set (K := fun j => j2len_before st.2 j + 1).
  assert (forall j, j ∈ posizioni (a !!! i) a ->
            K j <= corsa a j /\ K j <= corsa a i) as HK.
  { intros j [Hj _]%posizioni_elem.
    pose proof (non_popolare_same a i j Hj) as Hnpj. rewrite Hnp in Hnpj.
    rewrite (corsa_non_popolare a j), (corsa_non_popolare a i) by done.
    unfold K, j2len_before. destruct j as [| j']; simpl; [lia |].
    destruct (st.2 !! j') as [v |] eqn:Ev; simpl; [| lia].
    apply Hj2 in Ev. lia. }
  assert (K i = corsa a i) as HKi.
  { rewrite corsa_non_popolare by done. unfold K, j2len_before.
    destruct i as [| i']; simpl; [done |].
    rewrite (Hj2d i') by done. lia. }
  rewrite Hpos.
  rewrite scan_row_app by (eapply Forall_impl; [apply Hl1 |]; simpl; lia).
  rewrite (scan_row_quiet _ _ _ _ l1).
  2: { simpl. apply Forall_forall. intros j Hj.
       rewrite Forall_forall in Hl1. specialize (Hl1 j Hj).
       assert (j ∈ posizioni (a !!! i) a) as Hin
         by (rewrite Hpos; apply elem_of_app; by left).
       destruct (HK j Hin) as [HKj _]. specialize (Hbest j Hl1).
       unfold K in HKj. lia. }
  simpl.
  assert ((length a <=? i) = false) as -> by (apply Nat.leb_gt; lia).
  fold (K i). rewrite HKi.
  assert (forall s', corsa a i <= bestsize s' ->
            scan_row 0 (length a) i st.2 l2
              (s', <[i := corsa a i]> (riga st.2 l1 ∅))
            = (s', riga st.2 (posizioni (a !!! i) a) ∅)) as Hrow.
  { intros s' Hs'. rewrite scan_row_quiet.
    - simpl. f_equal. rewrite Hpos. unfold riga.
      rewrite foldl_app. simpl. fold (K i). by rewrite HKi.
    - simpl. apply Forall_forall. intros j Hj.
      rewrite Forall_forall in Hl2. specialize (Hl2 j Hj).
      assert (j ∈ posizioni (a !!! i) a) as Hin.
      { rewrite Hpos. apply elem_of_app. right. by right. }
      destruct (HK j Hin) as [_ HKj]. unfold K in HKj. lia. }
  assert (forall j v, riga st.2 (posizioni (a !!! i) a) ∅ !! j = Some v ->
            v <= corsa a i /\ v <= corsa a j) as Hnew.
  { intros j v Hv. apply riga_lookup in Hv as [[Hin ->] | Hv].
    - destruct (HK j Hin). fold (K j). lia.
    - by rewrite lookup_empty in Hv. }
  assert (default 0 (riga st.2 (posizioni (a !!! i) a) ∅ !! i) = corsa a i)
    as Hnewd.
  { rewrite riga_lookup_elem.
    - simpl. by fold (K i).
    - rewrite Hpos. apply elem_of_app. right. by left. }
  pose proof (corsa_le a i) as Hle.
  destruct (bestsize st.1 <? corsa a i) eqn:Elt;
    [apply Nat.ltb_lt in Elt | apply Nat.ltb_ge in Elt];
    rewrite Hrow by (simpl; lia);
    (constructor; simpl; [done | lia | | done | by intros i' [= <-]]);
    intros t Ht; (destruct (decide (t = i)) as [-> | Hne]; [done |]);
    specialize (Hbest t); lia.
Qed.

End Scan.

Section Reflexive.

Local Open Scope nat_scope.
Import Difflib.

Implicit Types (a : str) (i j k : nat).

Lemma scan_fold_ok a k : forall i st,
  i + k <= length a -> riga_ok a i st ->
  riga_ok a (i + k) (foldl (scan_step a a 0 (length a)) st (seq i k)).
Proof.
  induction k as [| k IH]; intros i st Hik Hst; simpl.
  - by rewrite Nat.add_0_r.
  - replace (i + S k) with (S i + k) by lia.
    apply IH; [lia |]. apply scan_step_ok; [lia | done].
Qed.

Lemma scan_self a :
  let s := scan a a 0 (length a) 0 (length a) in
  besti s = bestj s /\ besti s + bestsize s <= length a.
Proof.
  unfold scan. rewrite Nat.sub_0_r.
  destruct (scan_fold_ok a (length a) 0 (mkSearch 0 0 0, ∅))
    as [Hdiag Hbound _ _ _]; [lia | | done].
  constructor; simpl; [done | done | lia | |].
  - intros j v Hv. by rewrite lookup_empty in Hv.
  - intros i' [=].
Qed.

Lemma extend_left_self a i : forall size,
  extend_left a a 0 0 i i size = mkSearch 0 0 (size + i).
Proof.
  induction i as [| i IH]; intros size; simpl.
  - by rewrite Nat.add_0_r.
  - rewrite N.eqb_refl. simpl. rewrite IH. f_equal. lia.
Qed.

Lemma extend_right_self a k : forall size,
  size + k <= length a ->
  extend_right a a k (length a) (length a) 0 0 size = size + k.
Proof.
  induction k as [| k IH]; intros size Hk; simpl.
  - by rewrite Nat.add_0_r.
  - rewrite N.eqb_refl.
    assert ((size <? length a) = true) as -> by (apply Nat.ltb_lt; lia).
    simpl. rewrite IH by lia. lia.
Qed.

(** The longest match of a text with itself is the whole text. *)
Lemma find_longest_match_self a :
  find_longest_match a a 0 (length a) 0 (length a) = mkMatch 0 0 (length a).
Proof.
  unfold find_longest_match.
  destruct (scan_self a) as [Hdiag Hbound].
  rewrite <- Hdiag, extend_left_self. simpl.
  rewrite extend_right_self by lia. f_equal. lia.
Qed.

Lemma matching_blocks_go_nil (a b : str) (fuel : nat) (blocks : list Match) :
  matching_blocks_go a b fuel [] blocks = blocks.
Proof. by destruct fuel. Qed.

Lemma get_matching_blocks_self a :
  sum_list (m_size <$> get_matching_blocks a a) = length a.
Proof.
  destruct (decide (length a = 0)) as [Hz | Hnz].
  { by destruct a. }
  unfold get_matching_blocks. cbn [matching_blocks_go].
  rewrite find_longest_match_self. cbn [m_a m_b m_size].
  rewrite Nat.add_0_l, !Nat.ltb_irrefl.
  assert ((0 <? length a) = true) as Hpos by (apply Nat.ltb_lt; lia).
  rewrite Hpos. cbn [andb app]. rewrite matching_blocks_go_nil.
  change (merge_sort match_le [mkMatch 0 0 (length a)])
    with [mkMatch 0 0 (length a)].
  cbn [collapse m_a m_b m_size Nat.add Nat.eqb andb].
  rewrite Hpos. simpl. lia.
Qed.

Lemma calculate_ratio_self (n : nat) : calculate_ratio n (n + n) = 1%Q.
Proof.
  unfold calculate_ratio. destruct (0 <? n + n) eqn:En; [| done].
  apply Nat.ltb_lt in En.
  change 1%Q with (Qred 1). apply Qred_complete.
  unfold Qeq. simpl Qnum. simpl Qden.
  rewrite <- (positive_nat_Z (Pos.of_nat (n + n))), Nat2Pos.id by lia.
  lia.
Qed.

Lemma ratio_self a : ratio a a = 1%Q.
Proof.
  unfold ratio. rewrite get_matching_blocks_self.
  apply calculate_ratio_self.
Qed.

End Reflexive.

(** *** The queue of ranges empties within the fuel *)

Section Fuel.

Local Open Scope nat_scope.
Import Difflib.

Variables a b : str.

Implicit Types (i j k alo ahi blo bhi : nat) (st : search * gmap nat nat).

Lemma scan_row_bound alo blo bhi i j2len :
  alo <= i ->
  (forall j v, j2len !! j = Some v -> v <= i - alo) ->
  forall js st,
  entro_riga alo (S i) st ->
  entro_riga alo (S i) (scan_row blo bhi i j2len js st).
Proof.
  intros Hi Hj2. induction js as [| j js IH]; intros st Hst; [done |].
  simpl. destruct (j <? blo); [by apply IH |].
  destruct (bhi <=? j); [done |].
  assert (j2len_before j2len j <= i - alo) as Hk.
  { unfold j2len_before. destruct j as [| j']; [lia |].
    destruct (j2len !! j') as [v |] eqn:Ev; simpl; [by eapply Hj2 | lia]. }
  destruct Hst as (Hlo & Hhi & Hm).
  assert (forall j0 v, <[j := j2len_before j2len j + 1]> st.2 !! j0 = Some v ->
            v <= S i - alo) as Hm'.
  { intros j0 v. destruct (decide (j = j0)) as [-> | Hne].
    - rewrite lookup_insert_eq. intros [= <-]. lia.
    - rewrite lookup_insert_ne by done. apply Hm. }
  destruct (_ <? _); apply IH; (split; [| split]); simpl; try done; lia.
Qed.

Lemma scan_step_bound alo blo bhi i st :
  alo <= i -> entro_riga alo i st ->
  entro_riga alo (S i) (scan_step a b blo bhi st i).
Proof.
  intros Hi (Hlo & Hhi & Hm). unfold scan_step.
  apply scan_row_bound; [done | done |].
  split; [| split]; simpl; [done | lia |].
  intros j v Hv. by rewrite lookup_empty in Hv.
Qed.

Lemma scan_fold_bound alo blo bhi k : forall i st,
  alo <= i -> entro_riga alo i st ->
  entro_riga alo (i + k) (foldl (scan_step a b blo bhi) st (seq i k)).
Proof.
  induction k as [| k IH]; intros i st Hi Hst; simpl.
  - by rewrite Nat.add_0_r.
  - replace (i + S k) with (S i + k) by lia.
    apply IH; [lia |]. by apply scan_step_bound.
Qed.

Lemma scan_bound alo ahi blo bhi :
  alo <= ahi ->
  let s := scan a b alo ahi blo bhi in
  alo <= besti s /\ besti s + bestsize s <= ahi.
Proof.
  intros Hle. unfold scan.
  destruct (scan_fold_bound alo blo bhi (ahi - alo) alo
              (mkSearch alo blo 0, ∅)) as (Hlo & Hhi & _); [lia | |].
  - split; [| split]; simpl; [lia | lia |].
    intros j v Hv. by rewrite lookup_empty in Hv.
  - replace (alo + (ahi - alo)) with ahi in Hhi by lia. done.
Qed.

Lemma extend_left_bound alo blo i : forall j size,
  alo <= i ->
  let l := extend_left a b alo blo i j size in
  alo <= besti l /\ besti l + bestsize l = i + size.
Proof.
  induction i as [| i IH]; intros j size Hi; simpl; [done |].
  destruct j as [| j]; simpl; [done |].
  destruct (alo <? S i) eqn:Elt; simpl; [| done].
  destruct (_ && _); simpl; [| done].
  apply Nat.ltb_lt in Elt.
  destruct (IH j (S size)) as [Hlo Hsum]; [lia |]. split; [done | lia].
Qed.

Lemma extend_right_bound n ahi bhi i j : forall size,
  i + size <= ahi ->
  let k := extend_right a b n ahi bhi i j size in
  size <= k /\ i + k <= ahi.
Proof.
  induction n as [| n IH]; intros size Hle; simpl; [done |].
  destruct (i + size <? ahi) eqn:Elt; simpl; [| done].
  destruct (_ && _); simpl; [| done].
  apply Nat.ltb_lt in Elt.
  destruct (IH (S size)) as [Hge Hhi]; [lia |]. split; [lia | done].
Qed.

(** The longest match lies within the range searched. *)
Lemma find_longest_match_bound alo ahi blo bhi :
  alo <= ahi ->
  let x := find_longest_match a b alo ahi blo bhi in
  alo <= m_a x /\ m_a x + m_size x <= ahi.
Proof.
  intros Hle. unfold find_longest_match. simpl.
  destruct (scan_bound alo ahi blo bhi Hle) as [Hlo Hhi].
  destruct (extend_left_bound alo blo _ (bestj (scan a b alo ahi blo bhi))
              (bestsize (scan a b alo ahi blo bhi)) Hlo) as [Hlo' Hsum].
  split; [done |].
  apply extend_right_bound. lia.
Qed.

Lemma peso_cons alo ahi blo bhi (queue : list (nat * nat * nat * nat)) :
  sum_list (peso <$> (alo, ahi, blo, bhi) :: queue)
  = Nat.max 1 (ahi - alo) + sum_list (peso <$> queue).
Proof. done. Qed.

(** More fuel than the weight of the queue changes nothing: the loop
    ends because the queue is empty. *)
Lemma matching_blocks_go_fuel fuel : forall queue blocks fuel',
  Forall (fun q => q.1.1.1 <= q.1.1.2) queue ->
  sum_list (peso <$> queue) <= fuel -> fuel <= fuel' ->
  matching_blocks_go a b fuel' queue blocks
  = matching_blocks_go a b fuel queue blocks.
Proof.
  induction fuel as [| fuel IH]; intros queue blocks fuel' Hwf Hw Hge.
  - destruct queue as [| q queue]; [by rewrite !matching_blocks_go_nil |].
    simpl in Hw. unfold peso in Hw. lia.
  - destruct queue as [| [[[alo ahi] blo] bhi] queue];
      [by rewrite !matching_blocks_go_nil |].
    destruct fuel' as [| fuel']; [lia |].
    apply Forall_cons in Hwf as [Hq Hwf]. simpl in Hq.
    rewrite peso_cons in Hw.
    cbn [matching_blocks_go].
    pose proof (find_longest_match_bound alo ahi blo bhi Hq) as [Hlo Hhi].
    remember (find_longest_match a b alo ahi blo bhi) as x eqn:Ex.
    clear Ex.
    destruct (0 <? m_size x) eqn:Ek.
    2: { apply IH; [done | lia | lia]. }
    apply Nat.ltb_lt in Ek.
    destruct ((alo <? m_a x) && (blo <? m_b x)) eqn:E1;
      destruct ((m_a x + m_size x <? ahi) && (m_b x + m_size x <? bhi))
        eqn:E2;
      try (apply andb_true_iff in E1 as [E1 _]; apply Nat.ltb_lt in E1);
      try (apply andb_true_iff in E2 as [E2 _]; apply Nat.ltb_lt in E2);
      (apply IH; [| | lia]).
    all: rewrite ?peso_cons; repeat (apply Forall_cons; split);
      try done; simpl; lia.
Qed.

(** The fuel of [get_matching_blocks] is enough. *)
Lemma get_matching_blocks_fuel (fuel : nat) :
  S (length a) <= fuel ->
  matching_blocks_go a b fuel [(0, length a, 0, length b)] []
  = matching_blocks_go a b (S (length a)) [(0, length a, 0, length b)] [].
Proof.
  intros Hfuel. apply matching_blocks_go_fuel; [| | done].
  - apply Forall_singleton. simpl. lia.
  - simpl. unfold peso. simpl. lia.
Qed.

End Fuel.

Section Similarity.

Context {U : Unicode}.

(** C3: a text that is not empty has similarity 1 with itself, and the
    empty text has similarity 0 with every text, on either side. *)
Theorem similarity_of_equal_and_of_empty (x y : str) :
  x <> [] ->
  calcola_similarita x x = 1%Q
  /\ calcola_similarita [] y = 0%Q
  /\ calcola_similarita y [] = 0%Q.
Proof.
  intros Hx. split; [| split].
  - destruct x as [| c x]; [done |]. simpl. apply ratio_self.
  - done.
  - by destruct y.
Qed.

End Similarity.

(** ** The sanitizer *)

(** The sanitizer reads the tables only at the characters of the text. *)
Section Agreement.

Implicit Types (s t : str) (c : N) (cls : N -> bool).

Lemma match_all_ext cls1 cls2 (n : nat) s :
  (forall c, c ∈ s -> cls1 c = cls2 c) ->
  Re.match_all cls1 n s = Re.match_all cls2 n s.
Proof.
  intros Hext. unfold Re.match_all. f_equal.
  induction s as [| c s IH]; [done |]. simpl.
  rewrite Hext by (by left). f_equal. apply IH.
  intros c' Hc'. apply Hext. by right.
Qed.

Lemma search_run_ext cls1 cls2 (n : nat) s :
  (forall c, c ∈ s -> cls1 c = cls2 c) ->
  Re.search_run cls1 n s = Re.search_run cls2 n s.
Proof.
  intros Hext. unfold Re.search_run. generalize 0%nat as k.
  induction s as [| c s IH]; intros k; [done |]. simpl.
  rewrite Hext by (by left).
  rewrite !IH by (intros c' Hc'; apply Hext; by right). done.
Qed.

Lemma strip_prefix_ext (eq1 eq2 : N -> N -> bool) (lit : str) : forall s,
  (forall p c, p ∈ lit -> c ∈ s -> eq1 p c = eq2 p c) ->
  Re.strip_prefix eq1 lit s = Re.strip_prefix eq2 lit s.
Proof.
  induction lit as [| p lit IH]; intros s Hext; [done |].
  destruct s as [| c s]; [done |]. simpl.
  rewrite Hext by (by left).
  destruct (eq2 p c); [| done].
  apply IH. intros p' c' Hp' Hc'. apply Hext; by right.
Qed.

Lemma strip_prefix_suffix (eqc : N -> N -> bool) (lit : str) : forall s r c,
  Re.strip_prefix eqc lit s = Some r -> c ∈ r -> c ∈ s.
Proof.
  induction lit as [| p lit IH]; intros s r c Hr Hc.
  - destruct s; simplify_eq/=; done.
  - destruct s as [| c' s]; [done |]. simpl in Hr.
    destruct (eqc p c'); [| done]. right. by eapply IH.
Qed.

Lemma find_after_ext (eq1 eq2 : N -> N -> bool) (lit : str) s :
  (forall p c, p ∈ lit -> c ∈ s -> eq1 p c = eq2 p c) ->
  Re.find_after eq1 lit s = Re.find_after eq2 lit s.
Proof.
  induction s as [| c s IH]; intros Hext; simpl.
  - by rewrite (strip_prefix_ext eq1 eq2).
  - rewrite (strip_prefix_ext eq1 eq2) by done.
    destruct (Re.strip_prefix eq2 lit (c :: s)); [done |].
    apply IH. intros p c' Hp Hc'. apply Hext; [done | by right].
Qed.

Lemma find_after_suffix (eqc : N -> N -> bool) (lit : str) s : forall r c,
  Re.find_after eqc lit s = Some r -> c ∈ r -> c ∈ s.
Proof.
  induction s as [| c' s IH]; intros r c Hr Hc; simpl in Hr.
  - destruct (Re.strip_prefix eqc lit []) eqn:E; [| done].
    simplify_eq. by eapply strip_prefix_suffix.
  - destruct (Re.strip_prefix eqc lit (c' :: s)) eqn:E.
    + simplify_eq. by eapply strip_prefix_suffix.
    + right. by eapply IH.
Qed.

Lemma search_in_order_ext (eq1 eq2 : N -> N -> bool) (lits : list str) :
  forall s,
  (forall lit p c, lit ∈ lits -> p ∈ lit -> c ∈ s -> eq1 p c = eq2 p c) ->
  Re.search_in_order eq1 lits s = Re.search_in_order eq2 lits s.
Proof.
  induction lits as [| lit lits IH]; intros s Hext; [done |]. simpl.
  rewrite (find_after_ext eq1 eq2)
    by (intros p c Hp Hc; eapply Hext; [by left | done | done]).
  destruct (Re.find_after eq2 lit s) as [r |] eqn:Er; [| done].
  apply IH. intros lit' p c Hlit Hp Hc.
  eapply Hext; [by right | done |]. by eapply find_after_suffix.
Qed.

Lemma split_char_go_elem (sep : N) s : forall cur piece c,
  piece ∈ split_char_go sep cur s -> c ∈ piece -> c ∈ cur ++ s.
Proof.
  induction s as [| c' s IH]; intros cur piece c Hpiece Hc; simpl in Hpiece.
  - apply list_elem_of_singleton in Hpiece as ->. by rewrite app_nil_r.
  - destruct (c' =? sep)%N.
    + apply elem_of_cons in Hpiece as [-> | Hpiece].
      * apply elem_of_app. by left.
      * apply elem_of_app. right. right.
        by apply (IH [] piece c Hpiece).
    + specialize (IH _ _ _ Hpiece Hc).
      rewrite <- app_assoc in IH. done.
Qed.

Lemma split_char_elem (sep : N) s piece c :
  piece ∈ split_char sep s -> c ∈ piece -> c ∈ s.
Proof. apply (split_char_go_elem sep s []). Qed.

Lemma lstrip_elem s c : c ∈ lstrip s -> c ∈ s.
Proof.
  induction s as [| c' s IH]; [done |]. simpl.
  destruct (isspace c'); [| done]. intros Hc. right. by apply IH.
Qed.

Lemma strip_elem s c : c ∈ strip s -> c ∈ s.
Proof.
  unfold strip, rstrip. rewrite list_elem_of_In, <- in_rev, <- list_elem_of_In.
  intros Hc%lstrip_elem.
  rewrite list_elem_of_In, <- in_rev, <- list_elem_of_In in Hc.
  by apply lstrip_elem.
Qed.

Lemma search_literals_ext (eq1 eq2 : N -> N -> bool) (lits : list str) s :
  (forall lit p c, lit ∈ lits -> p ∈ lit -> c ∈ s -> eq1 p c = eq2 p c) ->
  Re.search_literals eq1 lits s = Re.search_literals eq2 lits s.
Proof.
  intros Hext. unfold Re.search_literals.
  assert (forall piece, piece ∈ split_char 10 s ->
            Re.search_in_order eq1 lits piece
            = Re.search_in_order eq2 lits piece) as Hpieces.
  { intros piece Hpiece. apply search_in_order_ext.
    intros lit p c Hlit Hp Hc. apply (Hext lit p c Hlit Hp).
    by eapply split_char_elem. }
  induction (split_char 10 s) as [| piece pieces IH]; [done |]. simpl.
  rewrite Hpieces by (by left). f_equal. apply IH.
  intros piece' Hpiece'. apply Hpieces. by right.
Qed.

Lemma pulisci_linea_concordi (U V : Unicode) (acc : list str) (linea : str) :
  concordi U V linea ->
  pulisci_linea (U := U) acc linea = pulisci_linea (U := V) acc linea.
Proof.
  intros Hagree. unfold pulisci_linea.
  assert (forall c, c ∈ strip linea ->
            @uc_isalnum U c = @uc_isalnum V c
            /\ @uc_isdecimal U c = @uc_isdecimal V c
            /\ forall lit p, lit ∈ intestazione -> p ∈ lit ->
                 @uc_ci_match U p c = @uc_ci_match V p c) as Hs
    by (intros c Hc%strip_elem; by apply Hagree).
  rewrite (match_all_ext
             (fun c => @uc_isdecimal U c || isspace c || char_in c (u "-/"))
             (fun c => @uc_isdecimal V c || isspace c || char_in c (u "-/")))
    by (intros c Hc; destruct (Hs c Hc) as (_ & -> & _); done).
  rewrite (search_literals_ext (@uc_ci_match U) (@uc_ci_match V))
    by (intros lit p c Hlit Hp Hc; destruct (Hs c Hc) as (_ & _ & Hm);
        by apply (Hm lit p)).
  rewrite (search_run_ext (re_strano (U := U)) (re_strano (U := V)))
    by (intros c Hc; unfold re_strano, re_word;
        destruct (Hs c Hc) as (-> & _); done).
  reflexivity.
Qed.

Lemma pulisci_linee_concordi (U V : Unicode) (linee : list str) :
  Forall (concordi U V) linee ->
  forall acc,
  foldl (pulisci_linea (U := U)) acc linee
  = foldl (pulisci_linea (U := V)) acc linee.
Proof.
  induction 1 as [| linea linee Hl Hls IH]; intros acc; [done |]. simpl.
  rewrite (pulisci_linea_concordi U V) by done. apply IH.
Qed.

Lemma pulisci_testo_ocr_concordi (U V : Unicode) (testo : str) :
  concordi U V testo ->
  pulisci_testo_ocr (U := U) testo = pulisci_testo_ocr (U := V) testo.
Proof.
  intros Hagree.
  assert (Forall (concordi U V)
            (split_char 10
               (Re.sub_class (fun c => char_in c decorativi) testo)))
    as Hlinee.
  { apply Forall_forall. intros linea Hlinea c Hc.
    apply Hagree.
    pose proof (split_char_elem _ _ _ _ Hlinea Hc) as Hin.
    unfold Re.sub_class in Hin.
    by apply list_elem_of_filter in Hin as [_ ?]. }
  unfold pulisci_testo_ocr.
  destruct testo as [| c0 testo0]; [reflexivity |].
  cbv zeta.
  rewrite (pulisci_linee_concordi U V _ Hlinee []).
  reflexivity.
Qed.

End Agreement.

(** C4, as stated, fails: the line of the page number is kept, because it
    is not made of digits, spaces, dashes and slashes only. *)
Lemma sanitize_scenario_keeps_page_line :
  ~ (let out := pulisci_testo_ocr (U := Basic.tables) scenario_raw in
     contains scenario_contenuto out = true
     /\ contains (u "Pag. 3") out = false
     /\ contains (u "- - -") out = false).
Proof. vm_compute. intros (_ & Hpag & _). discriminate Hpag. Qed.

(** C4, amended: the sanitized scenario is the page number line followed
    by the content line; it contains the content and the page number
    line, and not the separator line.  This holds for all tables that
    agree with the basic ones on the characters of the scenario. *)
Theorem sanitize_scenario_result (U : Unicode) :
  concordi U Basic.tables scenario_raw ->
  let out := pulisci_testo_ocr (U := U) scenario_raw in
  out = u "Pag. 3 This is real content about α and β coefficients."
  /\ contains scenario_contenuto out = true
  /\ contains (u "Pag. 3") out = true
  /\ contains (u "- - -") out = false.
Proof.
  intros Hagree.
  rewrite (pulisci_testo_ocr_concordi U Basic.tables _ Hagree).
  by vm_compute.
Qed.

(** ** The command surface *)

Section Surface.

Context {U : Unicode}.


End Surface.


(** ** The properties on the scenarios *)

Lemma merge_near_duplicate_witness :
  (8 # 10 < calcola_similarita (U := Basic.tables) scenario_nativo
              scenario_ocr)%Q
  /\ unisci_testo_pagina (U := Basic.tables) scenario_nativo scenario_ocr 1
     = scenario_nativo.
Proof.
  assert (8 # 10 < calcola_similarita (U := Basic.tables) scenario_nativo
                     scenario_ocr)%Q as Hsim
    by (vm_compute; reflexivity).
  split; [exact Hsim |].
  apply (merge_near_duplicate_is_native (U := Basic.tables));
    [discriminate | vm_compute; lia | discriminate | vm_compute; lia
    | exact Hsim].
Defined.

Lemma merge_appends_unique_supplements_witness :
  (calcola_similarita (U := Basic.tables) pagina_nativa pagina_ocr
   <= 8 # 10)%Q
  /\ unisci_testo_pagina (U := Basic.tables) pagina_nativa pagina_ocr 1
     = pagina_nativa ++ u ". " ++ u "Completely different sentence here".
Proof.
  assert (calcola_similarita (U := Basic.tables) pagina_nativa pagina_ocr
          <= 8 # 10)%Q as Hsim
    by (apply Qle_bool_iff; vm_compute; reflexivity).
  split; [exact Hsim |].
  destruct (merge_appends_unique_supplements (U := Basic.tables)
              pagina_nativa pagina_ocr 1) as [Happend _];
    [discriminate | vm_compute; lia | discriminate | vm_compute; lia
    | exact Hsim |].
  rewrite Happend; [vm_compute; reflexivity | vm_compute; discriminate].
Defined.

Lemma similarity_of_equal_and_of_empty_witness :
  calcola_similarita (U := Basic.tables) scenario_nativo scenario_nativo
  = 1%Q
  /\ calcola_similarita (U := Basic.tables) [] scenario_ocr = 0%Q
  /\ calcola_similarita (U := Basic.tables) scenario_ocr [] = 0%Q.
Proof.
  apply (similarity_of_equal_and_of_empty (U := Basic.tables)).
  discriminate.
Defined.

Lemma merge_with_empty_side_witness :
  unisci_testo_pagina (U := Basic.tables) scenario_nativo [] 1
  = scenario_nativo
  /\ unisci_testo_pagina (U := Basic.tables) [] scenario_ocr 1
     = scenario_ocr
  /\ unisci_testo_pagina (U := Basic.tables) (u "Pag. 3") [] 1 = [].
Proof.
  apply (merge_with_empty_side (U := Basic.tables));
    [discriminate | vm_compute; lia | discriminate | vm_compute; lia |].
  right. vm_compute. lia.
Defined.

Lemma segment_respects_budget_witness :
  (0 < 2)%Z
  /\ concat (blocchi_di_frasi scenario_frasi 2)
     = frasi_complete scenario_frasi
  /\ [u "Another short one."] ∈ blocchi_di_frasi scenario_frasi 2.
Proof.
  assert (0 < 2)%Z as Hpos by lia.
  split; [exact Hpos |].
  destruct (segment_respects_budget scenario_frasi 2 Hpos)
    as (Hconcat & _ & _ & Hsolo & _).
  split; [exact Hconcat |].
  apply Hsolo; [| vm_compute; reflexivity].
  apply (bool_decide_unpack _). vm_compute. reflexivity.
Defined.

Lemma segment_partitions_sentences_witness :
  (0 < 4)%Z
  /\ concat (blocchi_di_frasi scenario_frasi 4)
     = frasi_complete scenario_frasi.
Proof.
  assert (0 < 4)%Z as Hpos by lia.
  split; [exact Hpos |].
  exact (segment_partitions_sentences scenario_frasi 4 Hpos).
Defined.


Lemma sanitize_scenario_result_witness :
  pulisci_testo_ocr (U := Basic.tables) scenario_raw
  = u "Pag. 3 This is real content about α and β coefficients.".
Proof.
  apply (sanitize_scenario_result Basic.tables).
  intros c _. repeat split.
Defined.

(** * Further properties *)

(** ** Trimming and words *)

Section Trimming.

Implicit Types (s t : str) (c : N).

Lemma lstrip_idem s : lstrip (lstrip s) = lstrip s.
Proof.
  induction s as [| c s IH]; [done |]. simpl.
  destruct (isspace c) eqn:Ec; [done |]. simpl. by rewrite Ec.
Qed.

Lemma lstrip_hd s c : head (lstrip s) = Some c -> isspace c = false.
Proof.
  induction s as [| c' s IH]; [done |]. simpl.
  destruct (isspace c') eqn:Ec; [done |]. simpl. by intros [= <-].
Qed.

Lemma lstrip_snoc s c :
  lstrip (s ++ [c])
  = match lstrip s with
    | [] => if isspace c then [] else [c]
    | r => r ++ [c]
    end.
Proof.
  induction s as [| c' s IH]; simpl; [done |].
  by destruct (isspace c').
Qed.

Lemma rstrip_cons c s :
  rstrip (c :: s)
  = match rstrip s with
    | [] => if isspace c then [] else [c]
    | r => c :: r
    end.
Proof.
  unfold rstrip. simpl. rewrite lstrip_snoc.
  destruct (lstrip (rev s)) as [| c' r]; simpl.
  - by destruct (isspace c).
  - rewrite rev_app_distr. simpl.
    destruct (rev r ++ [c']) eqn:E; [| done].
    by destruct (rev r).
Qed.

Lemma rstrip_idem s : rstrip (rstrip s) = rstrip s.
Proof.
  unfold rstrip. by rewrite rev_involutive, lstrip_idem.
Qed.

Lemma rstrip_hd s c :
  head s = Some c -> isspace c = false -> head (rstrip s) = Some c.
Proof.
  destruct s as [| c' s]; [done |]. intros [= ->] Hc.
  rewrite rstrip_cons, Hc. by destruct (rstrip s).
Qed.

Lemma lstrip_id s :
  match s with [] => True | c :: _ => isspace c = false end ->
  lstrip s = s.
Proof. destruct s as [| c s]; [done |]. simpl. by intros ->. Qed.

(** A trimmed text starts with a character that is not white space. *)
Lemma strip_hd s c : head (strip s) = Some c -> isspace c = false.
Proof.
  unfold strip. destruct (lstrip s) as [| c' r] eqn:E; [done |].
  assert (isspace c' = false) as Hc' by (apply (lstrip_hd s); by rewrite E).
  rewrite (rstrip_hd (c' :: r) c') by done. by intros [= <-].
Qed.

Lemma strip_idem s : strip (strip s) = strip s.
Proof.
  unfold strip at 1. rewrite lstrip_id.
  - unfold strip. apply rstrip_idem.
  - destruct (strip s) as [| c r] eqn:E; [done |].
    apply (strip_hd s). by rewrite E.
Qed.

Lemma senza_spazi_cons c s :
  senza_spazi (c :: s) = if isspace c then senza_spazi s else c :: senza_spazi s.
Proof.
  unfold senza_spazi. rewrite filter_cons.
  destruct (isspace c); [by rewrite decide_False | by rewrite decide_True].
Qed.

Lemma senza_spazi_lstrip s : senza_spazi (lstrip s) = senza_spazi s.
Proof.
  induction s as [| c s IH]; [done |]. simpl.
  rewrite (senza_spazi_cons c s).
  destruct (isspace c) eqn:Ec; [done | by rewrite senza_spazi_cons, Ec].
Qed.

Lemma senza_spazi_rstrip s : senza_spazi (rstrip s) = senza_spazi s.
Proof.
  induction s as [| c s IH]; [done |]. rewrite rstrip_cons.
  rewrite (senza_spazi_cons c s), <- IH.
  destruct (rstrip s) as [| c' r].
  - by destruct (isspace c) eqn:Ec; rewrite ?senza_spazi_cons, ?Ec.
  - by rewrite (senza_spazi_cons c).
Qed.

Lemma senza_spazi_strip s : senza_spazi (strip s) = senza_spazi s.
Proof. unfold strip. by rewrite senza_spazi_rstrip, senza_spazi_lstrip. Qed.

Lemma senza_spazi_app s t :
  senza_spazi (s ++ t) = senza_spazi s ++ senza_spazi t.
Proof. apply filter_app. Qed.

Lemma senza_spazi_nil s :
  senza_spazi s = [] <-> Forall (fun c => isspace c = true) s.
Proof.
  induction s as [| c s IH]; [done |].
  rewrite senza_spazi_cons, Forall_cons.
  destruct (isspace c) eqn:Ec; [rewrite IH |]; intuition congruence.
Qed.

(** A text is blank when trimming leaves nothing. *)
Lemma strip_nil s : strip s = [] <-> senza_spazi s = [].
Proof.
  rewrite <- (senza_spazi_strip s). split; [by intros -> |].
  intros Hblank. destruct (strip s) as [| c r] eqn:E; [done |].
  assert (isspace c = false) as Hc by (apply (strip_hd s); by rewrite E).
  by rewrite senza_spazi_cons, Hc in Hblank.
Qed.

Lemma split_go_nil s : forall cur,
  split_go cur s = [] <-> cur = [] /\ Forall (fun c => isspace c = true) s.
Proof.
  induction s as [| c s IH]; intros cur; simpl.
  - destruct cur; split; try done; by intros [? ?].
  - rewrite Forall_cons. destruct (isspace c) eqn:Ec.
    + destruct cur; [rewrite IH; intuition congruence |].
      split; [done | by intros [? ?]].
    + rewrite IH. split; [intros [Hcur _]; by destruct cur | by intros [? [? ?]]].
Qed.

(** A text that is not blank has a word. *)
Lemma num_parole_pos s : strip s <> [] -> (1 <= num_parole s)%Z.
Proof.
  intros Hne. unfold num_parole, split.
  destruct (split_go [] s) eqn:E; [| simpl; lia].
  apply split_go_nil in E as [_ Hblank].
  apply senza_spazi_nil, strip_nil in Hblank. done.
Qed.

End Trimming.

(** ** The sentences and the blocks of the segmenter *)

Section Blocks.

Implicit Types (st : blocchi_stato) (f frase : str) (budget : Z)
  (l : list str) (bs : list (list str)).

Lemma frasi_di_trimmed l : alternating terminatore l ->
  Forall (fun f => f <> [] /\ strip f = f) (frasi_di l).
Proof.
  induction 1 as [t Ht | t d l Ht Hd Hd' Hl Halt IH]; simpl.
  - destruct (strip t) as [| c r] eqn:E; [done |].
    constructor; [| done]. split; [done |].
    by rewrite <- E, strip_idem.
  - constructor; [| done]. split; [| apply strip_idem].
    rewrite strip_app_run by done.
    destruct d; [done |]. by destruct (lstrip t).
Qed.

Lemma frasi_complete_trimmed (testo : str) :
  Forall (fun f => f <> [] /\ strip f = f) (frasi_complete testo).
Proof.
  rewrite frasi_complete_frasi_di. apply frasi_di_trimmed.
  by apply split_capture_go_alternating.
Qed.

Lemma frasi_complete_parole (testo : str) f :
  f ∈ frasi_complete testo -> (1 <= num_parole f)%Z.
Proof.
  intros Hf. pose proof (frasi_complete_trimmed testo) as Hall.
  rewrite Forall_forall in Hall. destruct (Hall f Hf) as [Hne Heq].
  apply num_parole_pos. by rewrite Heq.
Qed.

(** *** White space is all that changes *)

Lemma senza_spazi_join (sep : str) l :
  senza_spazi sep = [] ->
  senza_spazi (join sep l) = senza_spazi (concat l).
Proof.
  intros Hsep. induction l as [| p l IH]; [done |].
  destruct l as [| q l].
  - simpl. by rewrite app_nil_r.
  - change (join sep (p :: q :: l)) with (p ++ sep ++ join sep (q :: l)).
    change (concat (p :: q :: l)) with (p ++ concat (q :: l)).
    by rewrite !senza_spazi_app, Hsep, IH.
Qed.

Lemma senza_spazi_blocchi bs :
  senza_spazi (concat (join (u " ") <$> bs))
  = senza_spazi (concat (concat bs)).
Proof.
  induction bs as [| b bs IH]; [done |].
  rewrite fmap_cons, !concat_cons, concat_app, !senza_spazi_app, IH.
  by rewrite senza_spazi_join.
Qed.

Lemma senza_spazi_frasi_di l :
  senza_spazi (concat (frasi_di l)) = senza_spazi (concat l)
  /\ forall t, senza_spazi (concat (frasi_di (t :: l)))
               = senza_spazi (concat (t :: l)).
Proof.
  induction l as [| d l [IH1 IH2]].
  - split; [done |]. intros t. simpl. rewrite app_nil_r.
    destruct (strip t) as [| c r] eqn:E.
    + symmetry. by apply strip_nil.
    + simpl. by rewrite app_nil_r, <- E, senza_spazi_strip.
  - split; [apply IH2 |]. intros t.
    change (frasi_di (t :: d :: l)) with (strip (t ++ d) :: frasi_di l).
    simpl. rewrite !senza_spazi_app, senza_spazi_strip, senza_spazi_app.
    by rewrite IH1, <- app_assoc.
Qed.

Lemma senza_spazi_frasi_complete (testo : str) :
  senza_spazi (concat (frasi_complete testo)) = senza_spazi testo.
Proof.
  rewrite frasi_complete_frasi_di.
  rewrite (proj1 (senza_spazi_frasi_di _)).
  unfold Re.split_capture. by rewrite split_capture_go_concat.
Qed.

Lemma senza_spazi_dividi (testo : str) budget :
  senza_spazi (dividi_in_blocchi_con_frasi testo budget)
  = senza_spazi testo.
Proof.
  unfold dividi_in_blocchi_con_frasi.
  rewrite senza_spazi_join by done.
  rewrite senza_spazi_blocchi, blocchi_di_frasi_concat.
  apply senza_spazi_frasi_complete.
Qed.

Lemma frasi_complete_blank (testo : str) :
  senza_spazi testo = [] -> frasi_complete testo = [].
Proof.
  intros Hblank.
  pose proof (frasi_complete_trimmed testo) as Hall.
  pose proof (senza_spazi_frasi_complete testo) as Hsame.
  rewrite Hblank in Hsame.
  destruct (frasi_complete testo) as [| f l]; [done |].
  apply Forall_inv in Hall as [Hne Heq].
  simpl in Hsame. rewrite senza_spazi_app in Hsame.
  apply app_eq_nil in Hsame as [Hf _].
  apply strip_nil in Hf. by rewrite Heq in Hf.
Qed.

(** *** A block is closed only when it is full *)

Lemma pieni_snoc budget bs (b b' : list str) :
  pieni budget (bs ++ [b]) ->
  (budget < parole_blocco b + num_parole (hd [] b'))%Z ->
  pieni budget (bs ++ [b; b']).
Proof.
  induction bs as [| b0 bs IH]; intros Hp Hfull.
  - by simpl.
  - destruct bs as [| b1 bs].
    + simpl in *. by destruct Hp as [? _].
    + change ((b0 :: b1 :: bs) ++ [b; b'])
        with (b0 :: b1 :: (bs ++ [b; b'])).
      change ((b0 :: b1 :: bs) ++ [b]) with (b0 :: b1 :: (bs ++ [b])) in Hp.
      destruct Hp as [H01 Hp]. split; [done |]. by apply IH.
Qed.

Lemma pieni_last budget bs (b b' : list str) :
  pieni budget (bs ++ [b]) -> hd [] b' = hd [] b ->
  pieni budget (bs ++ [b']).
Proof.
  induction bs as [| b0 bs IH]; intros Hp Hhd; [done |].
  destruct bs as [| b1 bs].
  - simpl in *. destruct Hp as [H01 _]. by rewrite Hhd.
  - change ((b0 :: b1 :: bs) ++ [b']) with (b0 :: b1 :: (bs ++ [b'])).
    change ((b0 :: b1 :: bs) ++ [b]) with (b0 :: b1 :: (bs ++ [b])) in Hp.
    destruct Hp as [H01 Hp]. split; [done |]. by apply IH.
Qed.

Lemma pieni_init budget bs (b : list str) :
  pieni budget (bs ++ [b]) -> pieni budget bs.
Proof.
  induction bs as [| b0 bs IH]; intros Hp; [done |].
  destruct bs as [| b1 bs]; [done |].
  change ((b0 :: b1 :: bs) ++ [b]) with (b0 :: b1 :: (bs ++ [b])) in Hp.
  destruct Hp as [H01 Hp]. split; [done |]. by apply IH.
Qed.

Lemma pieni_lookup budget bs i (b b' : list str) :
  pieni budget bs -> bs !! i = Some b -> bs !! S i = Some b' ->
  (budget < parole_blocco b + num_parole (hd [] b'))%Z.
Proof.
  revert i. induction bs as [| b0 bs IH]; intros i Hp Hb Hb'; [done |].
  destruct bs as [| b1 bs]; [done |]. destruct Hp as [H01 Hp].
  destruct i as [| i].
  - simpl in Hb, Hb'. by injection Hb as <-; injection Hb' as <-.
  - by apply (IH i).
Qed.

(** The invariant of the loop over the sentences that says why each
    block was closed. *)
Lemma blocchi_step_pieni budget st frase :
  conteggio_parole st = parole_blocco (blocco_corrente st) ->
  (blocco_corrente st = [] -> blocchi st = []) ->
  pieni budget (blocchi st ++ [blocco_corrente st]) ->
  let st' := blocchi_step budget st frase in
  conteggio_parole st' = parole_blocco (blocco_corrente st')
  /\ blocco_corrente st' <> []
  /\ pieni budget (blocchi st' ++ [blocco_corrente st']).
Proof.
  intros Hc He Hp. unfold blocchi_step.
  destruct ((budget <? conteggio_parole st + num_parole frase)%Z
            && negb (bool_decide (blocco_corrente st = []))) eqn:Hcond;
    simpl.
  - apply andb_true_iff in Hcond as [Hfull%Z.ltb_lt _].
    split; [unfold parole_blocco; simpl; lia |]. split; [done |].
    rewrite <- app_assoc. apply pieni_snoc; [done |]. simpl. lia.
  - split; [rewrite parole_blocco_app, Hc; unfold parole_blocco; simpl; lia |].
    split; [by destruct (blocco_corrente st) |].
    destruct (blocco_corrente st) as [| f0 cur] eqn:Ecur.
    + by rewrite He.
    + by apply (pieni_last budget _ (f0 :: cur)).
Qed.

Lemma blocchi_fold_pieni budget l : forall st,
  conteggio_parole st = parole_blocco (blocco_corrente st) ->
  (blocco_corrente st = [] -> blocchi st = []) ->
  pieni budget (blocchi st ++ [blocco_corrente st]) ->
  pieni budget (aperti (foldl (blocchi_step budget) st l)).
Proof.
  induction l as [| f l IH]; intros st Hc He Hp; simpl.
  - unfold aperti. destruct (blocco_corrente st); [| done].
    by apply pieni_init in Hp.
  - destruct (blocchi_step_pieni budget st f Hc He Hp) as (Hc' & Hne & Hp').
    by apply IH.
Qed.

Lemma blocchi_di_frasi_pieni (testo : str) budget :
  pieni budget (blocchi_di_frasi testo budget).
Proof. by apply (blocchi_fold_pieni budget _ (mkStato [] [] 0)). Qed.

(** *** A text within the budget *)

Lemma blocchi_fold_entro budget l : forall (cur : list str),
  (parole_blocco (cur ++ l) <= budget)%Z ->
  foldl (blocchi_step budget) (mkStato [] cur (parole_blocco cur)) l
  = mkStato [] (cur ++ l) (parole_blocco (cur ++ l)).
Proof.
  induction l as [| f l IH]; intros cur Hle; simpl.
  - by rewrite app_nil_r.
  - unfold blocchi_step at 2. simpl.
    assert (parole_blocco (cur ++ f :: l)
            = (parole_blocco cur + num_parole f + parole_blocco l)%Z) as Hsum.
    { rewrite parole_blocco_app. unfold parole_blocco at 2. simpl.
      fold (parole_blocco l). lia. }
    pose proof (parole_blocco_nonneg l) as Hl.
    assert ((budget <? parole_blocco cur + num_parole f)%Z = false) as ->
      by (apply Z.ltb_ge; lia).
    simpl.
    assert ((parole_blocco cur + num_parole f)%Z = parole_blocco (cur ++ [f]))
      as ->.
    { rewrite parole_blocco_app. unfold parole_blocco at 3. simpl. lia. }
    rewrite IH; rewrite <- app_assoc; [done |]. simpl. lia.
Qed.

(** *** Sentences that are longer than the budget *)

Lemma blocchi_step_solo budget st frase :
  (0 <= conteggio_parole st)%Z -> (budget < num_parole frase)%Z ->
  let st' := blocchi_step budget st frase in
  aperti st' = aperti st ++ [[frase]] /\ (0 <= conteggio_parole st')%Z.
Proof.
  intros Hc Hbig. unfold blocchi_step.
  pose proof (num_parole_nonneg frase) as Hf.
  assert ((budget <? conteggio_parole st + num_parole frase)%Z = true) as ->
    by (apply Z.ltb_lt; lia).
  unfold aperti. destruct (blocco_corrente st) as [| f0 cur]; simpl.
  - split; [done | lia].
  - split; [done | lia].
Qed.

Lemma blocchi_fold_solo budget l : forall st,
  (0 <= conteggio_parole st)%Z ->
  Forall (fun f => (budget < num_parole f)%Z) l ->
  aperti (foldl (blocchi_step budget) st l)
  = aperti st ++ ((fun f => [f]) <$> l).
Proof.
  induction l as [| f l IH]; intros st Hc Hall; simpl.
  - by rewrite app_nil_r.
  - apply Forall_cons in Hall as [Hf Hall].
    destruct (blocchi_step_solo budget st f Hc Hf) as [Hap Hc'].
    rewrite IH by done. rewrite Hap. by rewrite <- app_assoc.
Qed.

(** *** The properties of the segmenter *)

(** X1: every sentence that [dividi_in_blocchi_con_frasi] reads off a
    text is not empty, is left unchanged by trimming (it neither starts
    nor ends with white space) and holds at least one word. *)
Theorem segment_sentences_are_trimmed (testo : str) :
  Forall (fun f => f <> [] /\ strip f = f /\ (1 <= num_parole f)%Z)
         (frasi_complete testo).
Proof.
  apply Forall_forall. intros f Hf.
  pose proof (frasi_complete_trimmed testo) as Hall.
  rewrite Forall_forall in Hall. destruct (Hall f Hf) as [Hne Heq].
  repeat split; [done | done |]. by apply (frasi_complete_parole testo).
Qed.

(** X2: [dividi_in_blocchi_con_frasi] changes white space only: for
    every budget, the characters of its result that are not white space
    are those of the text, in the same order. *)
Theorem segment_changes_white_space_only (testo : str) (budget : Z) :
  senza_spazi (dividi_in_blocchi_con_frasi testo budget)
  = senza_spazi testo.
Proof. apply senza_spazi_dividi. Qed.

(** X3: the result of [dividi_in_blocchi_con_frasi] is the empty string
    exactly when the text is blank (empty or made of white space). *)
Theorem segment_empty_iff_blank (testo : str) (budget : Z) :
  dividi_in_blocchi_con_frasi testo budget = []
  <-> Forall (fun c => isspace c = true) testo.
Proof.
  rewrite <- senza_spazi_nil. split.
  - intros Hnil. by rewrite <- (senza_spazi_dividi testo budget), Hnil.
  - intros Hblank. unfold dividi_in_blocchi_con_frasi.
    assert (blocchi_di_frasi testo budget = []) as ->; [| done].
    pose proof (blocchi_di_frasi_concat testo budget) as Hconcat.
    rewrite (frasi_complete_blank testo Hblank) in Hconcat.
    pose proof (blocchi_di_frasi_ok testo budget) as Hok.
    destruct (blocchi_di_frasi testo budget) as [| b bs]; [done |].
    apply Forall_inv in Hok as [Hne _].
    simpl in Hconcat. by apply app_eq_nil in Hconcat as [? _].
Qed.

(** X4: a block is closed only when the next sentence does not fit:
    the words of a block and of the first sentence of the block after
    it are together more than the budget. *)
Theorem segment_closes_full_blocks (testo : str) (budget : Z)
    (i : nat) (blocco successivo : list str) :
  let blocks := blocchi_di_frasi testo budget in
  blocks !! i = Some blocco -> blocks !! S i = Some successivo ->
  exists frase, head successivo = Some frase
    /\ (budget < parole_blocco blocco + num_parole frase)%Z.
Proof.
  intros blocks Hb Hs.
  pose proof (blocchi_di_frasi_pieni testo budget) as Hp.
  pose proof (pieni_lookup budget _ i blocco successivo Hp Hb Hs) as Hfull.
  pose proof (blocchi_di_frasi_ok testo budget) as Hok.
  rewrite Forall_forall in Hok.
  destruct (Hok successivo) as [Hne _];
    [by apply list_elem_of_lookup_2 in Hs |].
  destruct successivo as [| frase resto]; [done |].
  by exists frase.
Qed.

(** X5: a text whose sentences hold together no more words than the
    budget gives one block: its sentences joined by one space. *)
Theorem segment_within_budget_is_one_block (testo : str) (budget : Z) :
  (parole_blocco (frasi_complete testo) <= budget)%Z ->
  dividi_in_blocchi_con_frasi testo budget
  = join (u " ") (frasi_complete testo).
Proof.
  intros Hle. unfold dividi_in_blocchi_con_frasi, blocchi_di_frasi.
  change (mkStato [] [] 0) with (mkStato [] [] (parole_blocco [])).
  rewrite blocchi_fold_entro by done. simpl.
  by destruct (frasi_complete testo).
Qed.

(** X6: when the budget is not positive, or is less than the number of
    words of every sentence, every sentence is a block of its own. *)
Theorem segment_long_sentences_stand_alone (testo : str) (budget : Z) :
  (budget <= 0)%Z
  \/ Forall (fun f => (budget < num_parole f)%Z) (frasi_complete testo) ->
  blocchi_di_frasi testo budget = (fun f => [f]) <$> frasi_complete testo.
Proof.
  intros Hbudget.
  assert (Forall (fun f => (budget < num_parole f)%Z) (frasi_complete testo))
    as Hall.
  { destruct Hbudget as [Hle | Hall]; [| done].
    apply Forall_forall. intros f Hf.
    pose proof (frasi_complete_parole testo f Hf). lia. }
  unfold blocchi_di_frasi.
  change (aperti (foldl (blocchi_step budget) (mkStato [] [] 0)
                        (frasi_complete testo))
          = (fun f => [f]) <$> frasi_complete testo).
  by rewrite blocchi_fold_solo.
Qed.

Lemma segment_closes_full_blocks_witness :
  exists frase, head [u "Another short one."] = Some frase
    /\ (4 < parole_blocco [u "A short sentence."] + num_parole frase)%Z.
Proof.
  apply (segment_closes_full_blocks scenario_frasi 4 0); reflexivity.
Defined.

Lemma segment_within_budget_is_one_block_witness :
  (parole_blocco (frasi_complete scenario_frasi) <= 100)%Z
  /\ dividi_in_blocchi_con_frasi scenario_frasi 100
     = join (u " ") (frasi_complete scenario_frasi).
Proof.
  assert (parole_blocco (frasi_complete scenario_frasi) <= 100)%Z as Hle
    by (vm_compute; discriminate).
  split; [exact Hle |].
  exact (segment_within_budget_is_one_block scenario_frasi 100 Hle).
Defined.

Lemma segment_long_sentences_stand_alone_witness :
  blocchi_di_frasi scenario_frasi 0
  = [[u "A short sentence."]; [u "Another short one."]; [u "A third."]].
Proof.
  rewrite (segment_long_sentences_stand_alone scenario_frasi 0);
    [reflexivity | left; lia].
Defined.

End Blocks.

(** ** The merged page and the sentences added to it *)

Section Supplements.

Context {U : Unicode}.

Implicit Types (native ocr f : str).

Lemma qualifica_inv native f :
  qualifica native f = true ->
  (15 <= length f)%nat /\ is_frase_valida f = true
  /\ Forall (fun base =>
               (calcola_similarita (uc_lower f) base <= 85 # 100)%Q)
            (frammenti (uc_lower native)).
Proof.
  unfold qualifica. rewrite !andb_true_iff, Nat.leb_le, Qle_bool_iff.
  rewrite max_similarita_le by done. tauto.
Qed.

Lemma unisci_testo_pagina_prefix native ocr (pag : nat) :
  (10 <= length (strip native))%nat ->
  exists aggiunta, unisci_testo_pagina native ocr pag = native ++ aggiunta.
Proof.
  intros Hlen. unfold unisci_testo_pagina.
  assert (native <> []) as Hne by (intros ->; simpl in Hlen; lia).
  rewrite troppo_corto_false by done.
  destruct (bool_decide (ocr = []) || (length (strip ocr) <? 10)%nat);
    [exists []; by rewrite app_nil_r |].
  destruct (float_lt _ _); [exists []; by rewrite app_nil_r |].
  destruct (trova_frasi_uniche native ocr) as [| f nuove].
  - exists []. by rewrite app_nil_r.
  - by eexists.
Qed.

(** X7: a native text that has at least 10 characters after trimming is
    never altered or dropped by the merger: the merged page starts with
    it, whatever the OCR text is. *)
Theorem merge_keeps_native_text (native ocr : str) (pag : nat) :
  (10 <= length (strip native))%nat ->
  exists aggiunta, unisci_testo_pagina native ocr pag = native ++ aggiunta.
Proof. apply unisci_testo_pagina_prefix. Qed.

(** X8: the merged page is the empty string exactly when there is no
    OCR text and the native text has fewer than 10 characters after
    trimming. *)
Theorem merge_empty_iff (native ocr : str) (pag : nat) :
  unisci_testo_pagina native ocr pag = []
  <-> (length (strip native) < 10)%nat /\ ocr = [].
Proof.
  destruct (decide (length (strip native) < 10)%nat) as [Hshort | Hlong].
  - unfold unisci_testo_pagina. rewrite troppo_corto_true by auto.
    destruct ocr; split; try done. by intros [_ ?].
  - destruct (unisci_testo_pagina_prefix native ocr pag) as [agg ->];
      [lia |].
    split; [| intros [? _]; lia].
    intros [Hn _]%app_eq_nil. subst native. simpl in Hlong. lia.
Qed.

Lemma trova_frasi_uniche_frammenti (testo_base testo_ocr : str) :
  trova_frasi_uniche testo_base testo_ocr `sublist_of` frammenti testo_ocr.
Proof.
  destruct testo_ocr as [| c ocr]; [apply sublist_nil_l |].
  destruct testo_base as [| c' base].
  - unfold trova_frasi_uniche, frammenti.
    apply fmap_sublist, sublist_filter.
  - rewrite trova_frasi_uniche_supplementi by done.
    apply sublist_filter.
Qed.

(** X9: whatever the two texts are, the sentences that
    [trova_frasi_uniche] returns are trimmed fragments of the OCR text,
    in the order of the OCR text, and each of them has at least 15
    characters and is a valid sentence. *)
Theorem unique_sentences_are_valid_fragments (testo_base testo_ocr : str) :
  let nuove := trova_frasi_uniche testo_base testo_ocr in
  nuove `sublist_of` frammenti testo_ocr
  /\ Forall (fun f => (15 <= length f)%nat /\ is_frase_valida f = true)
            nuove.
Proof.
  intros nuove. subst nuove.
  split; [apply trova_frasi_uniche_frammenti |].
  destruct testo_ocr as [| c ocr]; [done |].
  destruct testo_base as [| c' base].
  - unfold trova_frasi_uniche.
    apply Forall_fmap, Forall_forall. intros f [Hf _]%list_elem_of_filter.
    apply andb_true_iff in Hf as [Hlen%Nat.ltb_lt Hval]. simpl.
    split; [lia | done].
  - rewrite trova_frasi_uniche_supplementi by done. unfold supplementi.
    apply Forall_forall. intros f [Hf _]%list_elem_of_filter.
    apply qualifica_inv in Hf. tauto.
Qed.

(** X10: an OCR sentence that the native text already has is never
    returned: when the lower-case form of a sentence is not empty and is
    one of the trimmed fragments of the lower-case native text, the
    sentence is not among those of [trova_frasi_uniche]. *)
Theorem unique_sentences_exclude_duplicates (native ocr f : str) :
  native <> [] ->
  uc_lower f <> [] ->
  uc_lower f ∈ frammenti (uc_lower native) ->
  f ∉ trova_frasi_uniche native ocr.
Proof.
  intros Hn Hlow Hdup Hin.
  destruct ocr as [| c ocr]; [by apply elem_of_nil in Hin |].
  rewrite trova_frasi_uniche_supplementi in Hin by done.
  apply list_elem_of_filter in Hin as [Hq _].
  apply qualifica_inv in Hq as (_ & _ & Hall).
  rewrite Forall_forall in Hall. specialize (Hall _ Hdup).
  assert (calcola_similarita (uc_lower f) (uc_lower f) = 1%Q) as Hone.
  { destruct (uc_lower f) as [| c0 s] eqn:E; [done |].
    simpl. apply ratio_self. }
  rewrite Hone in Hall. by vm_compute in Hall.
Qed.

End Supplements.

Lemma merge_keeps_native_text_witness :
  exists aggiunta,
    unisci_testo_pagina (U := Basic.tables) pagina_nativa pagina_ocr 1
    = pagina_nativa ++ aggiunta.
Proof.
  apply (merge_keeps_native_text (U := Basic.tables)). vm_compute. lia.
Defined.

Lemma unique_sentences_exclude_duplicates_witness :
  u "The derivative of f is continuous"
  ∉ trova_frasi_uniche (U := Basic.tables) pagina_nativa pagina_ocr.
Proof.
  apply (unique_sentences_exclude_duplicates (U := Basic.tables));
    [discriminate | vm_compute; discriminate |].
  apply (bool_decide_unpack _). vm_compute. reflexivity.
Defined.


(** ** The characters of a sanitized text *)

Section Characters.

Context {U : Unicode}.

Implicit Types (s t : str) (c : N) (P : N -> Prop).

Lemma Forall_sub_class P (cls : N -> bool) s :
  Forall P s -> Forall (fun c => P c /\ cls c = false) (Re.sub_class cls s).
Proof.
  intros Hs. apply Forall_forall. intros c [Hc Hin]%list_elem_of_filter.
  rewrite Forall_forall in Hs. by split; [apply Hs |].
Qed.

Lemma Forall_split_char_go P (sep : N) s : forall cur,
  Forall P cur -> Forall P s -> Forall (Forall P) (split_char_go sep cur s).
Proof.
  induction s as [| c s IH]; intros cur Hcur Hs; simpl.
  - by constructor.
  - apply Forall_cons in Hs as [Hc Hs]. destruct (c =? sep).
    + constructor; [done |]. by apply IH.
    + apply IH; [| done]. apply Forall_app. by split; [| constructor].
Qed.

Lemma Forall_pulisci_linea P (linee_pulite : list str) (linea : str) :
  Forall (Forall P) linee_pulite -> Forall P linea ->
  Forall (Forall P) (pulisci_linea linee_pulite linea).
Proof.
  intros Hacc Hl. unfold pulisci_linea.
  repeat (case_match; [done |]).
  apply Forall_app. split; [done |]. constructor; [| done].
  by apply Forall_strip.
Qed.

Lemma Forall_pulisci_linee P (linee : list str) : forall linee_pulite,
  Forall (Forall P) linee_pulite -> Forall (Forall P) linee ->
  Forall (Forall P) (foldl pulisci_linea linee_pulite linee).
Proof.
  induction linee as [| linea linee IH]; intros acc Hacc Hl; simpl; [done |].
  apply Forall_cons in Hl as [Hlinea Hl].
  apply IH; [| done]. by apply Forall_pulisci_linea.
Qed.

Lemma Forall_join P (sep : str) (parts : list str) :
  Forall P sep -> Forall (Forall P) parts -> Forall P (join sep parts).
Proof.
  intros Hsep. induction 1 as [| p parts Hp Hparts IH]; [done |].
  destruct parts as [| q parts]; [done |].
  change (join sep (p :: q :: parts)) with (p ++ sep ++ join sep (q :: parts)).
  rewrite !Forall_app. auto.
Qed.

Lemma Forall_sub_spaces_go P s : forall in_run,
  Forall P s ->
  Forall (fun c => c = 32 \/ (P c /\ isspace c = false))
         (Re.sub_spaces_go in_run s).
Proof.
  induction s as [| c s IH]; intros in_run Hs; simpl; [done |].
  apply Forall_cons in Hs as [Hc Hs].
  destruct (isspace c) eqn:Ec.
  - destruct in_run; [by apply IH |]. constructor; [by left | by apply IH].
  - constructor; [by right | by apply IH].
Qed.

Lemma Forall_sub_spaces_before_go P (cls : N -> bool) s : forall ws,
  Forall P ws -> Forall P s ->
  Forall P (Re.sub_spaces_before_go cls ws s).
Proof.
  induction s as [| c s IH]; intros ws Hws Hs; simpl; [done |].
  apply Forall_cons in Hs as [Hc Hs].
  destruct (isspace c).
  - apply IH; [| done]. apply Forall_app. by split; [| constructor].
  - destruct (cls c).
    + constructor; [done |]. by apply IH.
    + apply Forall_app. split; [done |]. constructor; [done |]. by apply IH.
Qed.

Lemma Forall_sub_insert_space P (cls1 cls2 : N -> bool) s :
  P 32 ->
  (Forall P s -> Forall P (Re.sub_insert_space cls1 cls2 s))
  /\ forall c, P c -> Forall P s ->
       Forall P (Re.sub_insert_space cls1 cls2 (c :: s)).
Proof.
  intros Hsp. induction s as [| c2 s [IH1 IH2]].
  - split; [done |]. intros c Hc _. by constructor.
  - split.
    + intros [Hc2 Hs]%Forall_cons. by apply IH2.
    + intros c Hc [Hc2 Hs]%Forall_cons.
      change (Forall P (if cls1 c && cls2 c2
                        then c :: 32 :: c2 :: Re.sub_insert_space cls1 cls2 s
                        else c :: Re.sub_insert_space cls1 cls2 (c2 :: s))).
      destruct (cls1 c && cls2 c2).
      * repeat (constructor; [done |]). by apply IH1.
      * constructor; [done |]. by apply IH2.
Qed.

Lemma Forall_sub_spaces_after_go P (cls : N -> bool) s : forall after,
  Forall P s -> Forall P (Re.sub_spaces_after_go cls after s).
Proof.
  induction s as [| c s IH]; intros after Hs; simpl; [done |].
  apply Forall_cons in Hs as [Hc Hs].
  destruct (after && isspace c); [by apply IH |].
  constructor; [done |]. by apply IH.
Qed.

Lemma pulisci_testo_ocr_caratteri (testo : str) :
  Forall (carattere_pulito testo) (pulisci_testo_ocr testo).
Proof.
  unfold pulisci_testo_ocr. destruct testo as [| c0 testo0]; [done |].
  set (testo := c0 :: testo0). cbv zeta.
  set (t1 := Re.sub_class (fun c => char_in c decorativi) testo).
  set (l2 := foldl pulisci_linea [] (split_char 10 t1)).
  set (t3 := Re.sub_spaces (join (u " ") l2)).
  set (P1 := fun c => c ∈ testo /\ char_in c decorativi = false).
  set (P2 := fun c => c = 32 \/ P1 c).
  set (P3 := fun c => c = 32 \/ (P2 c /\ isspace c = false)).
  assert (Forall P1 t1) as H1.
  { apply (Forall_sub_class (fun c => c ∈ testo)). by apply Forall_forall. }
  assert (Forall (Forall P2) l2) as H2.
  { apply Forall_pulisci_linee; [done |].
    apply Forall_split_char_go; [done |].
    eapply Forall_impl; [exact H1 |]. intros c Hc. by right. }
  assert (Forall P3 t3) as H3.
  { apply Forall_sub_spaces_go. apply Forall_join; [| done].
    constructor; [by left | done]. }
  assert (P3 32) as Hsp by (by left).
  apply Forall_strip.
  eapply Forall_impl.
  - apply (Forall_sub_class P3).
    apply Forall_sub_spaces_before_go; [done |].
    apply Forall_sub_spaces_after_go.
    apply Forall_sub_insert_space; [done |].
    apply Forall_sub_spaces_before_go; [done |]. exact H3.
  - intros c [[-> | [[-> | [Hin Hd]] Hs]] Hctl]; [by left | done |].
    right. repeat split; done.
Qed.

Lemma pulisci_testo_ocr_strip (testo : str) :
  strip (pulisci_testo_ocr testo) = pulisci_testo_ocr testo.
Proof.
  unfold pulisci_testo_ocr. destruct testo; [done |]. apply strip_idem.
Qed.

Lemma strip_blank s : Forall (fun c => isspace c = true) s -> strip s = [].
Proof. intros Hs. by apply strip_nil, senza_spazi_nil. Qed.

Lemma pulisci_linee_blank (linee : list str) :
  Forall (Forall (fun c => isspace c = true)) linee ->
  foldl pulisci_linea [] linee = [].
Proof.
  induction 1 as [| linea linee Hl Hall IH]; [done |]. simpl.
  unfold pulisci_linea at 2. by rewrite (strip_blank linea Hl).
Qed.

(** X11: a sanitized text is one trimmed line of clean characters:
    trimming leaves it unchanged, and each of its characters is a
    space or a character of the raw text that is neither white space
    (so no line feed or tab is left), nor a decorative glyph, nor a
    control character. *)
Theorem sanitize_gives_clean_characters (testo : str) :
  strip (pulisci_testo_ocr testo) = pulisci_testo_ocr testo
  /\ Forall (carattere_pulito testo) (pulisci_testo_ocr testo).
Proof.
  split; [apply pulisci_testo_ocr_strip | apply pulisci_testo_ocr_caratteri].
Qed.

(** X12: a raw text made only of white space and decorative glyphs is
    sanitized to the empty string. *)
Theorem sanitize_blank_is_empty (testo : str) :
  Forall (fun c => isspace c = true \/ char_in c decorativi = true) testo ->
  pulisci_testo_ocr testo = [].
Proof.
  intros Hblank. unfold pulisci_testo_ocr. destruct testo as [| c0 testo0];
    [done |].
  set (testo := c0 :: testo0) in *. cbv zeta.
  assert (Forall (fun c => isspace c = true)
                 (Re.sub_class (fun c => char_in c decorativi) testo)) as H1.
  { eapply Forall_impl; [apply (Forall_sub_class _ _ _ Hblank) |].
    intros c [[Hs | Hd] Hnd]; [done | congruence]. }
  rewrite pulisci_linee_blank; [done |].
  by apply Forall_split_char_go.
Qed.

End Characters.

Lemma sanitize_blank_is_empty_witness :
  pulisci_testo_ocr (U := Basic.tables) (u " •" ++ [10; 9] ++ u "★ ") = [].
Proof.
  apply (sanitize_blank_is_empty (U := Basic.tables)).
  apply (bool_decide_unpack _). vm_compute. reflexivity.
Defined.

(** ** Valid sentences *)

Section Valid.

Context {U : Unicode}.

Implicit Types (s pre post : str) (c : N) (cls : N -> bool).

(** The scanner for a repeated character finds nothing in a text
    without any character of the class. *)
Lemma search_repeat_go_none cls (n : nat) s : forall prev k,
  Forall (fun c => cls c = false) s ->
  Re.search_repeat_go cls n prev k s = false.
Proof.
  induction s as [| c s IH]; intros prev k Hs; simpl; [done |].
  apply Forall_cons in Hs as [-> Hs]. by apply IH.
Qed.

(** It finds a run that the state and the text make up together. *)
Lemma search_repeat_go_run cls (n : nat) c (m : nat) post : forall prev k,
  cls c = true -> (1 <= m)%nat ->
  ((if bool_decide (prev = Some c) then k else 0) + m >= n)%nat ->
  Re.search_repeat_go cls n prev k (replicate m c ++ post) = true.
Proof.
  induction m as [| m IH]; intros prev k Hc Hm Hn; [lia |].
  simpl. rewrite Hc.
  set (k' := if bool_decide (prev = Some c) then S k else 1%nat).
  assert (k' = S (if bool_decide (prev = Some c) then k else 0)%nat) as Hk'
    by (subst k'; by destruct (bool_decide _)).
  destruct (n <=? k')%nat eqn:En; [done |]. simpl.
  apply Nat.leb_gt in En.
  apply IH; [done | lia |].
  rewrite bool_decide_eq_true_2 by done. lia.
Qed.

Lemma search_repeat_go_complete cls (n : nat) c post pre : forall prev k,
  cls c = true -> (1 <= n)%nat ->
  Re.search_repeat_go cls n prev k (pre ++ replicate n c ++ post) = true.
Proof.
  induction pre as [| c' pre IH]; intros prev k Hc Hn.
  - apply search_repeat_go_run; [done | done |].
    destruct (bool_decide _); lia.
  - simpl. destruct (cls c'); [| by apply IH].
    rewrite IH by done. apply orb_true_r.
Qed.

Lemma sum_list_validi (valido : N -> bool) s :
  Forall (fun c => valido c = true) s ->
  sum_list ((fun c => Nat.b2n (valido c)) <$> s) = length s.
Proof.
  induction 1 as [| c s Hc Hs IH]; [done |].
  rewrite fmap_cons. cbn [sum_list sum_list_with]. by rewrite Hc, IH.
Qed.

Lemma is_frase_valida_parole s :
  is_frase_valida s = true -> (2 <= num_parole s)%Z.
Proof.
  unfold is_frase_valida, num_parole.
  destruct (length (split s) <? 2)%nat eqn:E; [done |].
  apply Nat.ltb_ge in E. lia.
Qed.

(** X13: a text of at least two words that is made only of letters,
    digits and white space is a valid sentence. *)
Theorem plain_sentence_is_valid (frase : str) :
  (2 <= num_parole frase)%Z ->
  Forall (fun c => uc_isalnum c || isspace c = true) frase ->
  is_frase_valida frase = true.
Proof.
  intros Hparole Hplain. unfold is_frase_valida.
  assert ((length (split frase) <? 2)%nat = false) as ->
    by (apply Nat.ltb_ge; unfold num_parole in Hparole; lia).
  rewrite sum_list_validi.
  2: { eapply Forall_impl; [exact Hplain |]. simpl. by intros c ->. }
  assert (frase <> []) as Hne by (intros ->; by vm_compute in Hparole).
  assert (float_lt (Z.of_nat (length frase) # Pos.of_nat (length frase))
                   (6 # 10) = false) as ->.
  { apply float_lt_false. unfold Qle. cbn [Qnum Qden].
    assert (length frase <> 0)%nat as Hlen by (by destruct frase).
    rewrite <- (positive_nat_Z (Pos.of_nat (length frase))).
    rewrite Nat2Pos.id by done. lia. }
  rewrite andb_false_r.
  unfold Re.search_repeat. rewrite search_repeat_go_none; [done |].
  eapply Forall_impl; [exact Hplain |]. simpl. intros c Hc.
  unfold re_strano, re_word. apply negb_false_iff.
  apply orb_true_iff in Hc as [-> | ->]; [done | apply orb_true_r].
Qed.

(** X14: a valid sentence has at least two words and never holds five
    copies in a row of a character that is neither a word character nor
    white space. *)
Theorem valid_sentence_has_no_repeated_symbol (frase pre post : str) (c : N) :
  is_frase_valida frase = true ->
  (2 <= num_parole frase)%Z
  /\ (re_strano c = true -> frase <> pre ++ replicate 5 c ++ post).
Proof.
  intros Hvalid. split; [by apply is_frase_valida_parole |].
  intros Hc ->. unfold is_frase_valida in Hvalid.
  unfold Re.search_repeat in Hvalid.
  rewrite search_repeat_go_complete in Hvalid by (done || lia).
  by repeat case_match.
Qed.

End Valid.

Lemma plain_sentence_is_valid_witness :
  is_frase_valida (U := Basic.tables) (u "Completely different sentence here")
  = true.
Proof.
  apply (plain_sentence_is_valid (U := Basic.tables)).
  - vm_compute. discriminate.
  - apply (bool_decide_unpack _). vm_compute. reflexivity.
Defined.

Lemma valid_sentence_has_no_repeated_symbol_witness :
  (2 <= num_parole (u "Completely different sentence here"))%Z
  /\ (re_strano (U := Basic.tables) 45 = true ->
      u "Completely different sentence here"
      <> u "Completely" ++ replicate 5 45 ++ u "here").
Proof.
  apply (valid_sentence_has_no_repeated_symbol (U := Basic.tables)).
  vm_compute. reflexivity.
Defined.

(** ** Documents with one source of text *)

Section OneSource.

Context {U : Unicode}.

Implicit Types (testi : list str) (t : str).

Lemma fmap_pagina {A} (g : str -> A) testi :
  (fun i => g (pagina testi i)) <$> seq 0 (length testi) = g <$> testi.
Proof.
  induction testi as [| t testi IH] using rev_ind; [done |].
  rewrite length_app, Nat.add_1_r, seq_S, !fmap_app. simpl. f_equal.
  - rewrite <- IH. apply list_fmap_ext. intros i j Hj.
    apply lookup_seq in Hj as [-> Hlt]. unfold pagina.
    by rewrite lookup_app_l.
  - unfold pagina. rewrite lookup_app_r by lia.
    by rewrite Nat.sub_diag.
Qed.

Lemma unisci_testo_pagina_senza_ocr t (pag : nat) :
  unisci_testo_pagina t [] pag
  = if decide (10 <= length (strip t))%nat then t else [].
Proof.
  unfold unisci_testo_pagina.
  destruct (decide (10 <= length (strip t))%nat) as [Hlong | Hshort].
  - assert (t <> []) as Hne by (intros ->; simpl in Hlong; lia).
    by rewrite (troppo_corto_false t Hne Hlong).
  - by rewrite (troppo_corto_true t) by (right; lia).
Qed.

(** Without OCR text, a page is kept when its native text is long
    enough. *)
Lemma unisci_pagine_solo_nativo testi :
  unisci_pagine testi []
  = join (u " ") (filter (fun t => (10 <= length (strip t))%nat) testi).
Proof.
  rewrite unisci_pagine_assemble. unfold assemble.
  rewrite Nat.max_0_r. f_equal.
  rewrite (list_fmap_ext _
             (fun i => (fun t => unisci_testo_pagina t [] 0) (pagina testi i))
             (seq 0 (length testi))) by done.
  rewrite (fmap_pagina (fun t => unisci_testo_pagina t [] 0)).
  induction testi as [| t testi IH]; [done |].
  rewrite fmap_cons, !filter_cons, IH, unisci_testo_pagina_senza_ocr.
  destruct (decide (10 <= length (strip t))%nat) as [Hlong | Hshort].
  - assert (t <> []) as Hne by (intros ->; simpl in Hlong; lia).
    by rewrite decide_True.
  - by rewrite decide_False by (by intros ?).
Qed.

(** Without native text, a page is kept when its OCR text is not
    empty. *)
Lemma unisci_pagine_solo_ocr testi :
  unisci_pagine [] testi = join (u " ") (filter (fun t => t <> []) testi).
Proof.
  rewrite unisci_pagine_assemble. unfold assemble.
  rewrite Nat.max_0_l. f_equal. f_equal.
  rewrite (list_fmap_ext _
             (fun i => (fun t => unisci_testo_pagina [] t 0) (pagina testi i))
             (seq 0 (length testi))) by done.
  rewrite (fmap_pagina (fun t => unisci_testo_pagina [] t 0)).
  rewrite <- (list_fmap_id testi) at 2. apply list_fmap_ext.
  intros i t _. by destruct t.
Qed.

Lemma filter_fmap_pulisci (pagine : list str) :
  filter (fun t => (10 <= length (strip t))%nat) (pulisci_testo_ocr <$> pagine)
  = filter (fun t => (10 <= length t)%nat) (pulisci_testo_ocr <$> pagine).
Proof.
  induction pagine as [| p pagine IH]; [done |].
  rewrite fmap_cons, !filter_cons, IH.
  by rewrite pulisci_testo_ocr_strip.
Qed.

(** X15: when the OCR of a document fails, its text is made of the
    sanitized native pages that have at least 10 characters, joined by
    one space. *)
Theorem document_without_ocr (pdf : Pdf) (pagine : list str) :
  pdf_ocr pdf = None -> pdf_pagine pdf = Some pagine ->
  estrai_testo_completo_pdf pdf
  = join (u " ")
      (filter (fun t => (10 <= length t)%nat) (pulisci_testo_ocr <$> pagine)).
Proof.
  intros Hocr Hnat.
  unfold estrai_testo_completo_pdf, estrai_testo_per_pagina_pdf,
    estrai_testo_ocr_per_pagina.
  rewrite Hocr, Hnat, unisci_pagine_solo_nativo.
  by rewrite filter_fmap_pulisci.
Qed.

(** X16: when the native extraction of a document fails, its text is
    made of the sanitized OCR pages that are not empty, joined by one
    space, however short they are. *)
Theorem document_without_native_text (pdf : Pdf) (pagine : list str) :
  pdf_pagine pdf = None -> pdf_ocr pdf = Some pagine ->
  estrai_testo_completo_pdf pdf
  = join (u " ") (filter (fun t => t <> []) (pulisci_testo_ocr <$> pagine)).
Proof.
  intros Hnat Hocr.
  unfold estrai_testo_completo_pdf, estrai_testo_per_pagina_pdf,
    estrai_testo_ocr_per_pagina.
  by rewrite Hocr, Hnat, unisci_pagine_solo_ocr.
Qed.

End OneSource.

Lemma document_without_ocr_witness :
  estrai_testo_completo_pdf (U := Basic.tables)
    (mkPdf (u "a.pdf") (u "a") (Some [scenario_raw; u "Pag. 3"]) None)
  = u "Pag. 3 This is real content about α and β coefficients.".
Proof.
  rewrite (document_without_ocr (U := Basic.tables) _
             [scenario_raw; u "Pag. 3"]);
    [vm_compute; reflexivity | reflexivity | reflexivity].
Defined.

Lemma document_without_native_text_witness :
  estrai_testo_completo_pdf (U := Basic.tables)
    (mkPdf (u "a.pdf") (u "a") None (Some [u "Pag. 3"; u " "; scenario_ocr]))
  = u "Pag. 3 The derivative of f is continuous".
Proof.
  rewrite (document_without_native_text (U := Basic.tables) _
             [u "Pag. 3"; u " "; scenario_ocr]);
    [vm_compute; reflexivity | reflexivity | reflexivity].
Defined.

(** ** The natural order of the files *)

Section Natural.

Context {U : Unicode}.

Implicit Types (s t : str) (x y z : chiave) (k : list chiave)
  (e : list chiave * Pdf) (l : list (list chiave * Pdf)).

Lemma str_lt_irrefl s : str_lt s s = false.
Proof.
  induction s as [| a s IH]; [done |]. simpl.
  by rewrite N.ltb_irrefl, N.eqb_refl, IH.
Qed.

Lemma str_lt_trans s : forall t r,
  str_lt s t = true -> str_lt t r = true -> str_lt s r = true.
Proof.
  induction s as [| a s IH]; intros [| b t] [| c r]; simpl; try done.
  rewrite !orb_true_iff, !andb_true_iff, !N.ltb_lt, !N.eqb_eq.
  intros [Hab | [-> Hst]] [Hbc | [<- Htr]].
  - left. lia.
  - by left.
  - by left.
  - right. split; [done |]. by apply (IH t).
Qed.

Lemma chiave_elem_eq_spec x y : chiave_elem_eq x y = true <-> x = y.
Proof.
  destruct x as [s | m], y as [t | n]; simpl; try (split; done).
  - rewrite bool_decide_eq_true. split; [by intros -> | by intros [= ->]].
  - rewrite Z.eqb_eq. split; [by intros -> | by intros [= ->]].
Qed.

Lemma chiave_elem_lt_irrefl x : chiave_elem_lt x x = false.
Proof. destruct x; simpl; [apply str_lt_irrefl | apply Z.ltb_irrefl]. Qed.

Lemma chiave_elem_lt_trans x y z :
  chiave_elem_lt x y = true -> chiave_elem_lt y z = true ->
  chiave_elem_lt x z = true.
Proof.
  destruct x as [s | m], y as [t | n], z as [r | p]; simpl; try done.
  - apply str_lt_trans.
  - rewrite !Z.ltb_lt. lia.
Qed.

Lemma chiave_lt_irrefl k : chiave_lt k k = false.
Proof.
  induction k as [| x k IH]; [done |]. simpl.
  by rewrite (proj2 (chiave_elem_eq_spec x x) eq_refl).
Qed.

Lemma chiave_lt_trans k1 : forall k2 k3,
  chiave_lt k1 k2 = true -> chiave_lt k2 k3 = true ->
  chiave_lt k1 k3 = true.
Proof.
  induction k1 as [| x k1 IH]; intros [| y k2] [| z k3]; simpl; try done.
  destruct (chiave_elem_eq x y) eqn:Exy.
  - apply chiave_elem_eq_spec in Exy as ->.
    destruct (chiave_elem_eq y z); [apply IH | done].
  - destruct (chiave_elem_eq y z) eqn:Eyz.
    + apply chiave_elem_eq_spec in Eyz as ->. by rewrite Exy.
    + intros Hxy Hyz.
      pose proof (chiave_elem_lt_trans _ _ _ Hxy Hyz) as Hxz.
      destruct (chiave_elem_eq x z) eqn:Exz; [| done].
      apply chiave_elem_eq_spec in Exz as ->.
      pose proof (chiave_elem_lt_trans _ _ _ Hyz Hxy) as Hyy.
      by rewrite chiave_elem_lt_irrefl in Hyy.
Qed.

Lemma chiave_lt_asym k1 k2 :
  chiave_lt k1 k2 = true -> chiave_lt k2 k1 = false.
Proof.
  intros H12. destruct (chiave_lt k2 k1) eqn:H21; [| done].
  pose proof (chiave_lt_trans _ _ _ H12 H21) as H11.
  by rewrite chiave_lt_irrefl in H11.
Qed.

Lemma inserisci_perm e l : inserisci e l ≡ₚ e :: l.
Proof.
  induction l as [| y l IH]; [done |]. simpl.
  destruct (chiave_lt e.1 y.1); [done |].
  rewrite IH. apply Permutation_swap.
Qed.

Lemma inserisci_fold_perm (chiavi : list (list chiave * Pdf)) : forall l,
  foldl (fun l e => inserisci e l) l chiavi ≡ₚ l ++ chiavi.
Proof.
  induction chiavi as [| e chiavi IH]; intros l; simpl.
  - by rewrite app_nil_r.
  - rewrite IH, inserisci_perm. simpl. apply Permutation_middle.
Qed.

Lemma inserisci_sorted e l :
  StronglySorted (fun e1 e2 => chiave_lt e2.1 e1.1 = false) l ->
  StronglySorted (fun e1 e2 => chiave_lt e2.1 e1.1 = false) (inserisci e l).
Proof.
  induction 1 as [| y l Hl IH Hy]; simpl.
  - by repeat constructor.
  - destruct (chiave_lt e.1 y.1) eqn:Hlt.
    + constructor; [by constructor |].
      constructor; [by apply chiave_lt_asym |].
      eapply Forall_impl; [exact Hy |]. simpl. intros z Hz.
      destruct (chiave_lt z.1 e.1) eqn:Hze; [| done].
      by rewrite (chiave_lt_trans _ _ _ Hze Hlt) in Hz.
    + constructor; [done |].
      rewrite (inserisci_perm e l). by constructor.
Qed.

Lemma inserisci_fold_sorted (chiavi : list (list chiave * Pdf)) : forall l,
  StronglySorted (fun e1 e2 => chiave_lt e2.1 e1.1 = false) l ->
  StronglySorted (fun e1 e2 => chiave_lt e2.1 e1.1 = false)
                 (foldl (fun l e => inserisci e l) l chiavi).
Proof.
  induction chiavi as [| e chiavi IH]; intros l Hl; simpl; [done |].
  by apply IH, inserisci_sorted.
Qed.

Lemma StronglySorted_lookup {A} (R : A -> A -> Prop) (l : list A) :
  StronglySorted R l ->
  forall i j a b, (i < j)%nat -> l !! i = Some a -> l !! j = Some b -> R a b.
Proof.
  induction 1 as [| a0 l Hl IH Ha]; intros i j a b Hij Hi Hj; [done |].
  destruct j as [| j]; [lia |]. destruct i as [| i].
  - simpl in Hi. injection Hi as <-.
    rewrite Forall_forall in Ha. apply Ha.
    apply (list_elem_of_lookup_2 l j). exact Hj.
  - apply (IH i j); [lia | done | done].
Qed.

(** The keys computed for the files, when none of them fails. *)
Lemma chiavi_snd (files : list Pdf) (chiavi : list (list chiave * Pdf)) :
  mapM (fun pdf => (fun k => (k, pdf)) <$> chiave_naturale pdf) files
  = Some chiavi ->
  snd <$> chiavi = files
  /\ Forall (fun e => chiave_naturale e.2 = Some e.1) chiavi.
Proof.
  intros Hm%mapM_Some_1.
  induction Hm as [| pdf e files chiavi He Hm [IH1 IH2]]; [done |].
  apply fmap_Some in He as (k & Hk & ->). split.
  - rewrite fmap_cons. by rewrite IH1.
  - by constructor.
Qed.

Lemma ordina_file_naturalmente_perm (files ordinati : list Pdf) :
  ordina_file_naturalmente files = Some ordinati -> ordinati ≡ₚ files.
Proof.
  unfold ordina_file_naturalmente.
  destruct (mapM _ files) as [chiavi |] eqn:Hm; [| done].
  intros [= <-]. apply chiavi_snd in Hm as [<- _].
  apply fmap_Permutation. apply (inserisci_fold_perm chiavi []).
Qed.

(** X17: when the natural sort returns, its result holds the same files
    as its argument, each as many times. *)
Theorem natural_sort_is_a_permutation (files ordinati : list Pdf) :
  ordina_file_naturalmente files = Some ordinati -> ordinati ≡ₚ files.
Proof. apply ordina_file_naturalmente_perm. Qed.

Lemma ordina_file_naturalmente_sorted (files ordinati : list Pdf) (i j : nat)
    (p q : Pdf) :
  ordina_file_naturalmente files = Some ordinati ->
  (i < j)%nat -> ordinati !! i = Some p -> ordinati !! j = Some q ->
  exists kp kq, chiave_naturale p = Some kp /\ chiave_naturale q = Some kq
    /\ chiave_lt kq kp = false.
Proof.
  unfold ordina_file_naturalmente.
  destruct (mapM _ files) as [chiavi |] eqn:Hm; [| done].
  intros [= <-] Hij Hp Hq. apply chiavi_snd in Hm as [_ Hkeys].
  set (l := foldl (fun l e => inserisci e l) [] chiavi) in *.
  assert (Forall (fun e => chiave_naturale e.2 = Some e.1) l) as Hl.
  { subst l. by rewrite (inserisci_fold_perm chiavi []). }
  apply list_lookup_fmap_Some in Hp as (e1 & -> & He1).
  apply list_lookup_fmap_Some in Hq as (e2 & -> & He2).
  rewrite Forall_lookup in Hl.
  exists e1.1, e2.1. split; [by apply (Hl i) |]. split; [by apply (Hl j) |].
  apply (StronglySorted_lookup
           (fun e1 e2 => chiave_lt e2.1 e1.1 = false) l) with i j; try done.
  subst l. apply inserisci_fold_sorted. constructor.
Qed.

(** X18: when the natural sort returns, its result is in the order of
    the keys: no file comes before a file with a smaller key. *)
Theorem natural_sort_is_sorted (files ordinati : list Pdf) (i j : nat)
    (p q : Pdf) :
  ordina_file_naturalmente files = Some ordinati ->
  (i < j)%nat -> ordinati !! i = Some p -> ordinati !! j = Some q ->
  exists kp kq, chiave_naturale p = Some kp /\ chiave_naturale q = Some kq
    /\ chiave_lt kq kp = false.
Proof. apply ordina_file_naturalmente_sorted. Qed.

Lemma chiave_di_some (pezzi : list str) :
  alternating uc_isdecimal pezzi ->
  Forall (Forall (fun c => uc_isdigit c = true -> uc_isdecimal c = true))
         pezzi ->
  is_Some (chiave_di pezzi).
Proof.
  assert (forall t,
            Forall (fun c => uc_isdecimal c = false) t ->
            Forall (fun c => uc_isdigit c = true -> uc_isdecimal c = true) t ->
            negb (bool_decide (t = [])) && forallb uc_isdigit t = false)
    as Htesto.
  { intros [| c t] Hnd Hd; [done |].
    apply Forall_inv in Hnd. apply Forall_inv in Hd. simpl.
    destruct (uc_isdigit c); [| done]. by rewrite Hd in Hnd. }
  induction 1 as [t Ht | t d l Ht Hd Hd' Hl Halt IH]; intros Hall.
  - apply Forall_inv in Hall. simpl. by rewrite Htesto.
  - apply Forall_cons in Hall as [Hdt Hall].
    apply Forall_cons in Hall as [_ Hall].
    cbn [chiave_di]. rewrite Htesto by done.
    destruct (IH Hall) as [k ->]. done.
Qed.

(** X19: the natural sort cannot fail when every character of the
    lower-case file names that [str.isdigit] accepts is a decimal
    digit of the class [\d]. *)
Theorem natural_sort_succeeds (files : list Pdf) :
  (forall pdf c, pdf ∈ files -> c ∈ uc_lower (pdf_name pdf) ->
     uc_isdigit c = true -> uc_isdecimal c = true) ->
  exists ordinati, ordina_file_naturalmente files = Some ordinati.
Proof.
  intros Hnames. unfold ordina_file_naturalmente.
  destruct (mapM_is_Some_2
              (fun pdf => (fun k => (k, pdf)) <$> chiave_naturale pdf) files)
    as [chiavi ->]; [| by eexists].
  apply Forall_forall. intros pdf Hpdf. simpl.
  apply fmap_is_Some. unfold chiave_naturale.
  apply chiave_di_some.
  - by apply split_capture_go_alternating.
  - apply Forall_forall. intros pezzo Hpezzo.
    apply Forall_forall. intros c Hc.
    apply (Hnames pdf c Hpdf).
    pose proof (split_capture_go_concat uc_isdecimal
                  (uc_lower (pdf_name pdf)) [] []) as Hconcat.
    simpl in Hconcat. rewrite <- Hconcat.
    apply list_elem_of_In, in_concat. exists pezzo.
    by rewrite <- !list_elem_of_In.
Qed.

(** *** Numbers compare by value *)

Lemma split_capture_go_text (cls : N -> bool) (p : str) :
  Forall (fun c => cls c = false) p ->
  forall text s,
  Re.split_capture_go cls text [] (p ++ s)
  = Re.split_capture_go cls (text ++ p) [] s.
Proof.
  induction 1 as [| c p Hc Hp IH]; intros text s; simpl.
  - by rewrite app_nil_r.
  - rewrite Hc, IH. by rewrite <- app_assoc.
Qed.

Lemma split_capture_go_run (cls : N -> bool) (d : str) :
  Forall (fun c => cls c = true) d ->
  forall text delim s,
  Re.split_capture_go cls text delim (d ++ s)
  = Re.split_capture_go cls text (delim ++ d) s.
Proof.
  induction 1 as [| c d Hc Hd IH]; intros text delim s; simpl.
  - by rewrite app_nil_r.
  - rewrite Hc, IH. by rewrite <- app_assoc.
Qed.

(** A name made of a text without digits, a number and a rest gives
    the text and the number as its first two pieces. *)
Lemma split_capture_numero (cls : N -> bool) (p d s : str) :
  Forall (fun c => cls c = false) p ->
  d <> [] -> Forall (fun c => cls c = true) d ->
  inizia_fuori cls s ->
  exists pezzi, Re.split_capture cls (p ++ d ++ s) = p :: d :: pezzi.
Proof.
  intros Hp Hne Hd Hs. unfold Re.split_capture.
  rewrite split_capture_go_text, split_capture_go_run by done.
  rewrite !app_nil_l.
  destruct s as [| c s]; simpl.
  - destruct d; [done |]. by eexists.
  - simpl in Hs. rewrite Hs. destruct d; [done |]. by eexists.
Qed.

Lemma chiave_di_numero (p d : str) (pezzi : list str) (k : list chiave) :
  chiave_di (p :: d :: pezzi) = Some k ->
  exists k', k = KStr p :: KNum (int_of d) :: k'.
Proof.
  cbn [chiave_di]. destruct (_ && _); [done |].
  destruct (chiave_di pezzi) as [k' |]; [| done].
  intros [= <-]. by eexists.
Qed.

Lemma chiave_naturale_numero (pdf : Pdf) (p d s : str) (k : list chiave) :
  uc_lower (pdf_name pdf) = p ++ d ++ s ->
  Forall (fun c => uc_isdecimal c = false) p ->
  d <> [] -> Forall (fun c => uc_isdecimal c = true) d ->
  inizia_fuori uc_isdecimal s ->
  chiave_naturale pdf = Some k ->
  exists k', k = KStr p :: KNum (int_of d) :: k'.
Proof.
  intros Hname Hp Hne Hd Hs. unfold chiave_naturale. rewrite Hname.
  destruct (split_capture_numero uc_isdecimal p d s) as [pezzi ->]; try done.
  apply chiave_di_numero.
Qed.

(** X27: numbers in the names compare by their value: of two files
    whose lower-case names start with the same text without digits,
    followed by a number, the one with the smaller number comes first
    in the result of the natural sort. *)
Theorem smaller_number_sorts_first (files ordinati : list Pdf)
    (f1 f2 : Pdf) (p d1 d2 s1 s2 : str) (i j : nat) :
  ordina_file_naturalmente files = Some ordinati ->
  uc_lower (pdf_name f1) = p ++ d1 ++ s1 ->
  uc_lower (pdf_name f2) = p ++ d2 ++ s2 ->
  Forall (fun c => uc_isdecimal c = false) p ->
  d1 <> [] -> Forall (fun c => uc_isdecimal c = true) d1 ->
  d2 <> [] -> Forall (fun c => uc_isdecimal c = true) d2 ->
  inizia_fuori uc_isdecimal s1 -> inizia_fuori uc_isdecimal s2 ->
  (int_of d1 < int_of d2)%Z ->
  ordinati !! i = Some f1 -> ordinati !! j = Some f2 ->
  (i < j)%nat.
Proof.
  intros Hsort Hn1 Hn2 Hp Hne1 Hd1 Hne2 Hd2 Hs1 Hs2 Hlt Hi Hj.
  destruct (decide (i < j)%nat) as [Hij | Hij]; [done |]. exfalso.
  destruct (decide (j = i)) as [-> | Hne].
  - rewrite Hi in Hj. injection Hj as <-.
    destruct (split_capture_numero uc_isdecimal p d1 s1) as [pezzi1 E1];
      try done.
    destruct (split_capture_numero uc_isdecimal p d2 s2) as [pezzi2 E2];
      try done.
    rewrite <- Hn1 in E1. rewrite <- Hn2, E1 in E2.
    injection E2 as -> _. lia.
  - destruct (ordina_file_naturalmente_sorted files ordinati j i f2 f1)
      as (k2 & k1 & Hk2 & Hk1 & Hord); [done | lia | done | done |].
    destruct (chiave_naturale_numero f1 p d1 s1 k1) as [k1' ->]; try done.
    destruct (chiave_naturale_numero f2 p d2 s2 k2) as [k2' ->]; try done.
    cbn [chiave_lt chiave_elem_eq chiave_elem_lt] in Hord.
    rewrite bool_decide_eq_true_2 in Hord by done.
    assert ((int_of d1 =? int_of d2)%Z = false) as Hneq
      by (apply Z.eqb_neq; lia).
    rewrite Hneq in Hord. apply Z.ltb_ge in Hord. lia.
Qed.

End Natural.

Lemma natural_sort_is_a_permutation_witness :
  [pdf_a2; pdf_a10] ≡ₚ cartella_slide.
Proof.
  apply (natural_sort_is_a_permutation (U := Basic.tables)).
  vm_compute. reflexivity.
Defined.

Lemma natural_sort_is_sorted_witness :
  exists kp kq,
    chiave_naturale (U := Basic.tables) pdf_a2 = Some kp
    /\ chiave_naturale (U := Basic.tables) pdf_a10 = Some kq
    /\ chiave_lt kq kp = false.
Proof.
  apply (natural_sort_is_sorted (U := Basic.tables) cartella_slide
           [pdf_a2; pdf_a10] 0 1);
    [vm_compute; reflexivity | lia | reflexivity | reflexivity].
Defined.

Lemma natural_sort_succeeds_witness :
  exists ordinati,
    ordina_file_naturalmente (U := Basic.tables) cartella_slide
    = Some ordinati.
Proof.
  apply (natural_sort_succeeds (U := Basic.tables)).
  intros pdf c _ _ Hd. exact Hd.
Defined.


Lemma smaller_number_sorts_first_witness :
  ordina_file_naturalmente (U := Basic.tables) cartella_slide
  = Some [pdf_a2; pdf_a10]
  /\ (int_of (U := Basic.tables) (u "2")
      < int_of (U := Basic.tables) (u "10"))%Z
  /\ (0 < 1)%nat.
Proof.
  assert (ordina_file_naturalmente (U := Basic.tables) cartella_slide
          = Some [pdf_a2; pdf_a10]) as Hsort by (vm_compute; reflexivity).
  assert (int_of (U := Basic.tables) (u "2")
          < int_of (U := Basic.tables) (u "10"))%Z as Hlt
    by (vm_compute; reflexivity).
  split; [exact Hsort |]. split; [exact Hlt |].
  apply (smaller_number_sorts_first (U := Basic.tables) cartella_slide
           [pdf_a2; pdf_a10] pdf_a2 pdf_a10 (u "a") (u "2") (u "10")
           (u ".pdf") (u ".pdf") 0 1 Hsort);
    try exact Hlt; try (vm_compute; reflexivity); try discriminate;
    apply (bool_decide_unpack _); vm_compute; reflexivity.
Defined.

(** ** The prompt and the files written *)

Section Files.

Context {U : Unicode}.

Implicit Types (w : Mondo) (cartella output_folder : str) (pdf : Pdf).

(** X20: the number of words that the prompt returns is positive: it is
    the default of 100, or a number that was typed. *)
Theorem prompt_gives_a_positive_budget (risposte : list risposta) (n : Z) :
  chiedi_parole risposte = Some n ->
  (0 < n)%Z /\ (n = 100%Z \/ Numero n ∈ risposte).
Proof.
  induction risposte as [| r risposte IH]; [done |].
  destruct r as [| m |]; simpl.
  - intros [= <-]. split; [lia | by left].
  - destruct (m <=? 0)%Z eqn:Em.
    + intros [Hpos [-> | Hin]]%IH; (split; [done |]);
        [by left | right; by right].
    + intros [= <-]. apply Z.leb_gt in Em. split; [done |].
      right. by left.
  - intros [Hpos [-> | Hin]]%IH; (split; [done |]);
      [by left | right; by right].
Qed.


Lemma file_attesi_cons cartella output_folder (n : Z) pdf (l : list Pdf) :
  file_attesi cartella output_folder n (pdf :: l)
  = match strip (estrai_testo_completo_pdf pdf) with
    | [] => []
    | _ => [(cartella, output_folder, pdf_stem pdf ++ u ".txt",
             dividi_in_blocchi_con_frasi (estrai_testo_completo_pdf pdf) n)]
    end ++ file_attesi cartella output_folder n l.
Proof.
  unfold file_attesi. rewrite filter_cons.
  destruct (strip (estrai_testo_completo_pdf pdf)) as [| c r] eqn:E.
  - by rewrite decide_False by (by intros ?).
  - by rewrite decide_True.
Qed.

(** The loop over the files: it writes the files of the documents it
    gets through, each of which could be written; it returns when it
    gets through all of them, and ends with the exception at a document
    with text whose file cannot be written. *)
Lemma elabora_file_spec w cartella output_folder (n : Z)
    (pdf_files : list Pdf) : forall scritti,
  let r := elabora_file w cartella output_folder n scritti pdf_files in
  exists fatti resto,
    pdf_files = fatti ++ resto
    /\ r.1.1 = scritti ++ file_attesi cartella output_folder n fatti
    /\ Forall (fun pdf =>
                 strip (estrai_testo_completo_pdf pdf) <> [] ->
                 scrittura w cartella output_folder (pdf_stem pdf ++ u ".txt")
                 = Scritta) fatti
    /\ (r.2 = Ritorna -> resto = [] /\ r.1.2 = [])
    /\ (r.2 = Eccezione ->
        exists pdf resto', resto = pdf :: resto'
          /\ strip (estrai_testo_completo_pdf pdf) <> []
          /\ scrittura w cartella output_folder (pdf_stem pdf ++ u ".txt")
             <> Scritta).
Proof.
  induction pdf_files as [| pdf pdf_files IH]; intros scritti.
  - exists [], []. simpl. rewrite app_nil_r. repeat split; done.
  - cbn [elabora_file]. cbv zeta.
    destruct (strip (estrai_testo_completo_pdf pdf)) as [| c0 s0] eqn:Et.
    + destruct (IH scritti) as (fatti & resto & -> & Hs & Hall & Hr & He).
      exists (pdf :: fatti), resto.
      rewrite file_attesi_cons, Et. simpl app.
      split; [done |]. split; [done |].
      split; [| done]. constructor; [| done]. by rewrite Et.
    + destruct (scrittura w cartella output_folder (pdf_stem pdf ++ u ".txt"))
        eqn:Es.
      * destruct (IH (scritti
                      ++ [(cartella, output_folder, pdf_stem pdf ++ u ".txt",
                           dividi_in_blocchi_con_frasi
                             (estrai_testo_completo_pdf pdf) n)]))
          as (fatti & resto & -> & Hs & Hall & Hr & He).
        exists (pdf :: fatti), resto.
        rewrite file_attesi_cons, Et.
        split; [done |]. split; [by rewrite Hs, <- app_assoc |].
        split; [| done]. by constructor.
      * exists [], (pdf :: pdf_files). simpl. rewrite app_nil_r.
        repeat split; try done.
        intros _. exists pdf, pdf_files. rewrite Et, Es. by repeat split.
      * exists [], (pdf :: pdf_files). simpl. rewrite app_nil_r.
        repeat split; try done.
        intros _. exists pdf, pdf_files. rewrite Et, Es. by repeat split.
Qed.


(** X22: a file is written in full only when the libraries can be
    imported, the output directory could be made (it was created, or
    was already there) and the file could be opened and written; the
    file is in the output directory of the directory given as first
    argument, it is named after a document of that directory, and its
    content is the text of that document divided into blocks with the
    budget of the prompt, which is not blank. *)
Theorem files_written_come_from_documents w (argv : list str)
    (c o nome contenuto : str) :
  let r := main w argv in
  (c, o, nome, contenuto) ∈ file_scritti r.1 ->
  librerie w = true
  /\ argv !! 1%nat = Some c
  /\ mkdir w c o <> MkdirFallita
  /\ cartelle_create r.1
     = match mkdir w c o with Creata => [(c, o)] | _ => [] end
  /\ scrittura w c o nome = Scritta
  /\ senza_spazi contenuto <> []
  /\ exists pdfs pdf n,
       percorsi w !! c = Some pdfs /\ pdf ∈ pdfs
       /\ chiedi_parole (risposte w) = Some n
       /\ nome = pdf_stem pdf ++ u ".txt"
       /\ contenuto
          = dividi_in_blocchi_con_frasi (estrai_testo_completo_pdf pdf) n.
Proof.
  unfold main. destruct (librerie w); simpl;
    [| by intros ?%elem_of_nil].
  destruct argv as [| a0 [| cartella resto]]; simpl;
    [by intros ?%elem_of_nil | by intros ?%elem_of_nil |].
  set (output_folder := match resto with o' :: _ => o' | [] => u "output_txt" end).
  destruct (elabora_cartella w cartella output_folder) as [effetti f] eqn:E.
  simpl. intros Hin.
  unfold elabora_cartella in E.
  destruct (bool_decide (cartella ∈ illeggibili w)).
  { injection E as <- <-. by apply elem_of_nil in Hin. }
  destruct (percorsi w !! cartella) as [pdfs |] eqn:Hdir.
  2: { injection E as <- <-. by apply elem_of_nil in Hin. }
  destruct (ordina_file_naturalmente pdfs) as [ordinati |] eqn:Hsort.
  2: { injection E as <- <-. by apply elem_of_nil in Hin. }
  destruct ordinati as [| pdf0 ordinati].
  { injection E as <- <-. by apply elem_of_nil in Hin. }
  set (ordinati' := pdf0 :: ordinati) in *.
  assert (exists n create,
            chiedi_parole (risposte w) = Some n
            /\ mkdir w cartella output_folder <> MkdirFallita
            /\ create = match mkdir w cartella output_folder with
                        | Creata => [(cartella, output_folder)]
                        | _ => []
                        end
            /\ effetti
               = mkEffetti create
                   (elabora_file w cartella output_folder n [] ordinati').1.1
                   (elabora_file w cartella output_folder n [] ordinati').1.2)
    as (n & create & Hn & Hm & Hcreate & ->).
  { destruct (mkdir w cartella output_folder) eqn:Em;
      destruct (chiedi_parole (risposte w)) as [n |] eqn:Hn;
      try (injection E as <- <-; by apply elem_of_nil in Hin).
    all: destruct (elabora_file w cartella output_folder n [] ordinati')
           as [[scritti incompleti] f'] eqn:Ef;
      simpl in E; injection E as <- <-; exists n; eexists;
      (split; [done |]); (split; [done |]); (split; [reflexivity |]);
      by rewrite Ef. }
  cbn [file_scritti cartelle_create] in *.
  destruct (elabora_file_spec w cartella output_folder n ordinati' [])
    as (fatti & altri & Hsplit & Hs & Hall & _).
  cbv zeta in Hs. rewrite app_nil_l in Hs. rewrite Hs in Hin.
  unfold file_attesi in Hin.
  apply list_elem_of_fmap in Hin as (pdf & Heq & Hpdf).
  apply list_elem_of_filter in Hpdf as [Htesto Hpdf].
  injection Heq as -> -> -> ->.
  rewrite Forall_forall in Hall.
  split; [done |]. split; [done |]. split; [done |]. split; [done |].
  split; [by apply Hall |]. split.
  - rewrite senza_spazi_dividi. by rewrite <- strip_nil.
  - exists pdfs, pdf, n. split; [done |]. split; [| done].
    rewrite <- (ordina_file_naturalmente_perm pdfs _ Hsort).
    fold ordinati'. rewrite Hsplit. apply elem_of_app. by left.
Qed.

End Files.

Lemma prompt_gives_a_positive_budget_witness :
  (0 < 4)%Z /\ (4%Z = 100%Z \/ Numero 4 ∈ risposte mondo_slide).
Proof.
  apply (prompt_gives_a_positive_budget (risposte mondo_slide) 4).
  reflexivity.
Defined.


Lemma files_written_come_from_documents_witness :
  mkdir mondo_slide (u "./slide") (u "output_txt") <> MkdirFallita
  /\ scrittura mondo_slide (u "./slide") (u "output_txt") (u "a10.txt")
     = Scritta.
Proof.
  destruct (files_written_come_from_documents (U := Basic.tables)
              mondo_slide argv_slide (u "./slide") (u "output_txt")
              (u "a10.txt")
              (u "Pag." ++ [10; 10]
               ++ u "3 This is real content about α and β coefficients."))
    as (_ & _ & Hmkdir & _ & Hscritta & _).
  - apply (bool_decide_unpack _). vm_compute. reflexivity.
  - split; [exact Hmkdir | exact Hscritta].
Defined.

(** ** The range of the similarity *)

Section Range.

Local Open Scope nat_scope.
Import Difflib.

Variables a b : str.

Implicit Types (i j k alo ahi blo bhi : nat) (st : search * gmap nat nat)
  (queue : list (nat * nat * nat * nat)) (blocks : list Match).

Lemma scan_row_colonne blo bhi i j2len :
  (forall j v, j2len !! j = Some v -> blo <= j /\ j < bhi /\ v <= S j - blo) ->
  forall js st,
  entro_colonne blo bhi st ->
  entro_colonne blo bhi (scan_row blo bhi i j2len js st).
Proof.
  intros Hj2. induction js as [| j js IH]; intros st Hst; [done |].
  simpl. destruct (j <? blo) eqn:Elo; [by apply IH |].
  destruct (bhi <=? j) eqn:Ehi; [done |].
  apply Nat.ltb_ge in Elo. apply Nat.leb_gt in Ehi.
  assert (j2len_before j2len j + 1 <= S j - blo) as Hk.
  { unfold j2len_before. destruct j as [| j']; [lia |].
    destruct (j2len !! j') as [v |] eqn:Ev; simpl; [| lia].
    destruct (Hj2 j' v Ev) as (? & ? & ?). lia. }
  destruct Hst as (Hlo & Hhi & Hm).
  assert (forall j0 v, <[j := j2len_before j2len j + 1]> st.2 !! j0 = Some v ->
            blo <= j0 /\ j0 < bhi /\ v <= S j0 - blo) as Hm'.
  { intros j0 v. destruct (decide (j = j0)) as [-> | Hne].
    - rewrite lookup_insert_eq. intros [= <-]. lia.
    - rewrite lookup_insert_ne by done. apply Hm. }
  destruct (_ <? _); apply IH; (split; [| split]); simpl; try done; lia.
Qed.

Lemma scan_step_colonne blo bhi i st :
  entro_colonne blo bhi st ->
  entro_colonne blo bhi (scan_step a b blo bhi st i).
Proof.
  intros (Hlo & Hhi & Hm). unfold scan_step.
  apply scan_row_colonne; [done |].
  split; [| split]; simpl; [done | done |].
  intros j v Hv. by rewrite lookup_empty in Hv.
Qed.

Lemma scan_fold_colonne blo bhi (righe : list nat) : forall st,
  entro_colonne blo bhi st ->
  entro_colonne blo bhi (foldl (scan_step a b blo bhi) st righe).
Proof.
  induction righe as [| i righe IH]; intros st Hst; simpl; [done |].
  by apply IH, scan_step_colonne.
Qed.

Lemma scan_colonne alo ahi blo bhi :
  blo <= bhi ->
  let s := scan a b alo ahi blo bhi in
  blo <= bestj s /\ bestj s + bestsize s <= bhi.
Proof.
  intros Hle. unfold scan.
  destruct (scan_fold_colonne blo bhi (seq alo (ahi - alo))
              (mkSearch alo blo 0, ∅)) as (Hlo & Hhi & _); [| done].
  split; [| split]; simpl; [lia | lia |].
  intros j v Hv. by rewrite lookup_empty in Hv.
Qed.

Lemma extend_left_colonne alo blo i : forall j size,
  blo <= j ->
  let l := extend_left a b alo blo i j size in
  blo <= bestj l /\ bestj l + bestsize l = j + size.
Proof.
  induction i as [| i IH]; intros j size Hj; simpl; [done |].
  destruct j as [| j]; simpl; [done |].
  destruct (alo <? S i); simpl; [| done].
  destruct (blo <? S j) eqn:Elt; simpl; [| done].
  destruct (N.eqb _ _); simpl; [| done].
  apply Nat.ltb_lt in Elt.
  destruct (IH j (S size)) as [Hlo Hsum]; [lia |]. split; [done | lia].
Qed.

Lemma extend_right_colonne n ahi bhi i j : forall size,
  j + size <= bhi ->
  j + extend_right a b n ahi bhi i j size <= bhi.
Proof.
  induction n as [| n IH]; intros size Hle; simpl; [done |].
  destruct (i + size <? ahi); simpl; [| done].
  destruct (j + size <? bhi) eqn:Elt; simpl; [| done].
  destruct (N.eqb _ _); simpl; [| done].
  apply Nat.ltb_lt in Elt. apply IH. lia.
Qed.

(** The longest match lies within the range of [b] that is searched. *)
Lemma find_longest_match_colonne alo ahi blo bhi :
  blo <= bhi ->
  let x := find_longest_match a b alo ahi blo bhi in
  blo <= m_b x /\ m_b x + m_size x <= bhi.
Proof.
  intros Hle. unfold find_longest_match. simpl.
  destruct (scan_colonne alo ahi blo bhi Hle) as [Hlo Hhi].
  destruct (extend_left_colonne alo blo
              (besti (scan a b alo ahi blo bhi)) _
              (bestsize (scan a b alo ahi blo bhi)) Hlo) as [Hlo' Hsum].
  split; [done |].
  apply extend_right_colonne. lia.
Qed.

Lemma somma_app blocks (blocks' : list Match) :
  somma (blocks ++ blocks') = somma blocks + somma blocks'.
Proof. unfold somma. by rewrite fmap_app, sum_list_with_app. Qed.

Lemma somma_cons (x : Match) blocks :
  somma (x :: blocks) = m_size x + somma blocks.
Proof. done. Qed.

(** The blocks found match no more characters than the ranges still to
    be searched hold, on either side. *)
Lemma matching_blocks_go_somma fuel : forall queue blocks,
  Forall (fun q => q.1.1.1 <= q.1.1.2 /\ q.1.2 <= q.2) queue ->
  somma (matching_blocks_go a b fuel queue blocks)
  <= somma blocks + sum_list (lato_a <$> queue)
  /\ somma (matching_blocks_go a b fuel queue blocks)
     <= somma blocks + sum_list (lato_b <$> queue).
Proof.
  induction fuel as [| fuel IH]; intros queue blocks Hwf.
  - destruct queue as [| [[[alo ahi] blo] bhi] queue]; simpl; lia.
  - destruct queue as [| [[[alo ahi] blo] bhi] queue]; [simpl; lia |].
    apply Forall_cons in Hwf as [[Ha Hb] Hwf]. simpl in Ha, Hb.
    cbn [matching_blocks_go].
    pose proof (find_longest_match_bound a b alo ahi blo bhi Ha)
      as [Halo Hahi].
    pose proof (find_longest_match_colonne alo ahi blo bhi Hb)
      as [Hblo Hbhi].
    remember (find_longest_match a b alo ahi blo bhi) as x eqn:Ex.
    clear Ex.
    assert (sum_list (lato_a <$> (alo, ahi, blo, bhi) :: queue)
            = (ahi - alo) + sum_list (lato_a <$> queue)) as -> by done.
    assert (sum_list (lato_b <$> (alo, ahi, blo, bhi) :: queue)
            = (bhi - blo) + sum_list (lato_b <$> queue)) as -> by done.
    destruct (0 <? m_size x) eqn:Ek.
    2: { destruct (IH queue blocks Hwf). lia. }
    assert (forall alo' ahi' blo' bhi' (q : list (nat * nat * nat * nat)),
              sum_list (lato_a <$> (alo', ahi', blo', bhi') :: q)
              = (ahi' - alo') + sum_list (lato_a <$> q)
              /\ sum_list (lato_b <$> (alo', ahi', blo', bhi') :: q)
                 = (bhi' - blo') + sum_list (lato_b <$> q)) as Hcons
      by done.
    destruct ((alo <? m_a x) && (blo <? m_b x)) eqn:E1;
      destruct ((m_a x + m_size x <? ahi) && (m_b x + m_size x <? bhi))
        eqn:E2;
      (match goal with
       | |- context [matching_blocks_go a b fuel ?q (blocks ++ [x])] =>
         destruct (IH q (blocks ++ [x])) as [Hra Hrb]
       end;
       [repeat (apply Forall_cons; split); try done; simpl; lia |]);
      rewrite somma_app, somma_cons in Hra, Hrb;
      change (somma []) with 0 in Hra, Hrb;
      repeat (rewrite (proj1 (Hcons _ _ _ _ _)) in Hra;
              rewrite (proj2 (Hcons _ _ _ _ _)) in Hrb);
      lia.
Qed.

Lemma collapse_somma blocks : forall (cur : Match),
  somma (collapse cur blocks) = m_size cur + somma blocks.
Proof.
  induction blocks as [| x blocks IH]; intros cur; simpl.
  - destruct (0 <? m_size cur) eqn:E; [done |].
    apply Nat.ltb_ge in E. change (somma []) with 0. lia.
  - destruct (_ && _).
    + rewrite IH, somma_cons. simpl. lia.
    + rewrite somma_app, IH, somma_cons.
      destruct (0 <? m_size cur) eqn:E.
      * rewrite somma_cons. change (somma []) with 0. lia.
      * apply Nat.ltb_ge in E. change (somma []) with 0. lia.
Qed.

Lemma get_matching_blocks_somma :
  somma (get_matching_blocks a b) <= length a
  /\ somma (get_matching_blocks a b) <= length b.
Proof.
  unfold get_matching_blocks. cbv zeta.
  rewrite somma_app, collapse_somma.
  assert (forall l : list Match, somma (merge_sort match_le l) = somma l)
    as ->.
  { intros l. unfold somma. by rewrite merge_sort_Permutation. }
  destruct (matching_blocks_go_somma (S (length a))
              [(0, length a, 0, length b)] []) as [Ha Hb].
  { constructor; [simpl; lia | done]. }
  change (somma []) with 0 in *.
  change (sum_list (lato_a <$> [(0, length a, 0, length b)]))
    with (length a - 0 + 0) in Ha.
  change (sum_list (lato_b <$> [(0, length a, 0, length b)]))
    with (length b - 0 + 0) in Hb.
  change (somma [mkMatch (length a) (length b) 0]) with 0.
  simpl m_size. lia.
Qed.

Lemma calculate_ratio_range (matches len : nat) :
  2 * matches <= len ->
  (0 <= calculate_ratio matches len <= 1)%Q.
Proof.
  intros Hle. unfold calculate_ratio.
  destruct (0 <? len) eqn:E; [| done].
  apply Nat.ltb_lt in E. rewrite Qred_correct.
  unfold Qle. cbn [Qnum Qden].
  rewrite <- (positive_nat_Z (Pos.of_nat len)), Nat2Pos.id by lia.
  lia.
Qed.

Lemma ratio_range : (0 <= ratio a b <= 1)%Q.
Proof.
  unfold ratio. apply calculate_ratio_range.
  pose proof get_matching_blocks_somma as [Ha Hb].
  unfold somma in Ha, Hb. lia.
Qed.

End Range.

Section Bounded.

Context {U : Unicode}.

(** X23: the similarity of two texts is a number between 0 and 1. *)
Theorem similarity_is_between_0_and_1 (testo1 testo2 : str) :
  (0 <= calcola_similarita testo1 testo2 <= 1)%Q.
Proof.
  unfold calcola_similarita.
  destruct testo1; [done |]. destruct testo2; [done |].
  apply ratio_range.
Qed.

End Bounded.

(** ** Texts without a common character *)

Section Disjoint.

Local Open Scope nat_scope.
Import Difflib.

Variables a b : str.

Hypothesis disgiunti : forall c, c ∈ a -> c ∉ b.

Lemma posizioni_disgiunti i : i < length a -> posizioni (a !!! i) b = [].
Proof.
  intros Hi. destruct (posizioni (a !!! i) b) as [| j js] eqn:E; [done |].
  assert (j ∈ posizioni (a !!! i) b) as Hj by (rewrite E; by left).
  apply posizioni_elem in Hj as [Hj _].
  exfalso. apply (disgiunti (a !!! i)).
  - apply list_elem_of_lookup_total_2. lia.
  - by apply list_elem_of_lookup_2 in Hj.
Qed.

Lemma scan_fold_disgiunti blo bhi k : forall i (s : search),
  i + k <= length a ->
  (foldl (scan_step a b blo bhi) (s, ∅) (seq i k)).1 = s.
Proof.
  induction k as [| k IH]; intros i s Hk; [done |]. simpl.
  unfold scan_step at 2. rewrite b2j_posizioni.
  rewrite posizioni_disgiunti by lia.
  assert ((if popular b [] then [] else []) = @nil nat) as ->
    by (by destruct (popular b [])).
  simpl. apply IH. lia.
Qed.

Lemma find_longest_match_disgiunti :
  find_longest_match a b 0 (length a) 0 (length b) = mkMatch 0 0 0.
Proof.
  unfold find_longest_match, scan.
  rewrite scan_fold_disgiunti by lia. cbn [besti bestj bestsize extend_left].
  rewrite Nat.sub_0_r.
  destruct (length a) as [| n] eqn:Ea; [done |].
  cbn [extend_right]. rewrite Nat.add_0_l.
  destruct (0 <? length b) eqn:Eb; [| by rewrite andb_false_r].
  apply Nat.ltb_lt in Eb.
  assert (N.eqb (a !!! 0) (b !!! 0) = false) as ->;
    [| by rewrite andb_false_r].
  apply N.eqb_neq. intros Heq.
  apply (disgiunti (a !!! 0)).
  - apply list_elem_of_lookup_total_2. lia.
  - rewrite Heq. apply list_elem_of_lookup_total_2. lia.
Qed.

Lemma ratio_disgiunti : a <> [] -> ratio a b = 0%Q.
Proof.
  intros Hne. unfold ratio, get_matching_blocks.
  cbn [matching_blocks_go]. rewrite find_longest_match_disgiunti.
  cbn [m_size Nat.ltb Nat.leb]. rewrite matching_blocks_go_nil.
  change (merge_sort match_le []) with (@nil Match).
  cbn [collapse m_size Nat.ltb Nat.leb app fmap list_fmap].
  change (sum_list [0]) with 0.
  unfold calculate_ratio.
  assert ((0 <? length a + length b) = true) as ->.
  { apply Nat.ltb_lt. destruct a; [done | simpl; lia]. }
  change 0%Q with (Qred 0). by apply Qred_complete.
Qed.

End Disjoint.

Section Unrelated.

Context {U : Unicode}.

(** X24: two texts whose lower-case forms have no character in common
    have similarity 0. *)
Theorem similarity_of_unrelated_texts (testo1 testo2 : str) :
  uc_lower testo1 <> [] ->
  (forall c, c ∈ uc_lower testo1 -> c ∉ uc_lower testo2) ->
  calcola_similarita testo1 testo2 = 0%Q.
Proof.
  intros Hne Hdis. unfold calcola_similarita.
  destruct testo1; [done |]. destruct testo2; [done |].
  by apply ratio_disgiunti.
Qed.

End Unrelated.

Lemma similarity_of_unrelated_texts_witness :
  calcola_similarita (U := Basic.tables) (u "ABC abc") (u "xyz-XYZ") = 0%Q.
Proof.
  apply (similarity_of_unrelated_texts (U := Basic.tables)).
  - vm_compute. discriminate.
  - apply (proj1 (Forall_forall
                    (fun c => c ∉ uc_lower (Unicode := Basic.tables)
                                    (u "xyz-XYZ"))
                    (uc_lower (Unicode := Basic.tables) (u "ABC abc")))).
    apply (bool_decide_unpack _). vm_compute. reflexivity.
Defined.

(** ** The white space of a document *)

Section OneLine.

Context {U : Unicode}.

Implicit Types (P : N -> Prop) (s : str).

Lemma evens_elem {A} (l : list A) : forall x, x ∈ Re.evens l -> x ∈ l.
Proof.
  assert (forall l : list A,
            (forall x, x ∈ Re.evens l -> x ∈ l)
            /\ forall y x, x ∈ Re.evens (y :: l) -> x ∈ y :: l) as H.
  { clear l. induction l as [| z l [IH1 IH2]].
    - split; [done |]. intros y x. done.
    - split; [apply IH2 |]. intros y x.
      change (Re.evens (y :: z :: l)) with (y :: Re.evens l).
      intros [-> | Hx]%elem_of_cons; [by left |].
      right. right. by apply IH1. }
  apply H.
Qed.

Lemma Forall_frammenti P s : Forall P s -> Forall (Forall P) (frammenti s).
Proof.
  intros Hs. unfold frammenti. apply Forall_fmap, Forall_forall.
  intros pezzo Hpezzo%evens_elem. simpl. apply Forall_strip.
  apply Forall_forall. intros c Hc. rewrite Forall_forall in Hs. apply Hs.
  pose proof (split_capture_go_concat terminatore s [] []) as Hconcat.
  simpl in Hconcat. rewrite <- Hconcat.
  apply list_elem_of_In, in_concat. exists pezzo.
  by rewrite <- !list_elem_of_In.
Qed.

Lemma Forall_unisci_testo_pagina P (native ocr : str) (pag : nat) :
  P 46 -> P 32 -> Forall P native -> Forall P ocr ->
  Forall P (unisci_testo_pagina native ocr pag).
Proof.
  intros Hdot Hsp Hn Ho. unfold unisci_testo_pagina.
  destruct (_ || _); [by destruct ocr |].
  destruct (_ || _); [done |].
  destruct (float_lt _ _); [done |].
  pose proof (trova_frasi_uniche_frammenti native ocr) as Hsub.
  pose proof (Forall_frammenti P ocr Ho) as Hfr.
  assert (Forall (Forall P) (trova_frasi_uniche native ocr)) as Hnuove.
  { apply Forall_forall. intros f Hf. rewrite Forall_forall in Hfr.
    apply Hfr. by apply (elem_of_sublist _ _ _ Hf Hsub). }
  destruct (trova_frasi_uniche native ocr) as [| f nuove] eqn:E; [done |].
  assert (Forall P (u ". ")) as Hsep by (by repeat constructor).
  rewrite !Forall_app. split; [done |]. split; [done |].
  by apply Forall_join.
Qed.

Lemma Forall_pagina P (testi : list str) (i : nat) :
  Forall (Forall P) testi -> Forall P (pagina testi i).
Proof.
  intros Hall. unfold pagina. destruct (testi !! i) as [t |] eqn:E; [| done].
  simpl. rewrite Forall_forall in Hall. apply Hall.
  by apply list_elem_of_lookup_2 in E.
Qed.

Lemma Forall_unisci_pagine P (testi_nativi testi_ocr : list str) :
  P 46 -> P 32 ->
  Forall (Forall P) testi_nativi -> Forall (Forall P) testi_ocr ->
  Forall P (unisci_pagine testi_nativi testi_ocr).
Proof.
  intros Hdot Hsp Hn Ho. rewrite unisci_pagine_assemble. unfold assemble.
  apply Forall_join; [by repeat constructor |].
  apply Forall_forall. intros t [_ Ht]%list_elem_of_filter.
  apply list_elem_of_fmap in Ht as (i & -> & _).
  apply Forall_unisci_testo_pagina; try done; by apply Forall_pagina.
Qed.

Lemma pulisci_testo_ocr_spazi (testo : str) :
  Forall (fun c => isspace c = true -> c = 32) (pulisci_testo_ocr testo).
Proof.
  eapply Forall_impl; [apply pulisci_testo_ocr_caratteri |].
  intros c [-> | (_ & Hs & _)]; [done |]. simpl. by rewrite Hs.
Qed.

(** X25: the text of a document is one line: it holds no white space
    character other than the space (no line feed, no tab), whatever the
    pages of the document are. *)
Theorem document_text_is_one_line (pdf : Pdf) :
  Forall (fun c => isspace c = true -> c = 32)
         (estrai_testo_completo_pdf pdf).
Proof.
  unfold estrai_testo_completo_pdf.
  apply Forall_unisci_pagine; [done | done | |].
  - unfold estrai_testo_per_pagina_pdf.
    destruct (pdf_pagine pdf) as [pagine |]; [| done].
    apply Forall_fmap, Forall_forall. intros p _.
    apply pulisci_testo_ocr_spazi.
  - unfold estrai_testo_ocr_per_pagina.
    destruct (pdf_ocr pdf) as [pagine |]; [| done].
    apply Forall_fmap, Forall_forall. intros p _.
    apply pulisci_testo_ocr_spazi.
Qed.

End OneLine.

(** ** Answers at the prompt *)

Section Prompt.

(** X26: the prompt asks again after every answer that it refuses: the
    answers that are not numbers or are not positive are skipped, and
    the budget is read from what follows them. *)
Theorem prompt_skips_refused_answers (scartate resto : list risposta) :
  Forall rifiutata scartate ->
  chiedi_parole (scartate ++ resto) = chiedi_parole resto.
Proof.
  induction 1 as [| r scartate Hr Hs IH]; [done |].
  destruct r as [| n |]; simpl in *; [done | | done].
  by rewrite (proj2 (Z.leb_le n 0) Hr).
Qed.

End Prompt.

Lemma prompt_skips_refused_answers_witness :
  chiedi_parole (risposte mondo_slide) = Some 4%Z.
Proof.
  change (risposte mondo_slide) with ([NonNumero; Numero 0] ++ [Numero 4]).
  rewrite prompt_skips_refused_answers; [reflexivity |].
  repeat constructor. simpl. lia.
Defined.
